(** * BizRuleNet: graph loaders and the read-only query gateway

    A shallow embedding of
      - [src/mcp/mcp_server.py]   (the query gateway: [_is_read_only], [query_runner]),
      - [src/load_neo4j_graph.py] (the property-graph writer: [Neo4jLoader.load_from_json]),
      - [src/load_pyg_graph.py]   (the heterogeneous assembler: [load_hetero_graph]),
    followed by the properties established about them.

    Conventions.
      - Python [str] values are Rocq strings read as ASCII text; [str.upper]
        and [str.rstrip] act on the ASCII letters and the ASCII white space,
        every other character is left alone. [str.upper] and [str.isspace]
        reach beyond ASCII, and the gateway applies them to text it is
        handed from outside: [_is_read_only] and [query_runner] are
        therefore embedded a second time over code points, with the two
        tables of the runtime as parameters ([PyText], [McpServerText]).
        On text within ASCII the two embeddings agree
        ([TextFacts.query_runner_agree]).
      - A Python [dict] whose iteration order reaches a query text or decides
        which error comes first is an association list in insertion order; the
        stores of a [HeteroData] object, which are only looked up, are [gmap]s.
      - Exceptions and the session with the database are threaded through a
        small state-and-exception monad; the Bolt driver and the tensor
        library are collaborators outside the repository. *)

From Stdlib Require Import Strings.String Strings.Ascii ZArith Lia Bool List.
From stdpp Require Import gmap strings list.
Import ListNotations.

Local Open Scope string_scope.
Local Open Scope list_scope.

(** Let [simpl] compute string concatenation on a known head. *)
#[local] Arguments String.append !s1 s2 : simpl nomatch.

(* ===================================================================== *)
(** ** Python strings *)
(* ===================================================================== *)

Module PyStr.

Definition nl : string := String (ascii_of_nat 10) EmptyString.

Definition is_lower (c : ascii) : bool :=
  Nat.leb 97 (nat_of_ascii c) && Nat.leb (nat_of_ascii c) 122.

Definition is_upper (c : ascii) : bool :=
  Nat.leb 65 (nat_of_ascii c) && Nat.leb (nat_of_ascii c) 90.

Definition upper_char (c : ascii) : ascii :=
  if is_lower c then ascii_of_nat (nat_of_ascii c - 32) else c.

Definition lower_char (c : ascii) : ascii :=
  if is_upper c then ascii_of_nat (nat_of_ascii c + 32) else c.

(** [s.upper()] *)
Fixpoint upper (s : string) : string :=
  match s with
  | EmptyString => EmptyString
  | String c t => String (upper_char c) (upper t)
  end.

(** [s.lower()]; not called by the sources, it is the yardstick against
    which "case-insensitively" is stated. *)
Fixpoint lower (s : string) : string :=
  match s with
  | EmptyString => EmptyString
  | String c t => String (lower_char c) (lower t)
  end.

(** [s.startswith(p)] *)
Fixpoint startswith (p s : string) : bool :=
  match p, s with
  | EmptyString, _ => true
  | String a p', String b s' => Ascii.eqb a b && startswith p' s'
  | String _ _, EmptyString => false
  end.

(** [sub in s] *)
Fixpoint str_in (sub s : string) : bool :=
  startswith sub s ||
  match s with
  | EmptyString => false
  | String _ t => str_in sub t
  end.

(** [c.isspace()] on ASCII: tab, line feed, vertical tab, form feed,
    carriage return, the four separators 28..31 and the blank. *)
Definition is_space (c : ascii) : bool :=
  let n := nat_of_ascii c in
  (Nat.leb 9 n && Nat.leb n 13) || (Nat.leb 28 n && Nat.leb n 32).

Definition is_empty (s : string) : bool :=
  match s with EmptyString => true | String _ _ => false end.

(** [s.rstrip()] *)
Fixpoint rstrip (s : string) : string :=
  match s with
  | EmptyString => EmptyString
  | String c t =>
      let t' := rstrip t in
      if is_empty t' && is_space c then EmptyString else String c t'
  end.

(** [sep.join(l)] *)
Fixpoint join (sep : string) (l : list string) : string :=
  match l with
  | [] => EmptyString
  | [x] => x
  | x :: t => x +:+ sep +:+ join sep t
  end.

(** [s.split(sep)] for a one-character separator. *)
Fixpoint split (sep : ascii) (s : string) : list string :=
  match s with
  | EmptyString => [EmptyString]
  | String c t =>
      if Ascii.eqb c sep then EmptyString :: split sep t
      else match split sep t with
           | [] => [String c EmptyString]
           | h :: r => String c h :: r
           end
  end.

Definition all_space (s : string) : Prop :=
  forall c, In c (list_ascii_of_string s) -> is_space c = true.

End PyStr.

(* ===================================================================== *)
(** ** Exceptions, JSON scalars and the database session *)
(* ===================================================================== *)

Module Py.

(** The exception classes that occur; [DriverError] stands for whatever the
    Bolt driver or the database raises. *)
Inductive exn : Type :=
| TypeError
| ValueError
| KeyError (key : string)
| RuntimeError
| DriverError (msg : string).

(** JSON scalars as [json.load] delivers them. A float is kept as its
    literal: the loaders only pass property values through. *)
Inductive JVal : Type :=
| JNull
| JBool (b : bool)
| JInt (z : Z)
| JFloat (lit : string)
| JStr (s : string).

(** One evaluation of [session.run(query, **kwargs)]. The keyword
    arguments are listed as written at the call site, explicit ones first. *)
Record Call : Type := mkCall {
  call_query : string;
  call_kwargs : list (string * JVal)
}.

Section Session.

Context {Store Rec : Type}.

(** What one [session.run] does: raise or deliver records, and move the
    database to a new state. Binding the arguments belongs to it. *)
Definition Driver : Type := Call -> Store -> (exn + list Rec) * Store.

(** The database and the history of all calls made so far, oldest first,
    each with its outcome. *)
Record World : Type := mkWorld {
  db : Store;
  trace : list (Call * (exn + list Rec))
}.

Definition M (A : Type) : Type := World -> (exn + A) * World.

Definition ret {A} (a : A) : M A := fun w => (inr a, w).

Definition raise {A} (e : exn) : M A := fun w => (inl e, w).

Definition bind {A B} (m : M A) (k : A -> M B) : M B :=
  fun w => match m w with
           | (inl e, w') => (inl e, w')
           | (inr a, w') => k a w'
           end.

(** [try: body  except Exception as e: handler(e)] *)
Definition try_except {A} (body : M A) (handler : exn -> M A) : M A :=
  fun w => match body w with
           | (inl e, w') => handler e w'
           | (inr a, w') => (inr a, w')
           end.

(** [session.run(...)]: consult the driver, record the call. *)
Definition session_run (drv : Driver) (c : Call) : M (list Rec) :=
  fun w => let (r, s) := drv c (db w) in
           (r, {| db := s; trace := trace w ++ [(c, r)] |}).

End Session.

Arguments World : clear implicits.
Arguments M : clear implicits.
Arguments Driver : clear implicits.

End Py.

Declare Scope py_scope.
Delimit Scope py_scope with py.
Notation "x <- m ;; k" := (Py.bind m (fun x => k))
  (at level 100, m at next level, right associativity) : py_scope.
Notation "m ;;; k" := (Py.bind m (fun _ => k))
  (at level 100, right associativity) : py_scope.

(* ===================================================================== *)
(** ** [src/mcp/mcp_server.py] *)
(* ===================================================================== *)

Module McpServer.
Import PyStr Py.

Definition bad : list string :=
  ["CREATE"; "MERGE"; "DELETE"; "SET"; "DROP"; "CALL dbms"; "LOAD CSV"].

(** [any(b in up for b in bad)] *)
Definition any_in (l : list string) (up : string) : bool :=
  existsb (fun b => str_in b up) l.

Definition _is_read_only (cypher : string) : bool :=
  let up := upper cypher in
  negb (any_in bad up).

Definition refusal : string := "Refused: only read-only Cypher is allowed.".

Definition no_results : string := "No results found.".

Definition limit_clause : string := nl +:+ "LIMIT 25".

Section Gateway.

Context {Store Rec : Type}.
Variable drv : Driver Store Rec.
(** [str(r.data())] *)
Variable record_str : Rec -> string.

(** [_run(cypher)]: a fresh [Neo4jGraph], one [session.run(query, None)]
    whose records are collected in a list. Opening and closing the driver
    and the session are taken not to raise. *)
Definition _run (cypher : string) : M Store Rec (list Rec) :=
  session_run drv (mkCall cypher []).

Definition query_runner (cypher_q : string) : M Store Rec string :=
  if negb (_is_read_only cypher_q) then ret refusal
  else
    let cypher_q :=
      if negb (str_in "LIMIT" (upper cypher_q))
      then rstrip cypher_q +:+ limit_clause
      else cypher_q in
    (results <- _run cypher_q ;;
     let formatted := join nl (map record_str results) in
     ret (if is_empty formatted then no_results else formatted))%py.

End Gateway.

End McpServer.

(* ===================================================================== *)
(** ** [src/load_neo4j_graph.py] *)
(* ===================================================================== *)

Module LoadNeo4j.
Import PyStr Py.

(** A property bag: a Python [dict] with string keys, in insertion order. *)
Definition Props : Type := list (string * JVal).

(** [d.get(k)] *)
Fixpoint dict_get {V} (k : string) (d : list (string * V)) : option V :=
  match d with
  | [] => None
  | (k', v) :: t => if String.eqb k' k then Some v else dict_get k t
  end.

(** [d[k] = v]: an existing key keeps its place, a new one goes last. *)
Fixpoint dict_set {V} (k : string) (v : V) (d : list (string * V)) : list (string * V) :=
  match d with
  | [] => [(k, v)]
  | (k', v') :: t =>
      if String.eqb k' k then (k', v) :: t else (k', v') :: dict_set k v t
  end.

(** [d.keys()] *)
Definition keys {V} (d : list (string * V)) : list string := map fst d.

(** An entry of [export['nodes']]; [None] is a key that is absent. *)
Record ExportedNode : Type := mkNode {
  node_id : option JVal;
  node_labels : option (list string);
  node_properties : option Props
}.

(** An entry of [export['relationships']]. *)
Record ExportedRel : Type := mkRel {
  rel_type : option string;
  rel_startNodeId : option JVal;
  rel_endNodeId : option JVal;
  rel_properties : option Props
}.

Record Export : Type := mkExport {
  nodes : option (list ExportedNode);
  relationships : option (list ExportedRel)
}.

Definition marker : string := "_rulenet_id".

(** [', '.join([f"{k}: ${k}" for k in props.keys()])] *)
Definition props_str_of (props : Props) : string :=
  join ", " (map (fun k => k +:+ ": $" +:+ k) (keys props)).

(** The properties a node is created with: the declared ones after
    [props['_rulenet_id'] = node_id]. *)
Definition node_props (node : ExportedNode) : Props :=
  let props := default [] (node_properties node) in
  let node_id := default JNull (node_id node) in
  dict_set marker node_id props.

(** The [session.run(query, **props)] of one node. *)
Definition node_call (node : ExportedNode) : Call :=
  let labels := join ":" (default ["Node"] (node_labels node)) in
  let props := node_props node in
  let props_str := props_str_of props in
  let query := "CREATE (n:" +:+ labels +:+ " {" +:+ props_str +:+ "})" in
  mkCall query props.

Definition indent : string := "                ".

(** The [session.run(query, start_id=start_id, end_id=end_id, **props)] of
    one relationship. *)
Definition rel_call (rel : ExportedRel) : Call :=
  let rel_type := default "RELATED_TO" (rel_type rel) in
  let start_id := default JNull (rel_startNodeId rel) in
  let end_id := default JNull (rel_endNodeId rel) in
  let props := default [] (rel_properties rel) in
  let props_str :=
    match props with
    | [] => ""
    | _ :: _ => " {" +:+ props_str_of props +:+ "}"
    end in
  let query :=
    nl +:+ indent +:+ "MATCH (a {_rulenet_id: $start_id})" +:+
    nl +:+ indent +:+ "MATCH (b {_rulenet_id: $end_id})" +:+
    nl +:+ indent +:+ "CREATE (a)-[r:" +:+ rel_type +:+ props_str +:+ "]->(b)" +:+
    nl +:+ indent +:+ "RETURN r" +:+
    nl +:+ indent in
  mkCall query (("start_id", start_id) :: ("end_id", end_id) :: props).

(** The result dictionary of [load_from_json]. *)
Definition Stats : Type := list (string * nat).

Section Loader.

Context {Store Rec : Type}.
Variable drv : Driver Store Rec.

(** [for a in l: body], the loop variables threaded through. *)
Fixpoint for_each {A S} (body : A -> S -> M Store Rec S) (l : list A) (s : S)
  : M Store Rec S :=
  match l with
  | [] => ret s
  | a :: t => (s' <- body a s ;; for_each body t s')%py
  end.

(** [result.single()]: the first record, [None] when there is none. The
    query returns one column, so a record is never falsy. *)
Definition single (result : list Rec) : option Rec := head result.

(** The body of the node loop; the loop variable is [nodes_created]. *)
Definition create_node (node : ExportedNode) (nodes_created : nat)
  : M Store Rec nat :=
  try_except
    (_ <- session_run drv (node_call node) ;;
     ret (nodes_created + 1))%py
    (fun _ => ret nodes_created).

(** The body of the relationship loop; the loop variable is [rels_created]. *)
Definition create_rel (rel : ExportedRel) (rels_created : nat)
  : M Store Rec nat :=
  try_except
    (result <- session_run drv (rel_call rel) ;;
     match single result with
     | Some _ => ret (rels_created + 1)
     | None => ret rels_created
     end)%py
    (fun _ => ret rels_created).

(** [Neo4jLoader.load_from_json], from the parsed export on, with the
    session open. The progress messages are left out; printing is taken
    not to raise. *)
Definition load_from_json (export : Export) : M Store Rec Stats :=
  let nodes := default [] (nodes export) in
  let relationships := default [] (relationships export) in
  (nodes_created <- for_each create_node nodes 0 ;;
   rels_created <- for_each create_rel relationships 0 ;;
   ret [("nodes_created", nodes_created);
        ("relationships_created", rels_created)])%py.

End Loader.

(** *** An in-memory database to run the loader against *)

#[global] Instance JVal_eq_dec : EqDecision JVal.
Proof. solve_decision. Defined.

(** The nodes created so far, each as its property bag, and the endpoints
    of the relationships created so far. *)
Record MemStore : Type := mkMem {
  mem_nodes : list Props;
  mem_rels : list (JVal * JVal)
}.

Definition mem_empty : MemStore := mkMem [] [].

(** [MATCH (n {_rulenet_id: $id})]; a null parameter matches nothing. *)
Definition mem_match (id : JVal) (s : MemStore) : list Props :=
  match id with
  | JNull => []
  | _ => filter (fun p => dict_get marker p = Some id) (mem_nodes s)
  end.

Fixpoint has_dup (l : list string) : bool :=
  match l with
  | [] => false
  | k :: t => existsb (String.eqb k) t || has_dup t
  end.

(** A driver over [MemStore]. A keyword given twice is a [TypeError], as
    Python has it, and so is a keyword named [query], which is the
    positional parameter of [session.run]; [faulty] singles out the calls
    the database rejects; a node query adds its node; a relationship query
    yields one record for each pair of matching endpoints. *)
Definition mem_driver (faulty : Call -> bool) : Driver MemStore (JVal * JVal) :=
  fun c s =>
    if has_dup (keys (call_kwargs c)) ||
       existsb (String.eqb "query") (keys (call_kwargs c))
    then (inl TypeError, s)
    else if faulty c then (inl (DriverError "rejected"), s)
    else if startswith "CREATE (n:" (call_query c)
    then (inr [], mkMem (mem_nodes s ++ [call_kwargs c]) (mem_rels s))
    else
      match dict_get "start_id" (call_kwargs c),
            dict_get "end_id" (call_kwargs c) with
      | Some a, Some b =>
          let rows :=
            repeat (a, b) (length (mem_match a s) * length (mem_match b s)) in
          (inr rows, mkMem (mem_nodes s) (mem_rels s ++ rows))
      | _, _ => (inl (DriverError "parameter missing"), s)
      end.

End LoadNeo4j.

(* ===================================================================== *)
(** ** [src/load_pyg_graph.py] *)
(* ===================================================================== *)

Module LoadPyg.
Import PyStr Py.

(** A dense buffer as [torch.tensor] builds it from a list of rows. *)
Record Tensor (A : Type) : Type := mkTensor { t_rows : list (list A) }.

Arguments mkTensor {A} _.
Arguments t_rows {A} _.

(** [t.shape[0]] *)
Definition shape0 {A} (t : Tensor A) : nat := length (t_rows t).

(** [t.shape[1]], where there is a first row. *)
Definition shape1 {A} (t : Tensor A) : nat :=
  match t_rows t with
  | [] => 0
  | r :: _ => length r
  end.

(** All rows are as long as the first. *)
Definition rectangular {A} (rows : list (list A)) : bool :=
  match rows with
  | [] => true
  | r :: t => forallb (fun r' => Nat.eqb (length r') (length r)) t
  end.

Definition is_int64 (z : Z) : bool :=
  (Z.leb (- 2 ^ 63) z && Z.ltb z (2 ^ 63))%Z.

(** [torch.tensor(rows, dtype=torch.long)]: a ragged list and an integer
    outside 64 bits are both refused by the constructor, with a
    [ValueError]. *)
Definition tensor_long (rows : list (list Z)) : exn + Tensor Z :=
  if negb (rectangular rows) then inl ValueError
  else if negb (forallb (forallb is_int64) rows) then inl ValueError
  else inr (mkTensor rows).

(** The export in tensor mode; [None] is a key that is absent. *)
Record PygExport (Num : Type) : Type := mkPygExport {
  nodeFeatures : option (list (string * list (list Num)));
  nodeLabels : option (list (string * list string));
  edgeIndices : option (list (string * list (list Z)));
  edgeFeatures : option (list (string * list (list Num)))
}.

Arguments mkPygExport {Num} _ _ _ _.
Arguments nodeFeatures {Num} _.
Arguments nodeLabels {Num} _.
Arguments edgeIndices {Num} _.
Arguments edgeFeatures {Num} _.

(** The error monad of a function that talks to no database. *)
Definition ebind {A B} (m : exn + A) (k : A -> exn + B) : exn + B :=
  match m with
  | inl e => inl e
  | inr a => k a
  end.

(** [for a in l: body], stopping at the first exception. *)
Fixpoint efor {A S} (body : A -> S -> exn + S) (l : list A) (s : S) : exn + S :=
  match l with
  | [] => inr s
  | a :: t => ebind (body a s) (efor body t)
  end.

(** [export[key]] *)
Definition subscript {A} (key : string) (o : option A) : exn + A :=
  match o with
  | Some a => inr a
  | None => inl (KeyError key)
  end.

Section Assembler.

Context {Num F32 : Type}.
(** The conversion of a JSON number to a 32-bit float. It is taken to
    succeed: a number too large for a float, at which the constructor
    raises an [OverflowError], is outside this embedding. *)
Variable to_float : Num -> F32.

(** [torch.tensor(rows, dtype=torch.float)] *)
Definition tensor_float (rows : list (list Num)) : exn + Tensor F32 :=
  if negb (rectangular rows) then inl ValueError
  else inr (mkTensor (map (map to_float) rows)).

(** The attributes this loader sets on [data[node_type]]. *)
Record NodeStore : Type := mkNodeStore {
  ns_x : option (Tensor F32);
  ns_labels : option (list string)
}.

(** The attributes this loader sets on [data[src, rel, dst]]. *)
Record EdgeStore : Type := mkEdgeStore {
  es_edge_index : option (Tensor Z);
  es_edge_attr : option (Tensor F32)
}.

Record HeteroData : Type := mkHetero {
  node_stores : gmap string NodeStore;
  edge_stores : gmap (string * string * string) EdgeStore
}.

(** [HeteroData()] *)
Definition hetero_empty : HeteroData := mkHetero ∅ ∅.

(** [data[key]] makes the store when it is not there yet. *)
Definition node_store (key : string) (data : HeteroData) : NodeStore :=
  default (mkNodeStore None None) (node_stores data !! key).

Definition edge_store (key : string * string * string) (data : HeteroData)
  : EdgeStore :=
  default (mkEdgeStore None None) (edge_stores data !! key).

(** [data[key].x = t] *)
Definition set_x (key : string) (t : Tensor F32) (data : HeteroData) : HeteroData :=
  let st := node_store key data in
  mkHetero (<[key := mkNodeStore (Some t) (ns_labels st)]> (node_stores data))
           (edge_stores data).

(** [data[key].labels = l] *)
Definition set_labels (key : string) (l : list string) (data : HeteroData)
  : HeteroData :=
  let st := node_store key data in
  mkHetero (<[key := mkNodeStore (ns_x st) (Some l)]> (node_stores data))
           (edge_stores data).

(** [data[key].edge_index = t] *)
Definition set_edge_index (key : string * string * string) (t : Tensor Z)
  (data : HeteroData) : HeteroData :=
  let st := edge_store key data in
  mkHetero (node_stores data)
           (<[key := mkEdgeStore (Some t) (es_edge_attr st)]> (edge_stores data)).

(** [data[key].edge_attr = t] *)
Definition set_edge_attr (key : string * string * string) (t : Tensor F32)
  (data : HeteroData) : HeteroData :=
  let st := edge_store key data in
  mkHetero (node_stores data)
           (<[key := mkEdgeStore (es_edge_index st) (Some t)]> (edge_stores data)).

(** [edge_feats and len(edge_feats) > 0 and len(edge_feats[0]) > 0] *)
Definition has_edge_feats (edge_feats : list (list Num)) : bool :=
  match edge_feats with
  | [] => false
  | r :: _ => Nat.ltb 0 (length r)
  end.

(** The body of the loop over [export['nodeFeatures'].items()]. *)
Definition load_node_type (export : PygExport Num)
  (item : string * list (list Num)) (data : HeteroData) : exn + HeteroData :=
  let (node_type, features) := item in
  ebind (tensor_float features) (fun t =>
  let data := set_x node_type t data in
  match nodeLabels export with
  | Some labels =>
      match LoadNeo4j.dict_get node_type labels with
      | Some l => inr (set_labels node_type l data)
      | None => inr data
      end
  | None => inr data
  end).

(** The body of the loop over [export['edgeIndices'].items()]. *)
Definition load_edge_type (export : PygExport Num)
  (item : string * list (list Z)) (data : HeteroData) : exn + HeteroData :=
  let (triplet_str, indices) := item in
  match split "," triplet_str with
  | [src_type; rel_type; dst_type] =>
      ebind (tensor_long indices) (fun t =>
      let data := set_edge_index (src_type, rel_type, dst_type) t data in
      match edgeFeatures export with
      | Some feats =>
          match LoadNeo4j.dict_get triplet_str feats with
          | Some edge_feats =>
              if has_edge_feats edge_feats
              then ebind (tensor_float edge_feats) (fun a =>
                   inr (set_edge_attr (src_type, rel_type, dst_type) a data))
              else inr data
          | None => inr data
          end
      | None => inr data
      end)
  | _ => inl ValueError
  end.

(** [load_hetero_graph], from the parsed export on. *)
Definition load_hetero_graph (export : PygExport Num) : exn + HeteroData :=
  ebind (subscript "nodeFeatures" (nodeFeatures export)) (fun nf =>
  ebind (efor (load_node_type export) nf hetero_empty) (fun data =>
  ebind (subscript "edgeIndices" (edgeIndices export)) (fun ei =>
  efor (load_edge_type export) ei data))).

(** The number of edges of a triplet, [edge_index.shape[1]], and the
    number of rows of its feature buffer, [edge_attr.shape[0]]. *)
Definition edge_count (st : EdgeStore) : option nat :=
  shape1 <$> es_edge_index st.


End Assembler.

End LoadPyg.

(* ===================================================================== *)
(** ** Vocabulary of the statements *)
(* ===================================================================== *)

Module Vocabulary.
Import PyStr Py.

(** [tok] occurs in [q] when letter case is ignored: some slice of [q]
    and [tok] have the same lower-case form. *)
Definition contains_ci (tok q : string) : Prop :=
  exists pre mid post,
    q = pre +:+ mid +:+ post /\ lower mid = lower tok.

(** The five mutation keywords of the gateway. *)
Definition mutation_tokens : list string :=
  ["DELETE"; "MERGE"; "SET"; "DROP"; "CREATE"].

(** The entries a run has added to the history. *)
Definition added {Store Rec} (w w' : World Store Rec)
  : list (Call * (exn + list Rec)) :=
  drop (length (trace w)) (trace w').

(** The gateway has sent exactly the text [text] to the database, once. *)
Definition sends {Store Rec} (drv : Driver Store Rec) (w w' : World Store Rec)
  (text : string) : Prop :=
  trace w' = trace w ++ [(mkCall text [], fst (drv (mkCall text []) (db w)))].

(** A call that did not raise. *)
Definition succeeded {Rec} (r : exn + list Rec) : bool :=
  match r with
  | inr _ => true
  | inl _ => false
  end.

(** A call that delivered at least one record. *)
Definition has_row {Rec} (r : exn + list Rec) : bool :=
  match r with
  | inr (_ :: _) => true
  | _ => false
  end.

Fixpoint count {A} (f : A -> bool) (l : list A) : nat :=
  match l with
  | [] => 0
  | a :: t => (if f a then 1 else 0) + count f t
  end.

(** The outcomes of a list of calls made one after the other. *)
Fixpoint replay {Store Rec} (drv : Driver Store Rec) (cs : list Call) (s : Store)
  : list (Call * (exn + list Rec)) * Store :=
  match cs with
  | [] => ([], s)
  | c :: t =>
      let (r, s') := drv c s in
      let (l, s'') := replay drv t s' in
      ((c, r) :: l, s'')
  end.

(** A driver that knows nothing and never fails. *)
Definition silent : Driver unit unit := fun _ s => (inr [], s).

(** A driver that fails on every query mentioning [nope]. *)
Definition moody : Driver unit unit :=
  fun c s =>
    if str_in "nope" (call_query c) then (inl (DriverError "nope"), s)
    else (inr [], s).

Definition fresh {Store Rec} (s : Store) : World Store Rec := mkWorld s [].

(** History entries: a call that did not raise, a call that delivered a
    record. *)
Definition entry_ok {Rec} (e : Call * (exn + list Rec)) : bool :=
  succeeded (snd e).

Definition entry_row {Rec} (e : Call * (exn + list Rec)) : bool :=
  has_row (snd e).

(** A run that returned normally. *)
Definition accepted {A} (r : exn + A) : bool :=
  match r with
  | inr _ => true
  | inl _ => false
  end.




End Vocabulary.

(* ===================================================================== *)
(** ** Sample exports *)
(* ===================================================================== *)

Module Samples.
Import PyStr Py LoadNeo4j.

(** The sample of the specification: one node, no relationship. *)
Definition alice_only : Export :=
  mkExport
    (Some [mkNode (Some (JInt 1)) (Some ["Person"])
                  (Some [("label", JStr "Alice")])])
    (Some []).

(** Two persons and a relationship whose type has a blank in it, which is
    not a well-formed type once spliced into the query. *)
Definition works_at : Export :=
  mkExport
    (Some [mkNode (Some (JInt 1)) (Some ["Person"])
                  (Some [("label", JStr "Alice")]);
           mkNode (Some (JInt 2)) (Some ["Company"])
                  (Some [("label", JStr "Acme")])])
    (Some [mkRel (Some "WORKS AT") (Some (JInt 1)) (Some (JInt 2)) None]).

(** The database refuses the query of a relationship typed [WORKS AT]. *)
Definition rejects_works_at (c : Call) : bool :=
  str_in "[r:WORKS AT]" (call_query c).

(** Two persons who know each other; the database refuses the second. *)
Definition alice_knows_bob : Export :=
  mkExport
    (Some [mkNode (Some (JInt 1)) (Some ["Person"])
                  (Some [("label", JStr "Alice")]);
           mkNode (Some (JInt 2)) (Some ["Person"])
                  (Some [("label", JStr "Bob")])])
    (Some [mkRel (Some "KNOWS") (Some (JInt 1)) (Some (JInt 2)) None;
           mkRel (Some "KNOWS") (Some (JInt 1)) (Some (JInt 1)) None]).

Definition rejects_bob (c : Call) : bool :=
  match dict_get "label" (call_kwargs c) with
  | Some (JStr "Bob") => true
  | _ => false
  end.

(** A node that declares the marker key itself. *)
Definition shadowed : ExportedNode :=
  mkNode (Some (JInt 7)) None
         (Some [("_rulenet_id", JStr "mine"); ("label", JStr "Eve")]).

Definition shadowed_export : Export := mkExport (Some [shadowed]) None.

(** Exports in tensor mode, with integers for numbers and no rounding. *)
Definition as_is (z : Z) : Z := z.

Definition knows : string := "Person,knows,Person".

(** The sample of the specification: two persons, one edge. *)
Definition people : LoadPyg.PygExport Z :=
  LoadPyg.mkPygExport
    (Some [("Person", [[1; 2]; [3; 4]]%Z)]) None
    (Some [(knows, [[0]; [1]]%Z)]) None.



(** Node groups and nothing else. *)
Definition nodes_only : LoadPyg.PygExport Z :=
  LoadPyg.mkPygExport (Some [("Person", [[1; 2]; [3; 4]]%Z)]) None None None.


End Samples.

(* ===================================================================== *)
(** ** More of the Python strings *)
(* ===================================================================== *)

Module PyStrMore.
Import PyStr.

(** [s.lstrip()] *)
Fixpoint lstrip (s : string) : string :=
  match s with
  | EmptyString => EmptyString
  | String c t => if is_space c then lstrip t else String c t
  end.

(** [s.strip()], for the white space of [is_space] *)
Definition strip (s : string) : string := lstrip (rstrip s).

(** [c in s] for a character. *)
Fixpoint has_char (c : ascii) (s : string) : bool :=
  match s with
  | EmptyString => false
  | String d t => Ascii.eqb d c || has_char c t
  end.

(** The first and the last character, where there is one. *)
Definition first_char (s : string) : option ascii :=
  match s with
  | EmptyString => None
  | String c _ => Some c
  end.

Fixpoint last_char (s : string) : option ascii :=
  match s with
  | EmptyString => None
  | String c EmptyString => Some c
  | String _ t => last_char t
  end.

End PyStrMore.

(* ===================================================================== *)
(** ** [src/load_neo4j_graph.py], the rest of the loader *)
(* ===================================================================== *)

Module LoadScript.
Import PyStr PyStrMore Py LoadNeo4j.

(** The parsed export file: the structured part and the ready-made script. *)
Record Document : Type := mkDocument {
  doc_export : Export;
  doc_cypherScript : option string
}.

(** [[s.strip() for s in pieces if s.strip()]] *)
Fixpoint stripped_nonempty (pieces : list string) : list string :=
  match pieces with
  | [] => []
  | s :: t =>
      if is_empty (strip s) then stripped_nonempty t
      else strip s :: stripped_nonempty t
  end.

Definition statements (cypher_script : string) : list string :=
  stripped_nonempty (split ";" cypher_script).

(** What [sys.exit] adds to the exceptions: it is not an [Exception], no
    [except Exception] catches it. *)
Inductive signal : Type :=
| Exc (e : exn)
| SystemExit (code : Z).

(** The command line after [parse_args]. *)
Record Args : Type := mkArgs {
  json_file : option string;
  uri : string;
  user : string;
  password : string;
  clear : bool;
  use_script : bool;
  guide : bool;
  queries : bool
}.

Section Loader.

Context {Store Rec Val : Type}.
Variable drv : Driver Store Rec.
(** [record[key]], [None] where the record has no such column. *)
Variable getitem : Rec -> string -> option Val.
(** [json.load(open(json_path))], with the exception it may raise. *)
Variable read_json : string -> exn + Document.

(** The body of the statement loop; the loop variable is [executed]. *)
Definition run_statement (stmt : string) (executed : nat) : M Store Rec nat :=
  if is_empty stmt then ret executed
  else
    try_except
      (_ <- session_run drv (mkCall stmt []) ;;
       ret (executed + 1))%py
      (fun _ => ret executed).

(** [Neo4jLoader.load_from_cypher_script], from the parsed file on. *)
Definition load_from_cypher_script (doc : Document)
  : M Store Rec (list (string * JVal)) :=
  let cypher_script := default EmptyString (doc_cypherScript doc) in
  if is_empty cypher_script then ret [("success", JBool false)]
  else
    (executed <- for_each run_statement (statements cypher_script) 0 ;;
     ret [("statements_executed", JInt (Z.of_nat executed))])%py.

(** [session.run(query).single()[key]] *)
Definition single_item (query key : string) : M Store Rec Val :=
  (result <- session_run drv (mkCall query []) ;;
   match head result with
   | None => raise TypeError
   | Some r =>
       match getitem r key with
       | Some v => ret v
       | None => raise (KeyError key)
       end
   end)%py.

(** [Neo4jLoader.get_stats] *)
Definition get_stats : M Store Rec (list (string * Val)) :=
  (node_count <- single_item "MATCH (n) RETURN count(n) as count" "count" ;;
   rel_count <- single_item "MATCH ()-[r]->() RETURN count(r) as count" "count" ;;
   labels <- single_item
     "CALL db.labels() YIELD label RETURN collect(label) as labels" "labels" ;;
   rel_types <- single_item
     "CALL db.relationshipTypes() YIELD relationshipType RETURN collect(relationshipType) as types"
     "types" ;;
   ret [("nodes", node_count); ("relationships", rel_count);
        ("labels", labels); ("relationship_types", rel_types)])%py.

(** [Neo4jLoader.clear_database] *)
Definition clear_database : M Store Rec unit :=
  (_ <- session_run drv (mkCall "MATCH (n) DETACH DELETE n" []) ;;
   ret tt)%py.

(** The two loaders as [main] calls them, with the file read first. *)
Definition load_from_json_path (json_path : string) : M Store Rec Stats :=
  match read_json json_path with
  | inl e => raise e
  | inr doc => load_from_json drv (doc_export doc)
  end.

Definition load_from_cypher_script_path (json_path : string)
  : M Store Rec (list (string * JVal)) :=
  match read_json json_path with
  | inl e => raise e
  | inr doc => load_from_cypher_script doc
  end.

(** Computations that may also leave through [sys.exit]. *)
Definition P (A : Type) : Type := World Store Rec -> (signal + A) * World Store Rec.

Definition pret {A} (a : A) : P A := fun w => (inr a, w).

Definition pbind {A B} (m : P A) (k : A -> P B) : P B :=
  fun w => match m w with
           | (inl e, w') => (inl e, w')
           | (inr a, w') => k a w'
           end.

Definition lift {A} (m : M Store Rec A) : P A :=
  fun w => match m w with
           | (inl e, w') => (inl (Exc e), w')
           | (inr a, w') => (inr a, w')
           end.

(** [Neo4jLoader._verify_connection]: any exception ends the process with
    status 1. *)
Definition _verify_connection : P unit :=
  fun w => match session_run drv (mkCall "RETURN 1 as test" []) w with
           | (inl _, w') => (inl (SystemExit 1), w')
           | (inr _, w') => (inr tt, w')
           end.

(** [main] after [parse_args]; [available] is [NEO4J_AVAILABLE]. The
    messages are left out, and so is [loader.close()] in the [finally],
    which is taken not to raise. *)
Definition main (available : bool) (args : Args) : P unit :=
  if guide args then pret tt
  else if queries args then pret tt
  else
    match json_file args with
    | None => pret tt
    | Some path =>
        if is_empty path then pret tt
        else if negb available then pret tt
        else
          pbind _verify_connection (fun _ =>
          pbind (lift get_stats) (fun _ =>
          pbind (if clear args then lift clear_database else pret tt) (fun _ =>
          pbind (if use_script args
                 then lift (_ <- load_from_cypher_script_path path ;; ret tt)%py
                 else lift (_ <- load_from_json_path path ;; ret tt)%py) (fun _ =>
          pbind (lift get_stats) (fun _ =>
          pret tt)))))
    end.

End Loader.

End LoadScript.

(* ===================================================================== *)
(** ** [src/mcp/mcp_server.py], the schema tool *)
(* ===================================================================== *)

Module McpSchema.
Import PyStr Py LoadNeo4j McpServer.

(** What [json.dumps] is given. *)
#[warnings="-register-all"]
Inductive Json : Type :=
| JAtom (v : JVal)
| JList (l : list Json)
| JDict (l : list (string * Json)).

Definition indent12 : string := "            ".

(** The sampling query of one label. *)
Definition sample_keys_query (lab : string) : string :=
  nl +:+ indent12 +:+ "MATCH (n:`" +:+ lab +:+ "`)" +:+
  nl +:+ indent12 +:+ "WITH n LIMIT 50" +:+
  nl +:+ indent12 +:+ "UNWIND keys(n) AS k" +:+
  nl +:+ indent12 +:+ "RETURN k, count(*) AS c" +:+
  nl +:+ indent12 +:+ "ORDER BY c DESC" +:+
  nl +:+ indent12.

Definition labels_query : string :=
  "CALL db.labels() YIELD label RETURN label ORDER BY label".

Definition rels_query : string :=
  "CALL db.relationshipTypes() YIELD relationshipType RETURN relationshipType ORDER BY relationshipType".

Definition props_query : string :=
  "CALL db.propertyKeys() YIELD propertyKey RETURN propertyKey ORDER BY propertyKey".

Definition name_rule : string :=
  "Use `label` property for node names (n.label CONTAINS '...') when present.".

Definition strings (l : list string) : Json := JList (map (fun s => JAtom (JStr s)) l).

Section Schema.

Context {Store Rec : Type}.
Variable drv : Driver Store Rec.
(** [r[key]] for the columns the tool reads, which hold names; [None]
    where the record has no such column. *)
Variable getitem : Rec -> string -> option string.
(** [json.dumps(_, indent=2)] *)
Variable dumps : Json -> string.

(** [[r[key] for r in recs]] *)
Fixpoint column (key : string) (recs : list Rec) : M Store Rec (list string) :=
  match recs with
  | [] => ret []
  | r :: t =>
      match getitem r key with
      | None => raise (KeyError key)
      | Some v => (vs <- column key t ;; ret (v :: vs))%py
      end
  end.

(** The body of the loop over [labels[:30]]; the loop variable is
    [label_props]. *)
Definition sample_label (lab : string) (label_props : list (string * list string))
  : M Store Rec (list (string * list string)) :=
  (recs <- _run drv (sample_keys_query lab) ;;
   ks <- column "k" (take 20 recs) ;;
   ret (dict_set lab ks label_props))%py.

(** [get_graph_schema] up to the dictionary [out]. *)
Definition graph_schema : M Store Rec Json :=
  (recs <- _run drv labels_query ;;
   labels <- column "label" recs ;;
   recs <- _run drv rels_query ;;
   rels <- column "relationshipType" recs ;;
   recs <- _run drv props_query ;;
   props <- column "propertyKey" recs ;;
   label_props <- for_each sample_label (take 30 labels) [] ;;
   ret (JDict [("labels", strings labels);
               ("relationshipTypes", strings rels);
               ("propertyKeys", strings props);
               ("labelProperties",
                JDict (map (fun kv => (fst kv, strings (snd kv))) label_props));
               ("namePropertyRule", JAtom (JStr name_rule))]))%py.

Definition get_graph_schema : M Store Rec string :=
  (out <- graph_schema ;; ret (dumps out))%py.

End Schema.

End McpSchema.

(* ===================================================================== *)
(** ** More vocabulary *)
(* ===================================================================== *)

Module MoreVocabulary.
Import PyStr Py.

(** The denylist entries that can match an upper-cased text. *)
Definition effective_tokens : list string :=
  ["CREATE"; "MERGE"; "DELETE"; "SET"; "DROP"; "LOAD CSV"].

(** [a] is a leading part of [b]. *)
Definition is_prefix {A} (a b : list A) : Prop := exists rest, b = a ++ rest.

(** The four queries of [get_stats], in the order they are made. *)
Definition stats_calls : list Call :=
  map (fun q => mkCall q [])
    ["MATCH (n) RETURN count(n) as count";
     "MATCH ()-[r]->() RETURN count(r) as count";
     "CALL db.labels() YIELD label RETURN collect(label) as labels";
     "CALL db.relationshipTypes() YIELD relationshipType RETURN collect(relationshipType) as types"].

(** The column [get_stats] takes from the record of each of its reads, and
    the key it files the value under. *)
Definition stats_columns : list string := ["count"; "count"; "labels"; "types"].

Definition stats_names : list string :=
  ["nodes"; "relationships"; "labels"; "relationship_types"].

(** [result.single()[key]] for the outcome [r] of a call: the exception of
    the call, a [TypeError] where there is no record to subscript, a
    [KeyError] where the record has no such column. *)
Definition read_value {Rec Val} (getitem : Rec -> string -> option Val)
  (key : string) (r : exn + list Rec) : exn + Val :=
  match r with
  | inl e => inl e
  | inr [] => inl TypeError
  | inr (x :: _) =>
      match getitem x key with
      | Some v => inr v
      | None => inl (KeyError key)
      end
  end.

(** Going through [l] as long as every item has a value: the items up to
    and including the first without one, with its error, or all the items
    with their values. *)
Fixpoint until_failure {A E V} (value : A -> E + V) (l : list A)
  : list A * (E + list V) :=
  match l with
  | [] => ([], inr [])
  | a :: t =>
      match value a with
      | inl e => ([a], inl e)
      | inr v =>
          let (done, out) := until_failure value t in
          (a :: done, match out with
                      | inl e => inl e
                      | inr vs => inr (v :: vs)
                      end)
      end
  end.

(** A database without the label catalogue. *)
Definition no_labels : Driver unit unit :=
  fun c s =>
    if str_in "db.labels" (call_query c)
    then (inl (DriverError "no such procedure"), s)
    else (inr [tt], s).

(** The [session.run(stmt)] of the script mode. *)
Definition statement_call (stmt : string) : Call := mkCall stmt [].

Definition test_call : Call := mkCall "RETURN 1 as test" [].

Definition wipe_call : Call := mkCall "MATCH (n) DETACH DELETE n" [].

(** A run that came back with a value, whatever the kind of error. *)
Definition returned {E A} (r : E + A) : bool :=
  match r with
  | inr _ => true
  | inl _ => false
  end.

(** The computation [m] makes, from any state, calls that are a leading
    part of [cs], and all of [cs] when it returns. *)
Definition emits {Store Rec E A}
  (m : World Store Rec -> (E + A) * World Store Rec) (cs : list Call) : Prop :=
  forall w, exists es,
    trace (snd (m w)) = trace w ++ es /\
    is_prefix (map fst es) cs /\
    (returned (fst (m w)) = true -> map fst es = cs).

(** The calls of the loading step of [main], given what reading the file
    gave. *)
Definition load_calls (read : exn + LoadScript.Document) (use_script : bool)
  : list Call :=
  match read with
  | inl _ => []
  | inr doc =>
      if use_script
      then map statement_call
             (LoadScript.statements
                (default EmptyString (LoadScript.doc_cypherScript doc)))
      else map LoadNeo4j.node_call
             (default [] (LoadNeo4j.nodes (LoadScript.doc_export doc))) ++
           map LoadNeo4j.rel_call
             (default [] (LoadNeo4j.relationships (LoadScript.doc_export doc)))
  end.

(** All the calls of a run of [main] that goes through. *)
Definition main_calls (args : LoadScript.Args) (read : exn + LoadScript.Document)
  : list Call :=
  test_call :: stats_calls ++
  (if LoadScript.clear args then [wipe_call] else []) ++
  load_calls read (LoadScript.use_script args) ++
  stats_calls.

(** [main] gets as far as the database: no informational flag, a file
    name, the driver installed. *)
Definition goes_to_database (available : bool) (args : LoadScript.Args)
  (path : string) : Prop :=
  LoadScript.guide args = false /\
  LoadScript.queries args = false /\
  LoadScript.json_file args = Some path /\
  path <> EmptyString /\
  available = true.

(** A database that answers every call with at least one record. *)
Definition always_answers {Store Rec} (drv : Driver Store Rec) : Prop :=
  forall c s, exists r rs s', drv c s = (inr (r :: rs), s').

(** A database that answers every call with one record, a record that
    has every column, a file that is not JSON, and two command lines. *)
Definition chatty : Driver unit unit := fun _ s => (inr [tt], s).

Definition any_column : unit -> string -> option unit := fun _ _ => Some tt.

(** A database that cannot be reached, and a file that holds the sample
    export of one node. *)
Definition unreachable : Driver unit unit :=
  fun _ s => (inl (DriverError "unreachable"), s).

Definition alice_file : string -> exn + LoadScript.Document :=
  fun _ => inr (LoadScript.mkDocument Samples.alice_only None).

Definition not_json : string -> exn + LoadScript.Document :=
  fun _ => inl ValueError.

Definition args_clear : LoadScript.Args :=
  LoadScript.mkArgs (Some "graph.json") "bolt://localhost:7687" "neo4j"
    "password" true false false false.

Definition args_plain : LoadScript.Args :=
  LoadScript.mkArgs (Some "graph.json") "bolt://localhost:7687" "neo4j"
    "password" false false false false.

(** The calls of the schema tool for the labels [labels] the database
    reports: three catalogue queries, then one sampling query for each of
    the first thirty labels. *)
Definition schema_calls (labels : list string) : list Call :=
  map (fun q => mkCall q [])
    ([McpSchema.labels_query; McpSchema.rels_query; McpSchema.props_query] ++
     map McpSchema.sample_keys_query (take 30 labels)).

(** A database that reports the two names A and B to every query, the
    column of such a record, and a stand-in for [json.dumps]. *)
Definition two_names : Driver unit string := fun _ s => (inr ["A"; "B"], s).

Definition name_of : string -> string -> option string := fun r _ => Some r.

(** A compact rendering of [json.dumps]'s argument, without escapes. *)
Definition quoted (s : string) : string :=
  String (ascii_of_nat 34) s +:+ String (ascii_of_nat 34) EmptyString.

Fixpoint render (j : McpSchema.Json) : string :=
  match j with
  | McpSchema.JAtom (JStr s) => quoted s
  | McpSchema.JAtom _ => "null"
  | McpSchema.JList l => "[" +:+ join ", " (map render l) +:+ "]"
  | McpSchema.JDict l =>
      "{" +:+ join ", " (map (fun kv => quoted (fst kv) +:+ ": " +:+ render (snd kv)) l)
      +:+ "}"
  end.

(** [[r[key] for r in recs]] by itself: the names, or the [KeyError] of
    the first record without the column. *)
Fixpoint names {Rec} (getitem : Rec -> string -> option string) (key : string)
  (recs : list Rec) : exn + list string :=
  match recs with
  | [] => inr []
  | r :: t =>
      match getitem r key with
      | None => inl (KeyError key)
      | Some v =>
          match names getitem key t with
          | inl e => inl e
          | inr vs => inr (v :: vs)
          end
      end
  end.

(** What the schema tool reads from the outcome [r] of a call: the column
    [key] of its records, of the first [cap] of them where a cap is set. *)
Definition read_names {Rec} (getitem : Rec -> string -> option string)
  (key : string) (cap : option nat) (r : exn + list Rec) : exn + list string :=
  match r with
  | inl e => inl e
  | inr recs =>
      names getitem key (match cap with Some n => take n recs | None => recs end)
  end.

(** The column read after each call of [schema_calls labels], with its
    cap. *)
Definition schema_columns (labels : list string) : list (string * option nat) :=
  [("label", None); ("relationshipType", None); ("propertyKey", None)] ++
  map (fun _ => ("k", Some 20)) (take 30 labels).

(** The sampling call of one label, and what the tool reads from an entry
    of the history that is paired with its column. *)
Definition sample_call (lab : string) : Call :=
  mkCall (McpSchema.sample_keys_query lab) [].

Definition schema_value {Rec} (getitem : Rec -> string -> option string)
  (ke : (string * option nat) * (Call * (exn + list Rec))) : exn + list string :=
  read_names getitem (fst (fst ke)) (snd (fst ke)) (snd (snd ke)).

(** [label_props] after the sampling loop over [labels], the keys read
    for them being [kss]. *)
Definition label_props_of (labels : list string) (kss : list (list string))
  : list (string * list string) :=
  fold_left (fun lp lk => LoadNeo4j.dict_set (fst lk) (snd lk) lp)
            (combine labels kss) [].

(** The dictionary [out] of the schema tool. *)
Definition schema_out (labels rels props : list string)
  (label_props : list (string * list string)) : McpSchema.Json :=
  McpSchema.JDict
    [("labels", McpSchema.strings labels);
     ("relationshipTypes", McpSchema.strings rels);
     ("propertyKeys", McpSchema.strings props);
     ("labelProperties",
      McpSchema.JDict
        (map (fun kv => (fst kv, McpSchema.strings (snd kv))) label_props));
     ("namePropertyRule", McpSchema.JAtom (JStr McpSchema.name_rule))].

(** A database with the labels A and B, one relationship type, two
    property keys, and the key name on every node. *)
Definition small_catalogue : Driver unit string :=
  fun c s =>
    if String.eqb (call_query c) McpSchema.labels_query then (inr ["A"; "B"], s)
    else if String.eqb (call_query c) McpSchema.rels_query then (inr ["KNOWS"], s)
    else if String.eqb (call_query c) McpSchema.props_query
    then (inr ["name"; "age"], s)
    else (inr ["name"], s).

(** What the assembler asks of one entry of [edgeIndices]: a key of
    three parts, index rows of one length with 64-bit entries, and, where
    usable edge features are listed for the key, feature rows of one
    length. *)
Definition edge_entry_ok {Num} (export : LoadPyg.PygExport Num)
  (item : string * list (list Z)) : Prop :=
  length (split "," (fst item)) = 3 /\
  LoadPyg.rectangular (snd item) = true /\
  forallb (forallb LoadPyg.is_int64) (snd item) = true /\
  (forall feats ef,
      LoadPyg.edgeFeatures export = Some feats ->
      LoadNeo4j.dict_get (fst item) feats = Some ef ->
      LoadPyg.has_edge_feats ef = true ->
      LoadPyg.rectangular ef = true).

(** The exports the assembler takes. *)
Definition well_shaped {Num} (export : LoadPyg.PygExport Num) : Prop :=
  exists nf ei,
    LoadPyg.nodeFeatures export = Some nf /\
    LoadPyg.edgeIndices export = Some ei /\
    Forall (fun item => LoadPyg.rectangular (snd item) = true) nf /\
    Forall (edge_entry_ok export) ei.

(** The edge features the assembler would attach for the key [k], if
    any. *)
Definition usable_feats {Num} (export : LoadPyg.PygExport Num) (k : string)
  : option (list (list Num)) :=
  match LoadPyg.edgeFeatures export with
  | Some feats =>
      match LoadNeo4j.dict_get k feats with
      | Some ef => if LoadPyg.has_edge_feats ef then Some ef else None
      | None => None
      end
  | None => None
  end.

(** The labels listed for the node type [k], if any. *)
Definition listed_labels {Num} (export : LoadPyg.PygExport Num) (k : string)
  : option (list string) :=
  match LoadPyg.nodeLabels export with
  | Some labels => LoadNeo4j.dict_get k labels
  | None => None
  end.

Definition no_fault : Call -> bool := fun _ => false.

(** A relationship with a property named like a parameter of its query. *)
Definition clashing_rel : LoadNeo4j.ExportedRel :=
  LoadNeo4j.mkRel (Some "KNOWS") (Some (JInt 1)) (Some (JInt 2))
                  (Some [("start_id", JInt 2020)]).

(** A script made of white space and semicolons only. *)
Definition blank_script (s : string) : Prop :=
  forall c, In c (list_ascii_of_string s) ->
            is_space c = true \/ c = ";"%char.

(** The number of commas of a key. *)
Fixpoint commas (s : string) : nat :=
  match s with
  | EmptyString => 0
  | String c t => (if Ascii.eqb c "," then 1 else 0) + commas t
  end.

End MoreVocabulary.

(* ===================================================================== *)
(** ** Python strings as code points, and the gateway over them *)
(* ===================================================================== *)

Module PyText.

(** A Python [str]: the sequence of its code points. *)
Definition text : Type := list N.

(** The code points of a literal. *)
Definition of_ascii (s : string) : text :=
  map N_of_ascii (list_ascii_of_string s).

(** All characters are in ASCII. *)
Definition ascii_text (s : string) : bool :=
  forallb (fun c => N.ltb (N_of_ascii c) 128) (list_ascii_of_string s).

(** UTF-8, in which a text is handed to the database. *)
Definition utf8_char (c : N) : list ascii :=
  if (c <? 128)%N then [ascii_of_N c]
  else if (c <? 2048)%N then
    [ascii_of_N (192 + c / 64); ascii_of_N (128 + c mod 64)]
  else if (c <? 65536)%N then
    [ascii_of_N (224 + c / 4096); ascii_of_N (128 + (c / 64) mod 64);
     ascii_of_N (128 + c mod 64)]
  else
    [ascii_of_N (240 + c / 262144); ascii_of_N (128 + (c / 4096) mod 64);
     ascii_of_N (128 + (c / 64) mod 64); ascii_of_N (128 + c mod 64)].

Definition utf8 (t : text) : string :=
  string_of_list_ascii (flat_map utf8_char t).

Section Tables.

(** [c.upper()] for a single character: Unicode's full upper-case mapping,
    which may give several characters, and [c.isspace()]. Both are tables
    of the Python runtime. *)
Variable upper_map : N -> text.
Variable isspace : N -> bool.

(** [s.upper()]: every character is mapped by itself. *)
Definition upper (s : text) : text := flat_map upper_map s.

(** [s.startswith(p)] *)
Fixpoint startswith (p s : text) : bool :=
  match p, s with
  | [], _ => true
  | a :: p', b :: s' => N.eqb a b && startswith p' s'
  | _ :: _, [] => false
  end.

(** [sub in s] *)
Fixpoint str_in (sub s : text) : bool :=
  startswith sub s ||
  match s with
  | [] => false
  | _ :: t => str_in sub t
  end.

(** [s.rstrip()] *)
Fixpoint rstrip (s : text) : text :=
  match s with
  | [] => []
  | c :: t =>
      match rstrip t with
      | [] => if isspace c then [] else [c]
      | t' => c :: t'
      end
  end.

End Tables.

(** What the two tables do within ASCII: the letters a to z have their
    capitals, the white space is that of [PyStr.is_space], and every other
    character is left alone and is no white space. *)
Definition upper_within_ascii (upper_map : N -> text) : Prop :=
  forall a : ascii,
    (N_of_ascii a < 128)%N ->
    upper_map (N_of_ascii a) = [N_of_ascii (PyStr.upper_char a)].

Definition isspace_within_ascii (isspace : N -> bool) : Prop :=
  forall a : ascii,
    (N_of_ascii a < 128)%N -> isspace (N_of_ascii a) = PyStr.is_space a.

(** The upper-case mapping cut down to ASCII, every other character left
    alone: the yardstick for letter case where only ASCII letters count. *)
Definition ascii_upper (c : N) : text :=
  if ((97 <=? c) && (c <=? 122))%N then [(c - 32)%N] else [c].

(** The white space of [str.isspace]. *)
Definition py_isspace (c : N) : bool :=
  ((9 <=? c) && (c <=? 13) || (28 <=? c) && (c <=? 32) ||
   (c =? 133) || (c =? 160) || (c =? 5760) ||
   (8192 <=? c) && (c <=? 8202) || (c =? 8232) || (c =? 8233) ||
   (c =? 8239) || (c =? 8287) || (c =? 12288))%N.

(** The upper-case mapping on ASCII and on three letters outside it whose
    capitals are ASCII letters: the dotless i (U+0131), the long s
    (U+017F) and the sharp s (U+00DF). The rest of the table is not
    needed here and is left as the identity. *)
Definition some_upper (c : N) : text :=
  if ((97 <=? c) && (c <=? 122))%N then [(c - 32)%N]
  else if (c =? 305)%N then [73%N]
  else if (c =? 383)%N then [83%N]
  else if (c =? 223)%N then [83%N; 83%N]
  else [c].

End PyText.

Module McpServerText.
Import PyStr Py PyText.

Section Gateway.

Variable upper_map : N -> text.
Variable isspace : N -> bool.

Definition _is_read_only_text (cypher : text) : bool :=
  let up := upper upper_map cypher in
  negb (existsb (fun b => str_in (of_ascii b) up) McpServer.bad).

Context {Store Rec : Type}.
Variable drv : Driver Store Rec.
Variable record_str : Rec -> string.

Definition query_runner_text (cypher_q : text) : M Store Rec string :=
  if negb (_is_read_only_text cypher_q) then ret McpServer.refusal
  else
    let cypher_q :=
      if negb (str_in (of_ascii "LIMIT") (upper upper_map cypher_q))
      then rstrip isspace cypher_q ++ of_ascii McpServer.limit_clause
      else cypher_q in
    (results <- McpServer._run drv (utf8 cypher_q) ;;
     let formatted := join nl (map record_str results) in
     ret (if is_empty formatted then McpServer.no_results else formatted))%py.

End Gateway.

End McpServerText.

Module TextVocabulary.
Import PyStr PyText.

(** [tok] occurs in the text [q] in some letter case: a slice of [q] is
    made of the letters of [tok], each in either case. *)
Definition occurs_ci (tok : string) (q : text) : Prop :=
  exists pre mid post,
    q = pre ++ of_ascii mid ++ post /\ lower mid = lower tok.


(** [MATCH (n) ſet n.x = 1], with the long s. *)
Definition long_s_set : text :=
  of_ascii "MATCH (n) " ++ [383%N] ++ of_ascii "et n.x = 1".

(** [MATCH (n) RETURN n] followed by a no-break space (U+00A0). *)
Definition ends_in_nbsp : text := of_ascii "MATCH (n) RETURN n" ++ [160%N].

End TextVocabulary.

(* ===================================================================== *)
(** ** Facts about strings *)
(* ===================================================================== *)

Module PyStrFacts.
Import PyStr.

Lemma upper_lower_char (c : ascii) : upper_char (lower_char c) = upper_char c.
Proof. destruct c as [[] [] [] [] [] [] [] []]; reflexivity. Qed.

Lemma lower_upper_char (c : ascii) : lower_char (upper_char c) = lower_char c.
Proof. destruct c as [[] [] [] [] [] [] [] []]; reflexivity. Qed.

Lemma upper_char_idem (c : ascii) : upper_char (upper_char c) = upper_char c.
Proof. destruct c as [[] [] [] [] [] [] [] []]; reflexivity. Qed.

Lemma upper_char_not_lower (c : ascii) : is_lower (upper_char c) = false.
Proof. destruct c as [[] [] [] [] [] [] [] []]; reflexivity. Qed.

Lemma lower_eq_upper_eq (a b : string) : lower a = lower b -> upper a = upper b.
Proof.
  revert b; induction a as [|c a IH]; intros [|d b] H; simpl in *;
    try discriminate; auto.
  injection H as Hc Ht. f_equal; auto.
  rewrite <- (upper_lower_char c), Hc. apply upper_lower_char.
Qed.

Lemma upper_eq_lower_eq (a b : string) : upper a = upper b -> lower a = lower b.
Proof.
  revert b; induction a as [|c a IH]; intros [|d b] H; simpl in *;
    try discriminate; auto.
  injection H as Hc Ht. f_equal; auto.
  rewrite <- (lower_upper_char c), Hc. apply lower_upper_char.
Qed.

Lemma upper_idem (s : string) : upper (upper s) = upper s.
Proof.
  induction s as [|x s IH]; simpl; [|rewrite upper_char_idem, IH]; reflexivity.
Qed.

Lemma upper_app (a b : string) : upper (a +:+ b) = upper a +:+ upper b.
Proof. induction a as [|x a IH]; simpl; [|rewrite IH]; reflexivity. Qed.

Lemma upper_app_inv (q a b : string) :
  upper q = a +:+ b ->
  exists x y, q = x +:+ y /\ upper x = a /\ upper y = b.
Proof.
  revert q; induction a as [|c a IH]; intros q H; simpl in H.
  - exists EmptyString, q. auto.
  - destruct q as [|d q]; simpl in H; [discriminate|].
    injection H as Hc Ht. destruct (IH _ Ht) as (x & y & -> & Hx & Hy).
    exists (String d x), y. simpl. rewrite Hc, Hx. auto.
Qed.

Lemma str_app_assoc (a b c : string) : (a +:+ b) +:+ c = a +:+ b +:+ c.
Proof. induction a as [|x a IH]; simpl; [|rewrite IH]; reflexivity. Qed.

Lemma str_app_empty_r (a : string) : a +:+ EmptyString = a.
Proof. induction a as [|x a IH]; simpl; [|rewrite IH]; reflexivity. Qed.

Lemma startswith_app (p r : string) : startswith p (p +:+ r) = true.
Proof.
  induction p as [|c p IH]; simpl; [reflexivity|].
  rewrite Ascii.eqb_refl. exact IH.
Qed.

Lemma startswith_inv (p s : string) :
  startswith p s = true -> exists r, s = p +:+ r.
Proof.
  revert s; induction p as [|c p IH]; intros s H; simpl in *.
  - exists s. reflexivity.
  - destruct s as [|d s]; [discriminate|].
    apply andb_true_iff in H as [Hc Hs]. apply Ascii.eqb_eq in Hc as ->.
    destruct (IH _ Hs) as [r ->]. exists r. reflexivity.
Qed.

Lemma str_in_startswith (sub s : string) :
  startswith sub s = true -> str_in sub s = true.
Proof. intros H. destruct s; simpl; rewrite H; reflexivity. Qed.

(** [sub in s] is true exactly when [s] is [pre + sub + post]. *)
Lemma str_in_intro (sub pre post : string) :
  str_in sub (pre +:+ sub +:+ post) = true.
Proof.
  induction pre as [|c pre IH]; simpl.
  - apply str_in_startswith, startswith_app.
  - rewrite IH. apply orb_true_r.
Qed.

Lemma str_in_inv (sub s : string) :
  str_in sub s = true -> exists pre post, s = pre +:+ sub +:+ post.
Proof.
  induction s as [|c s IH]; simpl; intros H.
  - rewrite orb_false_r in H. apply startswith_inv in H as [r ->].
    exists EmptyString, r. reflexivity.
  - apply orb_true_iff in H as [H|H].
    + apply startswith_inv in H as [r ->]. exists EmptyString, r. reflexivity.
    + destruct (IH H) as (pre & post & ->).
      exists (String c pre), post. reflexivity.
Qed.

(** After [upper] no lower-case letter is left, so a needle that has one
    is never found. *)
Lemma upper_no_lower (s : string) (c : ascii) :
  In c (list_ascii_of_string (upper s)) -> is_lower c = false.
Proof.
  induction s as [|d s IH]; simpl; [tauto|].
  intros [<-|H]; [apply upper_char_not_lower | auto].
Qed.

Lemma list_ascii_app (a b : string) :
  list_ascii_of_string (a +:+ b) =
  list_ascii_of_string a ++ list_ascii_of_string b.
Proof. induction a as [|x a IH]; simpl; [|rewrite IH]; reflexivity. Qed.

Lemma str_in_upper_lowercase_needle (sub s : string) (c : ascii) :
  In c (list_ascii_of_string sub) -> is_lower c = true ->
  str_in sub (upper s) = false.
Proof.
  intros Hc Hl. destruct (str_in sub (upper s)) eqn:E; [|reflexivity].
  apply str_in_inv in E as (pre & post & E).
  assert (H : In c (list_ascii_of_string (upper s))).
  { rewrite E, !list_ascii_app. apply in_or_app. right.
    apply in_or_app. left. exact Hc. }
  apply upper_no_lower in H. congruence.
Qed.

(** [rstrip] takes a run of white space off the end and nothing else. *)
Lemma rstrip_spec (s : string) :
  exists ws, s = rstrip s +:+ ws /\ all_space ws.
Proof.
  induction s as [|c s (ws & E & Hws)]; simpl.
  - exists EmptyString. split; [reflexivity | intros ? []].
  - destruct (is_empty (rstrip s) && is_space c) eqn:T.
    + apply andb_true_iff in T as [Te Tc].
      destruct (rstrip s); [|discriminate]. simpl in E. subst ws.
      exists (String c s). split; [reflexivity|].
      intros d [<-|H]; auto.
    + exists ws. split; [simpl; rewrite <- E; reflexivity | exact Hws].
Qed.

End PyStrFacts.

(* ===================================================================== *)
(** ** The query gateway *)
(* ===================================================================== *)

Module GatewayFacts.
Import PyStr Py McpServer Vocabulary PyStrFacts.

(** Ignoring case is what the scan of the upper-cased text decides. *)
Lemma contains_ci_iff (tok q : string) :
  contains_ci tok q <-> str_in (upper tok) (upper q) = true.
Proof.
  split.
  - intros (pre & mid & post & -> & Hm).
    rewrite !upper_app, (lower_eq_upper_eq _ _ Hm). apply str_in_intro.
  - intros H. apply str_in_inv in H as (a & b & H).
    apply upper_app_inv in H as (pre & rest & -> & _ & H).
    apply upper_app_inv in H as (mid & post & -> & Hm & _).
    exists pre, mid, post. split; [reflexivity|].
    apply upper_eq_lower_eq. exact Hm.
Qed.

Lemma found_is_refused (b q : string) :
  In b bad -> str_in b (upper q) = true -> _is_read_only q = false.
Proof.
  intros Hb Hq. unfold _is_read_only, any_in.
  apply negb_false_iff, existsb_exists. exists b. auto.
Qed.

Lemma mutation_token_in_bad (tok : string) :
  In tok mutation_tokens -> In tok bad /\ upper tok = tok.
Proof.
  unfold mutation_tokens, bad. simpl.
  intros [<-|[<-|[<-|[<-|[<-|[]]]]]]; split; auto 10.
Qed.

Section Gateway.

Context {Store Rec : Type}.
Variable drv : Driver Store Rec.
Variable record_str : Rec -> string.

Lemma query_runner_refused (q : string) (w : World Store Rec) :
  _is_read_only q = false ->
  query_runner drv record_str q w = (inr refusal, w).
Proof. intros H. unfold query_runner. rewrite H. reflexivity. Qed.

(** What an accepted query amounts to, for the text [text] that leaves the
    bound-injection gate. *)
Lemma query_runner_accepted (q : string) (w : World Store Rec) :
  _is_read_only q = true ->
  let text := if negb (str_in "LIMIT" (upper q))
              then rstrip q +:+ limit_clause else q in
  let r := fst (drv (mkCall text []) (db w)) in
  sends drv w (snd (query_runner drv record_str q w)) text /\
  fst (query_runner drv record_str q w) =
    match r with
    | inl e => inl e
    | inr results =>
        let formatted := join nl (map record_str results) in
        inr (if is_empty formatted then no_results else formatted)
    end.
Proof.
  intros H. unfold query_runner, sends. rewrite H. simpl.
  unfold bind, _run, session_run.
  destruct (drv _ (db w)) as [[e|results] s]; simpl; auto.
Qed.

(** C1. A query text in which DELETE, MERGE, SET, DROP or CREATE occurs
    anywhere, in any letter case, is answered with the fixed refusal and
    leaves the database and the history of calls as they were: nothing is
    executed. *)
Theorem query_runner_refuses_mutations (tok q : string) (w : World Store Rec) :
  In tok mutation_tokens ->
  contains_ci tok q ->
  query_runner drv record_str q w = (inr refusal, w).
Proof.
  intros Ht Hq. apply query_runner_refused.
  destruct (mutation_token_in_bad _ Ht) as [Hb Hu].
  apply (found_is_refused tok); [exact Hb|].
  rewrite <- Hu. apply contains_ci_iff. exact Hq.
Qed.

(** The denylist entry with lower-case letters never matches: the text it
    is looked up in has been upper-cased. *)
Lemma call_dbms_entry_is_dead (q : string) :
  str_in "CALL dbms" (upper q) = false.
Proof.
  apply (str_in_upper_lowercase_needle _ _ "d"%char); [|reflexivity].
  simpl. auto 10.
Qed.

(** The entry for bulk loads is in upper case and does its work. *)
Lemma load_csv_is_refused (q : string) (w : World Store Rec) :
  contains_ci "LOAD CSV" q ->
  query_runner drv record_str q w = (inr refusal, w).
Proof.
  intros Hq. apply query_runner_refused.
  apply (found_is_refused "LOAD CSV"); [unfold bad; simpl; auto 10|].
  apply contains_ci_iff in Hq. exact Hq.
Qed.

(** C2. The call of an administrative procedure is not stopped by the
    gate: [CALL dbms.components()] contains the denylisted call, passes
    [_is_read_only], and is sent to the database with the default bound. *)
Theorem call_dbms_is_executed (w : World Store Rec) :
  contains_ci "CALL dbms" "CALL dbms.components()" /\
  _is_read_only "CALL dbms.components()" = true /\
  sends drv w (snd (query_runner drv record_str "CALL dbms.components()" w))
        ("CALL dbms.components()" +:+ nl +:+ "LIMIT 25").
Proof.
  split; [|split].
  - exists "", "CALL dbms", ".components()". split; reflexivity.
  - reflexivity.
  - apply (query_runner_accepted "CALL dbms.components()" w). reflexivity.
Qed.

(** On ASCII strings: an accepted query without LIMIT, in any letter
    case, is sent with the trailing white space removed and the clause
    LIMIT 25 on a new line; an accepted query with LIMIT is sent as it
    came. *)
Lemma bound_injection (q : string) (w : World Store Rec) :
  _is_read_only q = true ->
  (~ contains_ci "LIMIT" q ->
   sends drv w (snd (query_runner drv record_str q w))
         (rstrip q +:+ nl +:+ "LIMIT 25")) /\
  (contains_ci "LIMIT" q ->
   sends drv w (snd (query_runner drv record_str q w)) q).
Proof.
  intros H. destruct (query_runner_accepted q w H) as [Hs _].
  split; intros HL; rewrite contains_ci_iff in HL;
    change (upper "LIMIT") with "LIMIT" in HL.
  - apply not_true_is_false in HL. rewrite HL in Hs. exact Hs.
  - rewrite HL in Hs. exact Hs.
Qed.

(** C4. For an accepted query, with [text] the text that is sent: when the
    database raises, [query_runner] raises the same exception; when it
    delivers no record, the answer is the sentinel; otherwise the answer
    is built from the records. *)
Theorem query_runner_outcome (q : string) (w : World Store Rec) :
  _is_read_only q = true ->
  exists text,
    sends drv w (snd (query_runner drv record_str q w)) text /\
    match fst (drv (mkCall text []) (db w)) with
    | inl e => fst (query_runner drv record_str q w) = inl e
    | inr [] => fst (query_runner drv record_str q w) = inr no_results
    | inr (r :: rs) =>
        fst (query_runner drv record_str q w) <> inr EmptyString /\
        exists s, fst (query_runner drv record_str q w) = inr s
    end.
Proof.
  intros H. destruct (query_runner_accepted q w H) as [Hs Hr].
  eexists. split; [exact Hs|].
  rewrite Hr. destruct (fst (drv _ (db w))) as [e|[|r rs]]; auto.
  set (f := join nl _). split.
  - destruct f; simpl; discriminate.
  - eexists; reflexivity.
Qed.

End Gateway.

(** The two queries of the specification, whatever the database. *)
Example match_all_gets_bound {Store Rec} (drv : Driver Store Rec)
  (record_str : Rec -> string) (w : World Store Rec) :
  sends drv w (snd (query_runner drv record_str "MATCH (n) RETURN n" w))
        ("MATCH (n) RETURN n" +:+ nl +:+ "LIMIT 25").
Proof. apply (query_runner_accepted drv record_str "MATCH (n) RETURN n" w). reflexivity. Qed.

Example match_limit_5_unchanged {Store Rec} (drv : Driver Store Rec)
  (record_str : Rec -> string) (w : World Store Rec) :
  sends drv w (snd (query_runner drv record_str "MATCH (n) RETURN n LIMIT 5" w))
        "MATCH (n) RETURN n LIMIT 5".
Proof.
  apply (query_runner_accepted drv record_str "MATCH (n) RETURN n LIMIT 5" w).
  reflexivity.
Qed.

Lemma query_runner_refuses_mutations_witness :
  In "DELETE" mutation_tokens /\
  contains_ci "DELETE" "match (n) detach delete n" /\
  query_runner silent (fun _ => EmptyString) "match (n) detach delete n"
    (fresh tt) = (inr refusal, fresh tt).
Proof.
  assert (Ht : In "DELETE" mutation_tokens) by (simpl; auto).
  assert (Hq : contains_ci "DELETE" "match (n) detach delete n").
  { exists "match (n) detach ", "delete", " n". split; reflexivity. }
  split; [exact Ht | split; [exact Hq|]].
  exact (query_runner_refuses_mutations silent (fun _ => EmptyString)
           "DELETE" "match (n) detach delete n" (fresh tt) Ht Hq).
Defined.

Lemma query_runner_outcome_witness :
  _is_read_only "MATCH (n) RETURN n" = true /\
  fst (query_runner moody (fun _ => EmptyString) "MATCH (n) RETURN n" (fresh tt))
    = inr no_results /\
  _is_read_only "MATCH (nope) RETURN 1" = true /\
  fst (query_runner moody (fun _ => EmptyString) "MATCH (nope) RETURN 1" (fresh tt))
    = inl (DriverError "nope").
Proof.
  split; [reflexivity|]. split.
  - destruct (query_runner_outcome moody (fun _ => EmptyString)
                "MATCH (n) RETURN n" (fresh tt) eq_refl) as (text & Hs & Ho).
    unfold sends in Hs. simpl in Hs. injection Hs as Hr Ht. subst text.
    exact Ho.
  - split; [reflexivity|].
    destruct (query_runner_outcome moody (fun _ => EmptyString)
                "MATCH (nope) RETURN 1" (fresh tt) eq_refl) as (text & Hs & Ho).
    unfold sends in Hs. simpl in Hs. injection Hs as Hr Ht. subst text.
    exact Ho.
Defined.

End GatewayFacts.

(* ===================================================================== *)
(** ** The property-graph writer *)
(* ===================================================================== *)

Module WriterFacts.
Import PyStr Py LoadNeo4j Vocabulary Samples.

Lemma dict_get_set_eq {V} (k : string) (v : V) (d : list (string * V)) :
  dict_get k (dict_set k v d) = Some v.
Proof.
  induction d as [|[k' v'] d IH]; simpl.
  - rewrite String.eqb_refl. reflexivity.
  - destruct (String.eqb k' k) eqn:E; simpl; rewrite E; auto.
Qed.

Lemma dict_get_set_ne {V} (k k0 : string) (v : V) (d : list (string * V)) :
  k0 <> k -> dict_get k0 (dict_set k v d) = dict_get k0 d.
Proof.
  intros Hne. induction d as [|[k' v'] d IH]; simpl.
  - apply String.eqb_neq in Hne. rewrite String.eqb_sym, Hne. reflexivity.
  - destruct (String.eqb k' k) eqn:E; simpl.
    + apply String.eqb_eq in E as ->.
      apply String.eqb_neq in Hne. rewrite String.eqb_sym, Hne. reflexivity.
    + rewrite IH. reflexivity.
Qed.

Lemma keys_dict_set {V} (k k0 : string) (v : V) (d : list (string * V)) :
  In k0 (keys (dict_set k v d)) <-> k0 = k \/ In k0 (keys d).
Proof.
  unfold keys. induction d as [|[k' v'] d IH]; simpl.
  - intuition.
  - destruct (String.eqb k' k) eqn:E; simpl.
    + apply String.eqb_eq in E as ->. intuition.
    + rewrite IH. intuition.
Qed.

Lemma str_in_middle (x a b c : string) :
  str_in x b = true -> str_in x (a +:+ b +:+ c) = true.
Proof.
  intros H. apply PyStrFacts.str_in_inv in H as (pre & post & ->).
  rewrite !PyStrFacts.str_app_assoc.
  rewrite <- (PyStrFacts.str_app_assoc a pre).
  apply PyStrFacts.str_in_intro.
Qed.

(** Every item of a joined list occurs in the joined text. *)
Lemma str_in_join (sep x : string) (l : list string) :
  In x l -> str_in x (join sep l) = true.
Proof.
  induction l as [|h t IH]; [intros []|].
  intros Hin.
  assert (Hh : forall rest, str_in h (h +:+ rest) = true).
  { intros rest. apply (PyStrFacts.str_in_intro h "" rest). }
  destruct t as [|h' t'].
  - destruct Hin as [<-|[]]. cbn [join].
    rewrite <- (PyStrFacts.str_app_empty_r h) at 2. apply Hh.
  - change (join sep (h :: h' :: t')) with (h +:+ sep +:+ join sep (h' :: t')).
    destruct Hin as [<-|Hin]; [apply Hh|].
    rewrite <- PyStrFacts.str_app_assoc.
    rewrite <- (PyStrFacts.str_app_empty_r (join sep (h' :: t'))).
    apply str_in_middle. apply IH. exact Hin.
Qed.

Lemma count_le {A} (f : A -> bool) (l : list A) : count f l <= length l.
Proof. induction l as [|a l IH]; simpl; [|destruct (f a)]; lia. Qed.

Lemma count_full {A} (f : A -> bool) (l : list A) :
  count f l = length l <-> Forall (fun a => f a = true) l.
Proof.
  induction l as [|a l IH]; simpl.
  - split; auto.
  - pose proof (count_le f l). destruct (f a) eqn:E; split; intros H'.
    + constructor; [exact E | apply IH; lia].
    + inversion H' as [|? ? _ Hl]; subst. apply IH in Hl. lia.
    + lia.
    + inversion H'; congruence.
Qed.

Lemma count_complement {A} (f : A -> bool) (l : list A) :
  count f l + count (fun a => negb (f a)) l = length l.
Proof. induction l as [|a l IH]; simpl; [|destruct (f a); simpl]; lia. Qed.

Section Loader.

Context {Store Rec : Type}.
Variable drv : Driver Store Rec.

Lemma replay_calls (cs : list Call) (s : Store) :
  map fst (fst (replay drv cs s)) = cs.
Proof.
  revert s; induction cs as [|c cs IH]; intros s; simpl; [reflexivity|].
  destruct (drv c s) as [r s1]. specialize (IH s1).
  destruct (replay drv cs s1) as [l s2]. simpl in *. rewrite IH. reflexivity.
Qed.

Lemma replay_length (cs : list Call) (s : Store) :
  length (fst (replay drv cs s)) = length cs.
Proof. rewrite <- (replay_calls cs s) at 2. rewrite length_map. reflexivity. Qed.

(** The node loop never raises: it makes the calls of the nodes one after
    the other and adds one to the counter for each that did not raise. *)
Lemma node_loop (l : list ExportedNode) (n : nat) (w : World Store Rec) :
  for_each (create_node drv) l n w =
  (inr (n + count entry_ok (fst (replay drv (map node_call l) (db w)))),
   mkWorld (snd (replay drv (map node_call l) (db w)))
           (trace w ++ fst (replay drv (map node_call l) (db w)))).
Proof.
  revert n w; induction l as [|a l IH]; intros n w; simpl.
  - unfold ret. rewrite Nat.add_0_r, app_nil_r. destruct w; reflexivity.
  - unfold bind, create_node, try_except, session_run at 1.
    unfold bind at 1. unfold session_run.
    destruct (drv (node_call a) (db w)) as [[e|rs] s1] eqn:E; simpl;
      rewrite IH; simpl;
      destruct (replay drv (map node_call l) s1) as [es s2]; simpl;
      rewrite <- app_assoc; simpl; do 2 f_equal; unfold entry_ok; simpl; lia.
Qed.

(** The relationship loop never raises either; it adds one to the counter
    for each call that delivered a record. *)
Lemma rel_loop (l : list ExportedRel) (n : nat) (w : World Store Rec) :
  for_each (create_rel drv) l n w =
  (inr (n + count entry_row (fst (replay drv (map rel_call l) (db w)))),
   mkWorld (snd (replay drv (map rel_call l) (db w)))
           (trace w ++ fst (replay drv (map rel_call l) (db w)))).
Proof.
  revert n w; induction l as [|a l IH]; intros n w; simpl.
  - unfold ret. rewrite Nat.add_0_r, app_nil_r. destruct w; reflexivity.
  - unfold bind, create_rel, try_except, session_run at 1.
    unfold bind at 1. unfold session_run.
    destruct (drv (rel_call a) (db w)) as [[e|[|r rs]] s1] eqn:E; simpl;
      rewrite IH; simpl;
      destruct (replay drv (map rel_call l) s1) as [es s2]; simpl;
      rewrite <- app_assoc; simpl; do 2 f_equal; unfold entry_row; simpl; lia.
Qed.

(** The whole of [load_from_json] in one equation. *)
Lemma load_from_json_unfold (export : Export) (w : World Store Rec) :
  let ns := replay drv (map node_call (default [] (nodes export))) (db w) in
  let rs := replay drv (map rel_call (default [] (relationships export))) (snd ns) in
  load_from_json drv export w =
  (inr [("nodes_created", count entry_ok (fst ns));
        ("relationships_created", count entry_row (fst rs))],
   mkWorld (snd rs) (trace w ++ fst ns ++ fst rs)).
Proof.
  intros ns rs. unfold load_from_json, bind.
  rewrite node_loop. rewrite rel_loop. simpl.
  unfold ret. rewrite <- app_assoc. reflexivity.
Qed.

Lemma added_after_load (export : Export) (w : World Store Rec) :
  let ns := replay drv (map node_call (default [] (nodes export))) (db w) in
  let rs := replay drv (map rel_call (default [] (relationships export))) (snd ns) in
  added w (snd (load_from_json drv export w)) = fst ns ++ fst rs.
Proof.
  intros ns rs. rewrite load_from_json_unfold. unfold added. simpl.
  apply drop_app_length.
Qed.

End Loader.

Section Claims.

Context {Store Rec : Type}.
Variable drv : Driver Store Rec.
Variable export : Export.
Variable w : World Store Rec.

Let the_nodes := default [] (nodes export).
Let the_rels := default [] (relationships export).
Let result := load_from_json drv export w.
(** The entries the run has added: those of the node phase are the first
    [length the_nodes], the rest are those of the relationship phase. *)
Let node_part := take (length the_nodes) (added w (snd result)).
Let rel_part := drop (length the_nodes) (added w (snd result)).

Lemma parts :
  node_part = fst (replay drv (map node_call the_nodes) (db w)) /\
  rel_part = fst (replay drv (map rel_call the_rels)
                    (snd (replay drv (map node_call the_nodes) (db w)))).
Proof.
  unfold node_part, rel_part, result. rewrite added_after_load.
  fold the_nodes the_rels.
  pose proof (replay_length drv (map node_call the_nodes) (db w)) as Hl.
  rewrite length_map in Hl. rewrite <- Hl.
  split; [apply take_app_length | apply drop_app_length].
Qed.

Lemma calls_in_two_phases :
  map fst (added w (snd (load_from_json drv export w))) =
  map node_call (default [] (nodes export)) ++
  map rel_call (default [] (relationships export)).
Proof.
  rewrite added_after_load, map_app, !replay_calls. reflexivity.
Qed.

(** C5. The calls a run makes are the node queries, one for each node in
    input order, followed by the relationship queries, one for each
    relationship in input order: no relationship query comes before a node
    query. *)
Theorem load_is_two_phase :
  map fst (added w (snd (load_from_json drv export w))) =
  map node_call (default [] (nodes export)) ++
  map rel_call (default [] (relationships export)).
Proof.
  rewrite added_after_load, map_app, !replay_calls. reflexivity.
Qed.

(** C6, as amended. One relationship query is made for each relationship
    of the input; the result holds the two counts of what was created and
    nothing else; the count of relationships is the number of relationship
    queries that delivered a record, at most the number of relationships,
    and equal to it exactly when every one of them delivered a record. *)
Theorem load_counts :
  map fst rel_part = map rel_call the_rels /\
  length rel_part = length the_rels /\
  exists nc rc,
    fst result = inr [("nodes_created", nc); ("relationships_created", rc)] /\
    nc = count entry_ok node_part /\
    nc <= length the_nodes /\
    rc = count entry_row rel_part /\
    rc <= length the_rels /\
    (rc = length the_rels <-> Forall (fun e => entry_row e = true) rel_part).
Proof.
  destruct parts as [Hn Hr].
  assert (Hln : length node_part = length the_nodes).
  { rewrite Hn, replay_length, length_map. reflexivity. }
  assert (Hlr : length rel_part = length the_rels).
  { rewrite Hr, replay_length, length_map. reflexivity. }
  split; [rewrite Hr; apply replay_calls|]. split; [exact Hlr|].
  exists (count entry_ok node_part), (count entry_row rel_part).
  split; [|split; [reflexivity|split; [|split; [reflexivity|split]]]].
  - unfold result. rewrite load_from_json_unfold. simpl.
    fold the_nodes the_rels. rewrite <- Hn, <- Hr. reflexivity.
  - rewrite <- Hln. apply count_le.
  - rewrite <- Hlr. apply count_le.
  - rewrite <- Hlr. apply count_full.
Qed.

(** C7. Whatever the database does, [load_from_json] returns normally;
    the query of every node and of every relationship is made, also after
    failures; a node whose query raises and a relationship whose query
    raises or finds no endpoints are passed over, and the returned counts
    fall short of the input sizes by exactly the number of such failures. *)
Theorem load_isolates_failures :
  exists nc rc w',
    load_from_json drv export w =
      (inr [("nodes_created", nc); ("relationships_created", rc)], w') /\
    map fst (added w w') = map node_call the_nodes ++ map rel_call the_rels /\
    nc + count (fun e => negb (entry_ok e)) node_part = length the_nodes /\
    rc + count (fun e => negb (entry_row e)) rel_part = length the_rels.
Proof.
  destruct parts as [Hn Hr].
  exists (count entry_ok node_part), (count entry_row rel_part), (snd result).
  split; [|split; [|split]].
  - unfold result. rewrite load_from_json_unfold. simpl.
    fold the_nodes the_rels. rewrite <- Hn, <- Hr. reflexivity.
  - unfold result. rewrite added_after_load, map_app, !replay_calls.
    reflexivity.
  - rewrite count_complement, Hn, replay_length, length_map. reflexivity.
  - rewrite count_complement, Hr, replay_length, length_map. reflexivity.
Qed.

(** C10. Every node of the export is created with the external identifier
    under the key [_rulenet_id] next to its declared properties: the
    keyword arguments of its query map the marker key to the identifier,
    whatever the node declared under that key, and every other key to its
    declared value; and the text of the query is a [CREATE] of one node
    with the node's labels whose property map names exactly the keys that
    are sent, each as [k: $k], so that the marker and every declared
    property are written to the node. *)
Theorem marker_overrides_declared (node : ExportedNode) :
  In node (default [] (nodes export)) ->
  let id := default JNull (node_id node) in
  let declared := default [] (node_properties node) in
  let sent := call_kwargs (node_call node) in
  (exists r, In (node_call node, r)
               (added w (snd (load_from_json drv export w)))) /\
  dict_get marker sent = Some id /\
  (forall k, k <> marker -> dict_get k sent = dict_get k declared) /\
  (forall k, In k (keys sent) <-> k = marker \/ In k (keys declared)) /\
  call_query (node_call node) =
    "CREATE (n:" +:+ join ":" (default ["Node"] (node_labels node)) +:+ " {" +:+
    join ", " (map (fun k => k +:+ ": $" +:+ k) (keys sent)) +:+ "})" /\
  (forall k, k = marker \/ In k (keys declared) ->
     str_in (k +:+ ": $" +:+ k) (call_query (node_call node)) = true).
Proof.
  intros Hin id declared sent. split; [|split; [|split; [|split; [|split]]]].
  - assert (H : In (node_call node)
                  (map fst (added w (snd (load_from_json drv export w))))).
    { rewrite calls_in_two_phases. apply in_or_app. left.
      apply in_map. exact Hin. }
    apply in_map_iff in H as ([c r] & Hc & H). simpl in Hc. subst c.
    exists r. exact H.
  - apply dict_get_set_eq.
  - intros k Hk. apply dict_get_set_ne. exact Hk.
  - intros k. apply keys_dict_set.
  - reflexivity.
  - intros k Hk.
    assert (Hs : In k (keys sent)) by (apply keys_dict_set; exact Hk).
    assert (Hj : str_in (k +:+ ": $" +:+ k)
                   (join ", " (map (fun k => k +:+ ": $" +:+ k) (keys sent))) = true).
    { apply str_in_join. apply (in_map (fun k => k +:+ ": $" +:+ k)). exact Hs. }
    change (call_query (node_call node)) with
      ("CREATE (n:" +:+ join ":" (default ["Node"] (node_labels node)) +:+ " {" +:+
       join ", " (map (fun k => k +:+ ": $" +:+ k) (keys sent)) +:+ "})").
    rewrite <- (PyStrFacts.str_app_assoc (join ":" _) " {").
    rewrite <- (PyStrFacts.str_app_assoc "CREATE (n:").
    apply str_in_middle. exact Hj.
Qed.

End Claims.

End WriterFacts.

(** *** The writer on the sample exports *)

Module WriterExamples.
Import PyStr Py LoadNeo4j Vocabulary Samples WriterFacts.

(** The sample scenario of the specification. *)
Example alice_only_counts :
  fst (load_from_json (mem_driver (fun _ => false)) alice_only (fresh mem_empty))
  = inr [("nodes_created", 1); ("relationships_created", 0)].
Proof. reflexivity. Qed.

(** Bob is refused by the database. The import goes on: the relationship
    that points to Bob finds no endpoint and is passed over, the one from
    Alice to herself is created. *)
Example bob_refused_import_goes_on :
  let res := load_from_json (mem_driver rejects_bob) alice_knows_bob
               (fresh mem_empty) in
  fst res = inr [("nodes_created", 1); ("relationships_created", 1)] /\
  map snd (trace (snd res)) =
    [inr []; inl (DriverError "rejected"); inr []; inr [(JInt 1, JInt 1)]].
Proof. split; reflexivity. Qed.

(** In the in-memory database a relationship one of whose endpoints is
    not there delivers no record: the loop passes it over, the counter
    stays, nothing is raised. *)
Lemma missing_endpoint_is_skipped (faulty : Call -> bool) (rel : ExportedRel)
  (n : nat) (w : World MemStore (JVal * JVal)) :
  has_dup (keys (call_kwargs (rel_call rel))) = false ->
  existsb (String.eqb "query") (keys (call_kwargs (rel_call rel))) = false ->
  faulty (rel_call rel) = false ->
  mem_match (default JNull (rel_startNodeId rel)) (db w) = [] \/
  mem_match (default JNull (rel_endNodeId rel)) (db w) = [] ->
  create_rel (mem_driver faulty) rel n w =
  (inr n, mkWorld (db w) (trace w ++ [(rel_call rel, inr [])])).
Proof.
  intros Hd Hq Hf Hm.
  unfold create_rel, try_except, bind, session_run, mem_driver.
  rewrite Hd, Hq, Hf. cbn [orb].
  change (startswith "CREATE (n:" (call_query (rel_call rel))) with false.
  cbn [call_kwargs rel_call LoadNeo4j.dict_get String.eqb Ascii.eqb
       Bool.eqb andb].
  assert (E : length (mem_match (default JNull (rel_startNodeId rel)) (db w)) *
              length (mem_match (default JNull (rel_endNodeId rel)) (db w)) = 0).
  { destruct Hm as [-> | ->]; simpl; lia. }
  rewrite E. simpl. rewrite app_nil_r. destruct w as [[ns rs] tr]; reflexivity.
Qed.

(** Against C6 as it is written. Both endpoints of the only relationship
    of [works_at] are in the database after the node phase, the database
    refuses the relationship query, and so fewer relationships are created
    than were attempted; and the result holds two counts, under no choice
    of keys four. *)
Lemma load_counts_counterexample :
  let res := load_from_json (mem_driver rejects_works_at) works_at
               (fresh mem_empty) in
  mem_match (JInt 1) (db (snd res)) <> [] /\
  mem_match (JInt 2) (db (snd res)) <> [] /\
  length (default [] (relationships works_at)) = 1 /\
  fst res = inr [("nodes_created", 2); ("relationships_created", 0)] /\
  ~ (exists k1 a k2 b k3 c k4 d,
       fst res = inr [(k1, a); (k2, b); (k3, c); (k4, d)]).
Proof.
  cbv zeta. split; [|split; [|split; [|split]]].
  - vm_compute. intros H; discriminate H.
  - vm_compute. intros H; discriminate H.
  - reflexivity.
  - reflexivity.
  - intros (k1 & a & k2 & b & k3 & c & k4 & d & H).
    vm_compute in H. discriminate H.
Qed.

Lemma marker_overrides_declared_witness :
  In shadowed (default [] (nodes shadowed_export)) /\
  dict_get marker (default [] (node_properties shadowed)) = Some (JStr "mine") /\
  dict_get marker (call_kwargs (node_call shadowed)) = Some (JInt 7) /\
  dict_get "label" (call_kwargs (node_call shadowed)) = Some (JStr "Eve") /\
  call_query (node_call shadowed) =
    "CREATE (n:Node {_rulenet_id: $_rulenet_id, label: $label})" /\
  str_in "label: $label" (call_query (node_call shadowed)) = true.
Proof.
  assert (Hin : In shadowed (default [] (nodes shadowed_export)))
    by (simpl; auto).
  destruct (marker_overrides_declared (mem_driver (fun _ => false))
              shadowed_export (fresh mem_empty) shadowed Hin)
    as (Hex & Hm & Hother & Hkeys & Htext & Hnamed).
  split; [exact Hin|]. split; [reflexivity|]. split; [exact Hm|].
  split; [rewrite (Hother "label"); [reflexivity | discriminate]|].
  split; [rewrite Htext; reflexivity|].
  apply (Hnamed "label"). right. simpl. auto.
Defined.

End WriterExamples.

(* ===================================================================== *)
(** ** The heterogeneous assembler *)
(* ===================================================================== *)

Module AssemblerFacts.
Import PyStr Py LoadPyg Vocabulary Samples PyStrFacts.

Lemma split_nonempty (sep : ascii) (s : string) : split sep s <> [].
Proof.
  induction s as [|c s IH]; simpl; [discriminate|].
  destruct (Ascii.eqb c sep); [discriminate|].
  destruct (split sep s); discriminate.
Qed.

(** Joining the pieces gives the string back, so [split] loses nothing. *)
Lemma join_split (sep : ascii) (s : string) :
  join (String sep EmptyString) (split sep s) = s.
Proof.
  induction s as [|c s IH]; simpl; [reflexivity|].
  pose proof (split_nonempty sep s) as Hne.
  destruct (Ascii.eqb c sep) eqn:E.
  - apply Ascii.eqb_eq in E as ->.
    destruct (split sep s) as [|h r]; [congruence|].
    simpl in *. rewrite IH. reflexivity.
  - destruct (split sep s) as [|h r]; [congruence|].
    destruct r; simpl in *; rewrite <- IH; reflexivity.
Qed.

Lemma split_inj (sep : ascii) (a b : string) :
  split sep a = split sep b -> a = b.
Proof.
  intros H. rewrite <- (join_split sep a), <- (join_split sep b), H.
  reflexivity.
Qed.

Section Assembler.

Context {Num F32 : Type}.
Variable to_float : Num -> F32.
Variable export : PygExport Num.

Abbreviation Data := (@HeteroData F32).


(** One turn of the edge loop, when it returns: the key has three parts,
    the store of that triplet holds the indices as given and, where
    non-empty features are listed for the key, those features as given;
    all other edge stores are as before. *)
Lemma edge_step (k : string) (idx : list (list Z)) (data data' : Data) :
  load_edge_type to_float export (k, idx) data = inr data' ->
  exists s r d st,
    split "," k = [s; r; d] /\
    edge_stores data' !! (s, r, d) = Some st /\
    es_edge_index st = Some (mkTensor idx) /\
    (forall feats ef,
        edgeFeatures export = Some feats ->
        LoadNeo4j.dict_get k feats = Some ef ->
        has_edge_feats ef = true ->
        es_edge_attr st = Some (mkTensor (map (map to_float) ef))) /\
    (forall t, t <> (s, r, d) -> edge_stores data' !! t = edge_stores data !! t).
Proof.
  unfold load_edge_type.
  destruct (split "," k) as [|s [|r [|d [|]]]]; try discriminate.
  unfold tensor_long.
  destruct (rectangular idx); simpl; [|discriminate].
  destruct (forallb (forallb is_int64) idx); simpl; [|discriminate].
  intros H. exists s, r, d.
  destruct (edgeFeatures export) as [feats|].
  - destruct (LoadNeo4j.dict_get k feats) as [ef|] eqn:Ek.
    + destruct (has_edge_feats ef) eqn:Eh.
      * unfold tensor_float in H.
        destruct (rectangular ef); simpl in H; [|discriminate].
        injection H as <-. eexists. simpl. rewrite lookup_insert_eq.
        split; [reflexivity|]. split; [reflexivity|].
        unfold edge_store. simpl. rewrite lookup_insert_eq. simpl.
        split; [reflexivity|]. split.
        -- intros feats' ef' Hf Hk _. congruence.
        -- intros t Ht. rewrite !lookup_insert_ne by congruence. reflexivity.
      * injection H as <-. eexists. simpl. rewrite lookup_insert_eq.
        split; [reflexivity|]. split; [reflexivity|]. simpl.
        split; [reflexivity|]. split.
        -- intros feats' ef' Hf Hk Hh. congruence.
        -- intros t Ht. rewrite lookup_insert_ne by congruence. reflexivity.
    + injection H as <-. eexists. simpl. rewrite lookup_insert_eq.
      split; [reflexivity|]. split; [reflexivity|]. simpl.
      split; [reflexivity|]. split.
      * intros feats' ef' Hf Hk Hh. congruence.
      * intros t Ht. rewrite lookup_insert_ne by congruence. reflexivity.
  - injection H as <-. eexists. simpl. rewrite lookup_insert_eq.
    split; [reflexivity|]. split; [reflexivity|]. simpl.
    split; [reflexivity|]. split.
    + intros feats' ef' Hf. discriminate.
    + intros t Ht. rewrite lookup_insert_ne by congruence. reflexivity.
Qed.

(** The turns for other keys leave the store of a triplet alone. *)
Lemma edge_loop_frame (ei : list (string * list (list Z))) (data data' : Data)
  (k : string) (t : string * string * string) :
  efor (load_edge_type to_float export) ei data = inr data' ->
  ~ In k (map fst ei) ->
  split "," k = [t.1.1; t.1.2; t.2] ->
  edge_stores data' !! t = edge_stores data !! t.
Proof.
  revert data; induction ei as [|[k0 idx0] ei IH]; intros data H Hnin Hk.
  - simpl in H. injection H as <-. reflexivity.
  - cbn [efor] in H.
    destruct (load_edge_type to_float export (k0, idx0) data) as [e|d1] eqn:E;
      simpl in H; [discriminate|].
    rewrite (IH d1 H); [| simpl in Hnin; tauto | exact Hk].
    destruct (edge_step _ _ _ _ E) as (s & r & d & st & Hs & _ & _ & _ & Hfr).
    apply Hfr. intros ->. simpl in Hk, Hnin.
    apply Hnin. left. apply (split_inj ","). congruence.
Qed.

(** What the edge loop leaves in the store of each key it was given. *)
Lemma edge_loop_stored (ei : list (string * list (list Z))) (data data' : Data)
  (k : string) (idx : list (list Z)) :
  efor (load_edge_type to_float export) ei data = inr data' ->
  NoDup (map fst ei) ->
  In (k, idx) ei ->
  exists s r d st,
    split "," k = [s; r; d] /\
    edge_stores data' !! (s, r, d) = Some st /\
    es_edge_index st = Some (mkTensor idx) /\
    (forall feats ef,
        edgeFeatures export = Some feats ->
        LoadNeo4j.dict_get k feats = Some ef ->
        has_edge_feats ef = true ->
        es_edge_attr st = Some (mkTensor (map (map to_float) ef))).
Proof.
  revert data; induction ei as [|[k0 idx0] ei IH]; intros data H Hnd Hin.
  - destruct Hin.
  - cbn [efor] in H. simpl in Hnd. apply NoDup_cons in Hnd as [Hk0 Hnd].
    destruct (load_edge_type to_float export (k0, idx0) data) as [e|d1] eqn:E;
      simpl in H; [discriminate|].
    destruct Hin as [Heq|Hin].
    + injection Heq as -> ->.
      destruct (edge_step _ _ _ _ E) as (s & r & d & st & Hs & Hst & Hi & Ha & _).
      exists s, r, d, st. split; [exact Hs|]. split; [|auto].
      rewrite (edge_loop_frame ei d1 data' k (s, r, d) H); auto.
      intros Hc. apply Hk0. apply list_elem_of_In. exact Hc.
    + apply (IH d1); auto.
Qed.



End Assembler.

Section Claims.

Context {Num F32 : Type}.
Variable to_float : Num -> F32.
Variable export : PygExport Num.







End Claims.



(** The sample scenario of the specification: one node group of two rows
    and two columns, one edge group of one edge without features. *)
Example people_shapes :
  exists data ns x st,
    load_hetero_graph as_is people = inr data /\
    node_stores data !! "Person" = Some ns /\
    ns_x ns = Some x /\ shape0 x = 2 /\ shape1 x = 2 /\
    edge_stores data !! ("Person", "knows", "Person") = Some st /\
    edge_count st = Some 1 /\ es_edge_attr st = None.
Proof.
  do 4 eexists. split; [vm_compute; reflexivity|].
  split; [vm_compute; reflexivity|]. split; [reflexivity|].
  split; [reflexivity|]. split; [reflexivity|].
  split; [vm_compute; reflexivity|]. split; reflexivity.
Qed.



End AssemblerFacts.

(* ===================================================================== *)
(** ** More about the query gateway *)
(* ===================================================================== *)

Module GatewayMore.
Import PyStr PyStrMore Py McpServer Vocabulary MoreVocabulary PyStrFacts GatewayFacts.

(** Two ways to cut one string meet in a common middle. *)
Lemma app_eq_app (a x p y : string) :
  a +:+ x = p +:+ y ->
  (exists m, p = a +:+ m /\ x = m +:+ y) \/
  (exists m, a = p +:+ m /\ y = m +:+ x).
Proof.
  revert p; induction a as [|c a IH]; intros p H; simpl in H.
  - left. exists p. auto.
  - destruct p as [|d p]; simpl in H.
    + right. exists (String c a). auto.
    + injection H as -> H. destruct (IH _ H) as [(m & -> & ->)|(m & -> & ->)].
      * left. exists m. auto.
      * right. exists m. auto.
Qed.

Lemma has_char_app (c : ascii) (m n : string) :
  has_char c (m +:+ String c n) = true.
Proof.
  induction m as [|d m IH]; simpl.
  - rewrite Ascii.eqb_refl. reflexivity.
  - rewrite IH. apply orb_true_r.
Qed.

Lemma str_in_app_l (sub a x : string) :
  str_in sub a = true -> str_in sub (a +:+ x) = true.
Proof.
  intros H. apply str_in_inv in H as (pre & post & ->).
  rewrite !str_app_assoc. apply str_in_intro.
Qed.

(** A needle without the character [c] does not reach across a [c]. *)
Lemma str_in_across (sub a rest : string) (c : ascii) :
  has_char c sub = false ->
  str_in sub (a +:+ String c rest) = true ->
  str_in sub a = true \/ str_in sub rest = true.
Proof.
  intros Hc H. apply str_in_inv in H as (pre & post & H).
  apply app_eq_app in H as [(m & -> & H)|(m & -> & H)].
  - destruct m as [|d m]; simpl in H.
    + destruct sub as [|e sub]; simpl in H.
      * left. destruct a; reflexivity.
      * injection H as <- _. simpl in Hc. rewrite Ascii.eqb_refl in Hc.
        discriminate.
    + injection H as _ ->. right. apply str_in_intro.
  - symmetry in H. apply app_eq_app in H as [(n & Hs & H)|(n & Hm & H)].
    + destruct n as [|d n]; simpl in H.
      * left. rewrite str_app_empty_r in Hs. subst m.
        rewrite <- (str_app_empty_r sub) at 2. apply str_in_intro.
      * injection H as <- _. subst sub. rewrite has_char_app in Hc.
        discriminate.
    + left. subst m. apply str_in_intro.
Qed.

Lemma any_in_exists (l : list string) (up : string) :
  any_in l up = true <-> exists b, In b l /\ str_in b up = true.
Proof. unfold any_in. apply existsb_exists. Qed.

(** Stripping the end and adding the bound brings no denylisted word in. *)
Lemma bounded_is_read_only (q : string) :
  _is_read_only q = true ->
  _is_read_only (rstrip q +:+ limit_clause) = true.
Proof.
  unfold _is_read_only. intros H. apply negb_true_iff in H.
  apply negb_true_iff. apply not_true_is_false. intros Hb.
  apply any_in_exists in Hb as (b & Hin & Hb).
  apply not_true_iff_false in H. apply H. apply any_in_exists.
  exists b. split; [exact Hin|].
  destruct (rstrip_spec q) as (ws & Hq & _).
  rewrite Hq at 1. rewrite upper_app. apply str_in_app_l.
  rewrite upper_app in Hb.
  change (upper limit_clause) with (String (ascii_of_nat 10) "LIMIT 25") in Hb.
  apply str_in_across in Hb as [Hb|Hb]; [exact Hb | |].
  - exfalso. unfold bad in Hin. simpl in Hin.
    destruct Hin as [<-|[<-|[<-|[<-|[<-|[<-|[<-|[]]]]]]]];
      vm_compute in Hb; discriminate Hb.
  - unfold bad in Hin. simpl in Hin.
    destruct Hin as [<-|[<-|[<-|[<-|[<-|[<-|[<-|[]]]]]]]]; reflexivity.
Qed.

Lemma rstrip_no_trailing_space (s : string) (c : ascii) :
  last_char (rstrip s) = Some c -> is_space c = false.
Proof.
  induction s as [|d s IH]; simpl; [discriminate|].
  destruct (rstrip s) as [|e t] eqn:E; simpl.
  - destruct (is_space d) eqn:Ed; simpl; [discriminate|].
    intros H. injection H as <-. exact Ed.
  - exact IH.
Qed.

(** On ASCII strings: [_is_read_only] refuses a text exactly when CREATE,
    MERGE, DELETE, SET, DROP or LOAD CSV (with one blank) occurs in it in
    some letter case. *)
Lemma is_read_only_exactly (q : string) :
  _is_read_only q = false <->
  exists tok, In tok effective_tokens /\ contains_ci tok q.
Proof.
  unfold _is_read_only. rewrite negb_false_iff, any_in_exists. split.
  - intros (b & Hin & Hb).
    assert (Hc : b = "CALL dbms" \/ (In b effective_tokens /\ upper b = b)).
    { unfold bad in Hin. simpl in Hin.
      destruct Hin as [<-|[<-|[<-|[<-|[<-|[<-|[<-|[]]]]]]]];
        solve [left; reflexivity
              | right; split; [simpl; auto 10 | reflexivity]]. }
    destruct Hc as [-> | [Hin' Hu]].
    + rewrite call_dbms_entry_is_dead in Hb. discriminate.
    + exists b. split; [exact Hin'|]. apply contains_ci_iff.
      rewrite Hu. exact Hb.
  - intros (tok & Hin & Hq). apply contains_ci_iff in Hq.
    assert (Hc : In tok bad /\ upper tok = tok).
    { unfold effective_tokens in Hin. simpl in Hin.
      destruct Hin as [<-|[<-|[<-|[<-|[<-|[<-|[]]]]]]];
        (split; [unfold bad; simpl; auto 10 | reflexivity]). }
    destruct Hc as [Hin' Hu]. exists tok. split; [exact Hin'|].
    rewrite <- Hu. exact Hq.
Qed.


Section Gateway.

Context {Store Rec : Type}.
Variable drv : Driver Store Rec.
Variable record_str : Rec -> string.

Lemma added_of_sends (w w' : World Store Rec) (text : string) :
  sends drv w w' text ->
  added w w' = [(mkCall text [], fst (drv (mkCall text []) (db w)))].
Proof. unfold sends, added. intros ->. apply drop_app_length. Qed.

Lemma added_of_run (q : string) (w : World Store Rec) :
  added w (snd (query_runner drv record_str q w)) =
  if _is_read_only q
  then let text := if negb (str_in "LIMIT" (upper q))
                   then rstrip q +:+ limit_clause else q in
       [(mkCall text [], fst (drv (mkCall text []) (db w)))]
  else [].
Proof.
  destruct (_is_read_only q) eqn:E.
  - apply added_of_sends. apply (query_runner_accepted drv record_str q w E).
  - rewrite query_runner_refused by exact E. unfold added. simpl.
    apply drop_all.
Qed.

(** X3. Whatever [query_runner] sends to the database still passes
    [_is_read_only], also after the bound has been put on. *)
Theorem sent_text_is_read_only (q : string) (w : World Store Rec)
  (c : Call) (r : exn + list Rec) :
  In (c, r) (added w (snd (query_runner drv record_str q w))) ->
  _is_read_only (call_query c) = true.
Proof.
  rewrite added_of_run. destruct (_is_read_only q) eqn:E; [|intros []].
  intros [H|[]]. injection H as <- _. simpl.
  destruct (str_in "LIMIT" (upper q)); simpl; [exact E|].
  apply bounded_is_read_only. exact E.
Qed.

(** On ASCII strings: whatever [query_runner] sends to the database has
    LIMIT in it, in some letter case. *)
Lemma sent_text_has_limit (q : string) (w : World Store Rec)
  (c : Call) (r : exn + list Rec) :
  In (c, r) (added w (snd (query_runner drv record_str q w))) ->
  contains_ci "LIMIT" (call_query c).
Proof.
  rewrite added_of_run. destruct (_is_read_only q) eqn:E; [|intros []].
  intros [H|[]]. injection H as <- _. simpl.
  destruct (str_in "LIMIT" (upper q)) eqn:EL; simpl.
  - apply contains_ci_iff. exact EL.
  - exists (rstrip q +:+ nl), "LIMIT", " 25". split; [|reflexivity].
    unfold limit_clause. rewrite !str_app_assoc. reflexivity.
Qed.

(** X5. One run of [query_runner] makes one call to the database when
    the query is accepted and none when it is refused, and its call has
    no parameters. *)
Theorem one_call_or_none (q : string) (w : World Store Rec) :
  length (added w (snd (query_runner drv record_str q w))) =
    (if _is_read_only q then 1 else 0) /\
  Forall (fun e => call_kwargs (fst e) = [])
         (added w (snd (query_runner drv record_str q w))).
Proof.
  rewrite added_of_run. destruct (_is_read_only q); split; simpl; auto.
Qed.

(** X6. The answer of [query_runner] is never the empty string. *)
Theorem answer_is_not_empty (q : string) (w : World Store Rec) (s : string) :
  fst (query_runner drv record_str q w) = inr s -> s <> EmptyString.
Proof.
  destruct (_is_read_only q) eqn:E.
  - destruct (query_runner_accepted drv record_str q w E) as [_ Hr].
    rewrite Hr. destruct (fst (drv _ (db w))) as [e|results]; [discriminate|].
    simpl. destruct (join nl (map record_str results)) eqn:Ej; simpl;
      intros H; injection H as <-; discriminate.
  - rewrite query_runner_refused by exact E. simpl.
    intros H; injection H as <-. discriminate.
Qed.

End Gateway.


Lemma sent_text_is_read_only_witness :
  _is_read_only ("MATCH (n) RETURN n   " +:+ nl) = true /\
  _is_read_only ("MATCH (n) RETURN n" +:+ nl +:+ "LIMIT 25") = true.
Proof.
  split; [reflexivity|].
  apply (sent_text_is_read_only silent (fun _ => EmptyString)
           ("MATCH (n) RETURN n   " +:+ nl) (fresh tt)
           (mkCall ("MATCH (n) RETURN n" +:+ nl +:+ "LIMIT 25") []) (inr [])).
  left. reflexivity.
Defined.

Lemma answer_is_not_empty_witness :
  fst (query_runner silent (fun _ => EmptyString) "MATCH (n) RETURN n" (fresh tt))
    = inr no_results /\
  no_results <> EmptyString.
Proof.
  assert (H : fst (query_runner silent (fun _ => EmptyString)
                     "MATCH (n) RETURN n" (fresh tt)) = inr no_results)
    by reflexivity.
  split; [exact H|].
  exact (answer_is_not_empty silent (fun _ => EmptyString)
           "MATCH (n) RETURN n" (fresh tt) no_results H).
Defined.

End GatewayMore.

(* ===================================================================== *)
(** ** The query gateway on text outside ASCII *)
(* ===================================================================== *)

Module TextFacts.
Import PyText McpServerText TextVocabulary.
Import PyStr Py McpServer Vocabulary MoreVocabulary PyStrFacts GatewayFacts.
Import GatewayMore.

#[local] Arguments of_ascii : simpl never.

Lemma N_of_ascii_inj (a b : ascii) : N_of_ascii a = N_of_ascii b -> a = b.
Proof.
  intros H. rewrite <- (ascii_N_embedding a), <- (ascii_N_embedding b), H.
  reflexivity.
Qed.

Lemma N_eqb_ascii (a b : ascii) :
  N.eqb (N_of_ascii a) (N_of_ascii b) = Ascii.eqb a b.
Proof.
  destruct (Ascii.eqb_spec a b) as [->|Hne].
  - apply N.eqb_refl.
  - apply N.eqb_neq. intros H. apply Hne, N_of_ascii_inj, H.
Qed.

Lemma of_ascii_cons (c : ascii) (s : string) :
  of_ascii (String c s) = N_of_ascii c :: of_ascii s.
Proof. reflexivity. Qed.

Lemma of_ascii_app (a b : string) :
  of_ascii (a +:+ b) = of_ascii a ++ of_ascii b.
Proof. unfold of_ascii. rewrite list_ascii_app, map_app. reflexivity. Qed.

Lemma startswith_of_ascii (p s : string) :
  PyText.startswith (of_ascii p) (of_ascii s) = startswith p s.
Proof.
  revert s; induction p as [|a p IH]; intros [|b s]; try reflexivity.
  rewrite !of_ascii_cons. cbn [PyText.startswith startswith].
  rewrite N_eqb_ascii, IH. reflexivity.
Qed.

Lemma str_in_of_ascii (sub s : string) :
  PyText.str_in (of_ascii sub) (of_ascii s) = str_in sub s.
Proof.
  induction s as [|c s IH].
  - change (of_ascii "") with (@nil N) at 1. cbn [PyText.str_in str_in].
    change (@nil N) with (of_ascii ""). rewrite startswith_of_ascii. reflexivity.
  - rewrite of_ascii_cons. cbn [PyText.str_in str_in].
    rewrite <- of_ascii_cons, startswith_of_ascii, IH. reflexivity.
Qed.

Lemma ascii_text_cons (c : ascii) (s : string) :
  ascii_text (String c s) = N.ltb (N_of_ascii c) 128 && ascii_text s.
Proof. reflexivity. Qed.

Lemma ascii_text_app (a b : string) :
  ascii_text (a +:+ b) = ascii_text a && ascii_text b.
Proof. unfold ascii_text. rewrite list_ascii_app, forallb_app. reflexivity. Qed.

Lemma ascii_lower_char (c : ascii) :
  N.ltb (N_of_ascii (lower_char c)) 128 = N.ltb (N_of_ascii c) 128.
Proof. destruct c as [[] [] [] [] [] [] [] []]; reflexivity. Qed.

Lemma ascii_text_lower (s : string) : ascii_text (lower s) = ascii_text s.
Proof.
  induction s as [|c s IH]; [reflexivity|].
  cbn [lower]. rewrite !ascii_text_cons, ascii_lower_char, IH. reflexivity.
Qed.

Lemma ascii_text_rstrip (s : string) :
  ascii_text s = true -> ascii_text (rstrip s) = true.
Proof.
  destruct (rstrip_spec s) as (ws & Hs & _). intros H.
  rewrite Hs, ascii_text_app in H. apply andb_true_iff in H. tauto.
Qed.

Lemma utf8_of_ascii (s : string) : ascii_text s = true -> utf8 (of_ascii s) = s.
Proof.
  induction s as [|c s IH]; [reflexivity|].
  rewrite ascii_text_cons. intros H. apply andb_true_iff in H as [Hc Hs].
  rewrite of_ascii_cons. unfold utf8. cbn [flat_map]. unfold utf8_char at 1.
  rewrite Hc, ascii_N_embedding. cbn [app string_of_list_ascii].
  fold (utf8 (of_ascii s)). rewrite IH by exact Hs. reflexivity.
Qed.

Lemma startswith_app_text (p r : text) : PyText.startswith p (p ++ r) = true.
Proof.
  induction p as [|c p IH]; simpl; [reflexivity|].
  rewrite N.eqb_refl. exact IH.
Qed.

Lemma str_in_intro_text (sub pre post : text) :
  PyText.str_in sub (pre ++ sub ++ post) = true.
Proof.
  induction pre as [|c pre IH]; simpl.
  - destruct (sub ++ post) eqn:E; simpl;
      rewrite <- E, startswith_app_text; reflexivity.
  - rewrite IH. apply orb_true_r.
Qed.

(** The wide [rstrip] takes a run of white space off the end and nothing
    else, and what it leaves does not end in white space. *)
Lemma rstrip_text_spec (isspace : N -> bool) (s : text) :
  exists ws, s = PyText.rstrip isspace s ++ ws /\
             Forall (fun c => isspace c = true) ws.
Proof.
  induction s as [|c s (ws & E & Hws)]; simpl.
  - exists []. split; [reflexivity | constructor].
  - destruct (PyText.rstrip isspace s) as [|d t] eqn:R.
    + simpl in E. subst ws. destruct (isspace c) eqn:Ec.
      * exists (c :: s). split; [reflexivity|]. constructor; assumption.
      * exists s. split; [reflexivity | assumption].
    + exists ws. split; [|exact Hws]. simpl. rewrite E at 1. reflexivity.
Qed.

Lemma rstrip_text_last (isspace : N -> bool) (s : text) (c : N) :
  last (PyText.rstrip isspace s) = Some c -> isspace c = false.
Proof.
  induction s as [|d s IH]; simpl; [discriminate|].
  destruct (PyText.rstrip isspace s) as [|e t] eqn:R.
  - destruct (isspace d) eqn:Ed; simpl; [discriminate|].
    intros H. injection H as <-. exact Ed.
  - intros H. apply IH. rewrite <- H. reflexivity.
Qed.

(** The tables of the examples do within ASCII what is said of them. *)
Lemma some_upper_within_ascii : upper_within_ascii some_upper.
Proof.
  intros a. destruct a as [[] [] [] [] [] [] [] []]; intros H;
    solve [reflexivity | discriminate H].
Defined.

Lemma ascii_upper_within_ascii : upper_within_ascii ascii_upper.
Proof.
  intros a. destruct a as [[] [] [] [] [] [] [] []]; intros H;
    solve [reflexivity | discriminate H].
Defined.

Lemma py_isspace_within_ascii : isspace_within_ascii py_isspace.
Proof.
  intros a. destruct a as [[] [] [] [] [] [] [] []]; intros H;
    solve [reflexivity | discriminate H].
Defined.

Section Tables.

Variable upper_map : N -> text.
Variable isspace : N -> bool.
Hypothesis Hup : upper_within_ascii upper_map.
Hypothesis Hsp : isspace_within_ascii isspace.

Lemma upper_app_text (a b : text) :
  PyText.upper upper_map (a ++ b) =
  PyText.upper upper_map a ++ PyText.upper upper_map b.
Proof. apply flat_map_app. Qed.

Lemma upper_of_ascii (s : string) :
  ascii_text s = true ->
  PyText.upper upper_map (of_ascii s) = of_ascii (upper s).
Proof.
  induction s as [|c s IH]; [reflexivity|].
  rewrite ascii_text_cons. intros H. apply andb_true_iff in H as [Hc Hs].
  apply N.ltb_lt in Hc.
  rewrite of_ascii_cons. unfold PyText.upper. cbn [flat_map].
  rewrite (Hup c Hc). fold (PyText.upper upper_map (of_ascii s)).
  rewrite IH by exact Hs. reflexivity.
Qed.

Lemma rstrip_of_ascii (s : string) :
  ascii_text s = true ->
  PyText.rstrip isspace (of_ascii s) = of_ascii (rstrip s).
Proof.
  induction s as [|c s IH]; [reflexivity|].
  rewrite ascii_text_cons. intros H. apply andb_true_iff in H as [Hc Hs].
  apply N.ltb_lt in Hc.
  rewrite of_ascii_cons. cbn [PyText.rstrip rstrip].
  rewrite IH by exact Hs. rewrite (Hsp c Hc).
  destruct (rstrip s) as [|d r]; [|reflexivity].
  change (of_ascii "") with (@nil N). simpl.
  destruct (is_space c); reflexivity.
Qed.

(** A token that occurs in some letter case is found in the upper-cased
    text. *)
Lemma occurs_found (tok : string) (q : text) :
  ascii_text tok = true ->
  occurs_ci tok q ->
  PyText.str_in (of_ascii (upper tok)) (PyText.upper upper_map q) = true.
Proof.
  intros Ht (pre & mid & post & -> & Hm).
  assert (Ha : ascii_text mid = true).
  { rewrite <- ascii_text_lower, Hm, ascii_text_lower. exact Ht. }
  rewrite !upper_app_text, (upper_of_ascii mid Ha), (lower_eq_upper_eq _ _ Hm).
  apply str_in_intro_text.
Qed.

Lemma occurs_of_ascii (tok a : string) :
  contains_ci tok a -> occurs_ci tok (of_ascii a).
Proof.
  intros (pre & mid & post & -> & Hm).
  exists (of_ascii pre), mid, (of_ascii post).
  rewrite !of_ascii_app. auto.
Qed.

(** On ASCII text the gateway over code points is the gateway over ASCII
    strings. *)
Lemma is_read_only_agree (a : string) :
  ascii_text a = true ->
  _is_read_only_text upper_map (of_ascii a) = _is_read_only a.
Proof.
  intros Ha. unfold _is_read_only_text, _is_read_only, any_in, bad.
  rewrite (upper_of_ascii a Ha). cbn [existsb].
  rewrite !str_in_of_ascii. reflexivity.
Qed.

Context {Store Rec : Type}.
Variable drv : Driver Store Rec.
Variable record_str : Rec -> string.

Lemma query_runner_agree (a : string) :
  ascii_text a = true ->
  query_runner_text upper_map isspace drv record_str (of_ascii a) =
  query_runner drv record_str a.
Proof.
  intros Ha. unfold query_runner_text, query_runner.
  rewrite (is_read_only_agree a Ha), (upper_of_ascii a Ha), str_in_of_ascii.
  destruct (_is_read_only a); [|reflexivity]. cbn [negb].
  destruct (str_in "LIMIT" (upper a)); cbn [negb].
  - rewrite (utf8_of_ascii a Ha). reflexivity.
  - rewrite (rstrip_of_ascii a Ha), <- of_ascii_app, utf8_of_ascii; [reflexivity|].
    rewrite ascii_text_app, (ascii_text_rstrip a Ha). reflexivity.
Qed.

(** What an accepted text amounts to. *)
Lemma query_runner_text_accepted (q : text) (w : World Store Rec) :
  _is_read_only_text upper_map q = true ->
  let sent := if negb (PyText.str_in (of_ascii "LIMIT") (PyText.upper upper_map q))
              then PyText.rstrip isspace q ++ of_ascii limit_clause else q in
  sends drv w (snd (query_runner_text upper_map isspace drv record_str q w))
        (utf8 sent).
Proof.
  intros H. unfold query_runner_text, sends. rewrite H. cbn [negb].
  unfold bind, _run, session_run.
  destruct (drv _ (db w)) as [[e|results] s]; reflexivity.
Qed.

Lemma query_runner_text_refused (q : text) (w : World Store Rec) :
  _is_read_only_text upper_map q = false ->
  query_runner_text upper_map isspace drv record_str q w = (inr refusal, w).
Proof. intros H. unfold query_runner_text. rewrite H. reflexivity. Qed.


Lemma added_of_run_text (q : text) (w : World Store Rec) :
  added w (snd (query_runner_text upper_map isspace drv record_str q w)) =
  if _is_read_only_text upper_map q
  then let sent := if negb (PyText.str_in (of_ascii "LIMIT")
                              (PyText.upper upper_map q))
                   then PyText.rstrip isspace q ++ of_ascii limit_clause
                   else q in
       [(mkCall (utf8 sent) [], fst (drv (mkCall (utf8 sent) []) (db w)))]
  else [].
Proof.
  destruct (_is_read_only_text upper_map q) eqn:E.
  - apply added_of_sends. apply (query_runner_text_accepted q w E).
  - rewrite query_runner_text_refused by exact E. unfold added. simpl.
    apply drop_all.
Qed.

(** X1. [_is_read_only] refuses every text in which CREATE, MERGE,
    DELETE, SET, DROP or LOAD CSV (with one blank) occurs in some letter
    case; and a text within ASCII is refused for no other reason. *)
Theorem is_read_only_exactly_within_ascii :
  (forall q tok,
     In tok effective_tokens -> occurs_ci tok q ->
     _is_read_only_text upper_map q = false) /\
  (forall a,
     ascii_text a = true ->
     _is_read_only_text upper_map (of_ascii a) = false ->
     exists tok, In tok effective_tokens /\ occurs_ci tok (of_ascii a)).
Proof.
  split.
  - intros q tok Hin Ho.
    assert (Hc : In tok bad /\ upper tok = tok /\ ascii_text tok = true).
    { unfold effective_tokens in Hin. simpl in Hin.
      destruct Hin as [<-|[<-|[<-|[<-|[<-|[<-|[]]]]]]];
        (split; [unfold bad; simpl; auto 10 | split; reflexivity]). }
    destruct Hc as (Hb & Hu & Ha).
    unfold _is_read_only_text. apply negb_false_iff, existsb_exists.
    exists tok. split; [exact Hb|]. rewrite <- Hu at 1.
    apply occurs_found; assumption.
  - intros a Ha Hr. rewrite (is_read_only_agree a Ha) in Hr.
    apply is_read_only_exactly in Hr as (tok & Hin & Hc).
    exists tok. split; [exact Hin | apply occurs_of_ascii, Hc].
Qed.

(** X4. Whatever [query_runner] sends to the database has LIMIT in its
    upper-cased form; when the query is within ASCII, the text sent has
    LIMIT in it in some letter case. *)
Theorem sent_text_has_limit_upper (q : text) (w : World Store Rec)
  (c : Call) (r : exn + list Rec) :
  In (c, r)
     (added w (snd (query_runner_text upper_map isspace drv record_str q w))) ->
  (exists sent,
     call_query c = utf8 sent /\
     PyText.str_in (of_ascii "LIMIT") (PyText.upper upper_map sent) = true) /\
  (forall a, q = of_ascii a -> ascii_text a = true ->
             contains_ci "LIMIT" (call_query c)).
Proof.
  intros Hin. split.
  - rewrite added_of_run_text in Hin.
    destruct (_is_read_only_text upper_map q); [|destruct Hin].
    destruct Hin as [Hin|[]]. injection Hin as <- _. cbn [call_query].
    eexists. split; [reflexivity|].
    destruct (PyText.str_in (of_ascii "LIMIT") (PyText.upper upper_map q))
      eqn:EL; cbn [negb]; [exact EL|].
    rewrite upper_app_text, (upper_of_ascii limit_clause eq_refl).
    change (upper limit_clause) with (nl +:+ "LIMIT" +:+ " 25").
    rewrite !of_ascii_app, app_assoc. apply str_in_intro_text.
  - intros a -> Ha. rewrite (query_runner_agree a Ha) in Hin.
    exact (sent_text_has_limit drv record_str a w c r Hin).
Qed.

(** X7. When the bound is put on, the query reaches the database whole
    but for the white space at its end: the text sent is the query
    without a trailing run of white space, not ending in white space
    itself, followed by the bound on a new line. White space is what
    [str.isspace] says it is. *)
Theorem bound_keeps_the_text (q : text) (w : World Store Rec) :
  _is_read_only_text upper_map q = true ->
  PyText.str_in (of_ascii "LIMIT") (PyText.upper upper_map q) = false ->
  exists body ws,
    q = body ++ ws /\
    Forall (fun c => isspace c = true) ws /\
    (forall c, last body = Some c -> isspace c = false) /\
    sends drv w (snd (query_runner_text upper_map isspace drv record_str q w))
          (utf8 (body ++ of_ascii (nl +:+ "LIMIT 25"))).
Proof.
  intros E HL. destruct (rstrip_text_spec isspace q) as (ws & Hq & Hws).
  exists (PyText.rstrip isspace q), ws.
  split; [exact Hq|]. split; [exact Hws|].
  split; [apply rstrip_text_last|].
  pose proof (query_runner_text_accepted q w E) as Hs. cbv zeta in Hs.
  rewrite HL in Hs. exact Hs.
Qed.

End Tables.


(** Outside ASCII a text may be refused in which no keyword occurs: the
    long s becomes S, and [ſet] is taken for SET. *)
Example long_s_is_refused :
  _is_read_only_text some_upper long_s_set = false /\
  forall tok, In tok effective_tokens -> ~ occurs_ci tok long_s_set.
Proof.
  split; [reflexivity|]. intros tok Hin Ho.
  assert (Ha : ascii_text tok = true /\ upper tok = tok).
  { unfold effective_tokens in Hin. simpl in Hin.
    destruct Hin as [<-|[<-|[<-|[<-|[<-|[<-|[]]]]]]]; split; reflexivity. }
  destruct Ha as [Ha Hu].
  apply (occurs_found ascii_upper ascii_upper_within_ascii tok
           long_s_set Ha) in Ho.
  rewrite Hu in Ho.
  unfold effective_tokens in Hin. simpl in Hin.
  destruct Hin as [<-|[<-|[<-|[<-|[<-|[<-|[]]]]]]];
    vm_compute in Ho; discriminate Ho.
Qed.


Lemma is_read_only_exactly_within_ascii_witness :
  In "SET" effective_tokens /\
  occurs_ci "SET" (of_ascii "match (n) set n.x = 1") /\
  _is_read_only_text some_upper (of_ascii "match (n) set n.x = 1") = false.
Proof.
  assert (Hin : In "SET" effective_tokens) by (simpl; auto).
  assert (Ho : occurs_ci "SET" (of_ascii "match (n) set n.x = 1")).
  { exists (of_ascii "match (n) "), "set", (of_ascii " n.x = 1").
    split; reflexivity. }
  split; [exact Hin|]. split; [exact Ho|].
  exact (proj1 (is_read_only_exactly_within_ascii some_upper
                  some_upper_within_ascii)
           (of_ascii "match (n) set n.x = 1") "SET" Hin Ho).
Defined.

Lemma sent_text_has_limit_upper_witness :
  exists sent,
    "match (n) return n limit 3" = utf8 sent /\
    PyText.str_in (of_ascii "LIMIT") (PyText.upper some_upper sent) = true.
Proof.
  apply (proj1 (sent_text_has_limit_upper some_upper py_isspace
                  some_upper_within_ascii py_isspace_within_ascii
                  silent (fun _ => EmptyString)
                  (of_ascii "match (n) return n limit 3") (fresh tt)
                  (mkCall "match (n) return n limit 3" []) (inr [])
                  (or_introl eq_refl))).
Defined.

Lemma bound_keeps_the_text_witness :
  _is_read_only_text some_upper ends_in_nbsp = true /\
  PyText.str_in (of_ascii "LIMIT") (PyText.upper some_upper ends_in_nbsp)
    = false /\
  exists body ws,
    ends_in_nbsp = body ++ ws /\
    Forall (fun c => py_isspace c = true) ws /\
    sends silent (fresh tt)
      (snd (query_runner_text some_upper py_isspace silent
              (fun _ => EmptyString) ends_in_nbsp (fresh tt)))
      (utf8 (body ++ of_ascii (nl +:+ "LIMIT 25"))).
Proof.
  split; [reflexivity|]. split; [reflexivity|].
  destruct (bound_keeps_the_text some_upper py_isspace silent
              (fun _ => EmptyString) ends_in_nbsp (fresh tt) eq_refl eq_refl)
    as (body & ws & Hq & Hws & Hlast & Hs).
  exists body, ws. auto.
Defined.

End TextFacts.

(* ===================================================================== *)
(** ** The script mode of the loader *)
(* ===================================================================== *)

Module ScriptFacts.
Import PyStr PyStrMore Py LoadNeo4j LoadScript Vocabulary MoreVocabulary.
Import PyStrFacts WriterFacts.

Lemma lstrip_first (s : string) (c : ascii) :
  first_char (lstrip s) = Some c -> is_space c = false.
Proof.
  induction s as [|d s IH]; simpl; [discriminate|].
  destruct (is_space d) eqn:E; simpl; [exact IH|].
  intros H. injection H as <-. exact E.
Qed.

Lemma lstrip_last (s : string) :
  is_empty (lstrip s) = false -> last_char (lstrip s) = last_char s.
Proof.
  induction s as [|d s IH]; simpl; [discriminate|].
  destruct (is_space d) eqn:E; simpl; [|reflexivity].
  intros H. rewrite (IH H). destruct s; [discriminate H | reflexivity].
Qed.

Lemma has_char_lstrip (c : ascii) (s : string) :
  has_char c (lstrip s) = true -> has_char c s = true.
Proof.
  induction s as [|d s IH]; simpl; [discriminate|].
  destruct (is_space d); simpl; [|auto].
  intros H. rewrite (IH H). apply orb_true_r.
Qed.

Lemma has_char_rstrip (c : ascii) (s : string) :
  has_char c (rstrip s) = true -> has_char c s = true.
Proof.
  induction s as [|d s IH]; simpl; [discriminate|].
  destruct (is_empty (rstrip s) && is_space d); simpl; [discriminate|].
  intros H. apply orb_true_iff in H as [H|H]; rewrite ?H; simpl; auto.
  rewrite (IH H). apply orb_true_r.
Qed.

Lemma has_char_strip (c : ascii) (s : string) :
  has_char c (strip s) = true -> has_char c s = true.
Proof. intros H. apply has_char_rstrip, has_char_lstrip, H. Qed.

(** No piece of [split] holds the separator. *)
Lemma split_pieces_clean (sep : ascii) (s : string) :
  Forall (fun p => has_char sep p = false) (split sep s).
Proof.
  induction s as [|c s IH]; simpl.
  - constructor; [reflexivity | constructor].
  - destruct (Ascii.eqb c sep) eqn:E.
    + constructor; [reflexivity | exact IH].
    + destruct (split sep s) as [|h r]; [repeat constructor; simpl; rewrite E; reflexivity|].
      inversion IH as [|? ? Hh Hr]; subst.
      constructor; [simpl; rewrite E, Hh; reflexivity | exact Hr].
Qed.

(** The pieces of a string of white space and separators are blank. *)
Lemma all_space_lstrip (s : string) :
  all_space s -> lstrip s = EmptyString.
Proof.
  induction s as [|c s IH]; intros H; simpl; [reflexivity|].
  rewrite (H c) by (simpl; auto). apply IH.
  intros d Hd. apply H. simpl. auto.
Qed.

Lemma all_space_strip (s : string) :
  all_space s -> strip s = EmptyString.
Proof.
  intros H. unfold strip. destruct (rstrip_spec s) as (ws & Hs & _).
  apply all_space_lstrip. intros c Hc. apply H.
  rewrite Hs, list_ascii_app. apply in_or_app. left. exact Hc.
Qed.

Lemma split_blank (sep : ascii) (s : string) :
  (forall c, In c (list_ascii_of_string s) -> is_space c = true \/ c = sep) ->
  Forall all_space (split sep s).
Proof.
  induction s as [|c s IH]; intros H; simpl.
  - constructor; [intros ? [] | constructor].
  - assert (Hs : Forall all_space (split sep s)).
    { apply IH. intros d Hd. apply H. simpl. auto. }
    destruct (Ascii.eqb c sep) eqn:E.
    + constructor; [intros ? [] | exact Hs].
    + assert (Hc : is_space c = true).
      { destruct (H c) as [Hc| ->]; [simpl; auto | exact Hc |].
        rewrite Ascii.eqb_refl in E. discriminate. }
      destruct (split sep s) as [|h r].
      * constructor; [|constructor]. intros d [<-|[]]. exact Hc.
      * inversion Hs as [|? ? Hh Hr]; subst. constructor; [|exact Hr].
        intros d [<-|Hd]; [exact Hc | apply Hh, Hd].
Qed.

Lemma stripped_nonempty_blank (pieces : list string) :
  Forall all_space pieces -> stripped_nonempty pieces = [].
Proof.
  induction 1 as [|p l Hp _ IH]; simpl; [reflexivity|].
  rewrite (all_space_strip p Hp). simpl. exact IH.
Qed.

Lemma stripped_nonempty_In (pieces : list string) (s : string) :
  In s (stripped_nonempty pieces) ->
  is_empty s = false /\ exists p, In p pieces /\ s = strip p.
Proof.
  induction pieces as [|p l IH]; simpl; [intros []|].
  destruct (is_empty (strip p)) eqn:E.
  - intros H. destruct (IH H) as (Hs & q & Hq & ->).
    split; [exact Hs|]. exists q. auto.
  - intros [<-|H].
    + split; [exact E|]. exists p. auto.
    + destruct (IH H) as (Hs & q & Hq & ->).
      split; [exact Hs|]. exists q. auto.
Qed.

Lemma stripped_nonempty_length (pieces : list string) :
  length (stripped_nonempty pieces) <= length pieces.
Proof.
  induction pieces as [|p l IH]; simpl; [lia|].
  destruct (is_empty (strip p)); simpl; lia.
Qed.

(** X8. Every statement the script mode takes from a script is not
    empty, neither begins nor ends with white space, and holds no
    semicolon: the script is cut at every semicolon, also at one inside
    a quoted text. *)
Theorem statements_are_clean (cypher_script stmt : string) :
  In stmt (statements cypher_script) ->
  stmt <> EmptyString /\
  (forall c, first_char stmt = Some c -> is_space c = false) /\
  (forall c, last_char stmt = Some c -> is_space c = false) /\
  has_char ";" stmt = false.
Proof.
  unfold statements. intros H.
  apply stripped_nonempty_In in H as (Hne & p & Hp & ->).
  split; [intros E; rewrite E in Hne; discriminate|].
  split; [apply lstrip_first|]. split.
  - unfold strip in *. rewrite (lstrip_last _ Hne).
    apply GatewayMore.rstrip_no_trailing_space.
  - destruct (has_char ";" (strip p)) eqn:E; [|reflexivity].
    apply has_char_strip in E.
    pose proof (split_pieces_clean ";" cypher_script) as Hall.
    rewrite Forall_forall in Hall. apply list_elem_of_In in Hp.
    rewrite (Hall p Hp) in E. discriminate.
Qed.

Section Loader.

Context {Store Rec : Type}.
Variable drv : Driver Store Rec.

(** The statement loop never raises: it sends the statements one after
    the other and counts those that did not raise. *)
Lemma statement_loop (l : list string) (n : nat) (w : World Store Rec) :
  Forall (fun s => is_empty s = false) l ->
  for_each (run_statement drv) l n w =
  (inr (n + count entry_ok (fst (replay drv (map statement_call l) (db w)))),
   mkWorld (snd (replay drv (map statement_call l) (db w)))
           (trace w ++ fst (replay drv (map statement_call l) (db w)))).
Proof.
  intros Hall. revert n w; induction Hall as [|a l Ha _ IH]; intros n w; simpl.
  - unfold ret. rewrite Nat.add_0_r, app_nil_r. destruct w; reflexivity.
  - unfold bind, run_statement. rewrite Ha.
    unfold try_except, bind, session_run.
    change (mkCall a []) with (statement_call a).
    destruct (drv (statement_call a) (db w)) as [[e|rs] s1] eqn:E; simpl;
      rewrite IH; simpl;
      destruct (replay drv (map statement_call l) s1) as [es s2]; simpl;
      rewrite <- app_assoc; simpl; do 2 f_equal; unfold entry_ok; simpl; lia.
Qed.

Lemma statements_nonempty (cypher_script : string) :
  Forall (fun s => is_empty s = false) (statements cypher_script).
Proof.
  apply Forall_forall. intros s Hs. apply list_elem_of_In in Hs.
  apply stripped_nonempty_In in Hs as [Hs _]. exact Hs.
Qed.

(** X9. With a script in the file, the script mode never raises: it
    sends every statement of the script once, in order and without
    parameters, goes on after a statement the database refuses, and
    reports the number of statements that did not raise. *)
Theorem script_mode_runs_every_statement (doc : Document) (script : string)
  (w : World Store Rec) :
  doc_cypherScript doc = Some script ->
  script <> EmptyString ->
  exists w',
    load_from_cypher_script drv doc w =
      (inr [("statements_executed",
             JInt (Z.of_nat (count entry_ok (added w w'))))], w') /\
    map fst (added w w') = map statement_call (statements script).
Proof.
  intros Hd Hne.
  assert (He : is_empty script = false)
    by (destruct script; [congruence | reflexivity]).
  unfold load_from_cypher_script. rewrite Hd.
  change (default EmptyString (Some script)) with script. rewrite He.
  unfold bind. rewrite statement_loop by apply statements_nonempty.
  unfold ret.
  set (es := replay drv (map statement_call (statements script)) (db w)).
  exists (mkWorld (snd es) (trace w ++ fst es)).
  assert (Ha : added w (mkWorld (snd es) (trace w ++ fst es)) = fst es)
    by (unfold added; simpl; apply drop_app_length).
  rewrite Ha. split; [reflexivity | apply replay_calls].
Qed.

(** X10. Without a script in the file, or with an empty one, the script
    mode answers [success: False]; with a script of nothing but white
    space and semicolons it reports zero statements. In both cases no
    call reaches the database. *)
Theorem script_mode_without_statements (doc : Document) (w : World Store Rec) :
  (default EmptyString (doc_cypherScript doc) = EmptyString ->
   load_from_cypher_script drv doc w = (inr [("success", JBool false)], w)) /\
  (forall script,
      doc_cypherScript doc = Some script ->
      script <> EmptyString ->
      blank_script script ->
      load_from_cypher_script drv doc w =
        (inr [("statements_executed", JInt 0)], w)).
Proof.
  split.
  - intros H. unfold load_from_cypher_script. rewrite H. reflexivity.
  - intros script Hd Hne Hb.
    assert (He : is_empty script = false)
      by (destruct script; [congruence | reflexivity]).
    unfold load_from_cypher_script. rewrite Hd.
    change (default EmptyString (Some script)) with script. rewrite He.
    unfold statements.
    rewrite (stripped_nonempty_blank _ (split_blank ";" _ Hb)).
    reflexivity.
Qed.

End Loader.

Lemma statements_are_clean_witness :
  In "RETURN 2" (statements "RETURN 'a ; RETURN 2 ;") /\
  has_char ";" "RETURN 2" = false.
Proof.
  assert (H : In "RETURN 2" (statements "RETURN 'a ; RETURN 2 ;"))
    by (vm_compute; auto).
  split; [exact H|].
  apply (statements_are_clean "RETURN 'a ; RETURN 2 ;" "RETURN 2" H).
Defined.

Lemma script_mode_runs_every_statement_witness :
  exists w',
    load_from_cypher_script moody
      (mkDocument (mkExport None None) (Some "RETURN 1; nope ;; RETURN 3"))
      (fresh tt)
    = (inr [("statements_executed",
             JInt (Z.of_nat (count entry_ok (added (fresh tt) w'))))], w') /\
    map fst (added (fresh tt) w') =
      [mkCall "RETURN 1" []; mkCall "nope" []; mkCall "RETURN 3" []].
Proof.
  destruct (script_mode_runs_every_statement moody
              (mkDocument (mkExport None None) (Some "RETURN 1; nope ;; RETURN 3"))
              "RETURN 1; nope ;; RETURN 3" (fresh tt) eq_refl)
    as (w' & Hr & Hc); [discriminate|].
  exists w'. split; [exact Hr | exact Hc].
Defined.

Lemma script_mode_without_statements_witness :
  load_from_cypher_script silent
    (mkDocument (mkExport None None) None) (fresh tt)
  = (inr [("success", JBool false)], fresh tt) /\
  load_from_cypher_script silent
    (mkDocument (mkExport None None) (Some " ; ;")) (fresh tt)
  = (inr [("statements_executed", JInt 0)], fresh tt).
Proof.
  split.
  - apply (proj1 (script_mode_without_statements silent
                    (mkDocument (mkExport None None) None) (fresh tt))).
    reflexivity.
  - apply (proj2 (script_mode_without_statements silent
                    (mkDocument (mkExport None None) (Some " ; ;")) (fresh tt))
             " ; ;"); [reflexivity | discriminate |].
    intros c Hc. simpl in Hc.
    destruct Hc as [<-|[<-|[<-|[<-|[]]]]]; auto.
Defined.

End ScriptFacts.

(* ===================================================================== *)
(** ** Statistics and the command line of the loader *)
(* ===================================================================== *)

Module CliFacts.
Import PyStr PyStrMore Py LoadNeo4j LoadScript Vocabulary MoreVocabulary.
Import PyStrFacts WriterFacts ScriptFacts.

Lemma is_prefix_refl {A} (l : list A) : is_prefix l l.
Proof. exists []. rewrite app_nil_r. reflexivity. Qed.

Lemma is_prefix_app_r {A} (a b c : list A) : is_prefix a b -> is_prefix a (b ++ c).
Proof. intros [r ->]. exists (r ++ c). rewrite app_assoc. reflexivity. Qed.

Lemma is_prefix_app_l {A} (a b c : list A) :
  is_prefix b c -> is_prefix (a ++ b) (a ++ c).
Proof. intros [r ->]. exists r. rewrite app_assoc. reflexivity. Qed.

Lemma is_prefix_In {A} (a b : list A) (x : A) :
  is_prefix a b -> In x a -> In x b.
Proof. intros [r ->] H. apply in_or_app. left. exact H. Qed.

Lemma added_of_trace {Store Rec} (w w' : World Store Rec)
  (es : list (Call * (exn + list Rec))) :
  trace w' = trace w ++ es -> added w w' = es.
Proof. unfold added. intros ->. apply drop_app_length. Qed.

Section Emits.

Context {Store Rec : Type}.

Lemma emits_ret {A} (a : A) : emits (@ret Store Rec A a) [].
Proof.
  intros w. exists []. simpl. rewrite app_nil_r.
  split; [reflexivity|]. split; [apply is_prefix_refl | reflexivity].
Qed.

Lemma emits_raise {A} (e : exn) : emits (@raise Store Rec A e) [].
Proof.
  intros w. exists []. simpl. rewrite app_nil_r.
  split; [reflexivity|]. split; [apply is_prefix_refl | reflexivity].
Qed.

Lemma emits_pret {A} (a : A) : emits (@pret Store Rec A a) [].
Proof.
  intros w. exists []. simpl. rewrite app_nil_r.
  split; [reflexivity|]. split; [apply is_prefix_refl | reflexivity].
Qed.

Lemma emits_bind {A B} (m : M Store Rec A) (k : A -> M Store Rec B)
  (cs1 cs2 : list Call) :
  emits m cs1 -> (forall a, emits (k a) cs2) -> emits (bind m k) (cs1 ++ cs2).
Proof.
  intros Hm Hk w. destruct (Hm w) as (es1 & Ht1 & Hp1 & Hr1).
  unfold bind. destruct (m w) as [[e|a] w1]; simpl in *.
  - exists es1. split; [exact Ht1|].
    split; [apply is_prefix_app_r, Hp1 | discriminate].
  - destruct (Hk a w1) as (es2 & Ht2 & Hp2 & Hr2).
    exists (es1 ++ es2). rewrite Ht2, Ht1, app_assoc, map_app, Hr1 by reflexivity.
    split; [reflexivity|]. split; [apply is_prefix_app_l, Hp2|].
    intros H. rewrite Hr2 by exact H. reflexivity.
Qed.

Lemma emits_pbind {A B} (m : P (Store:=Store) (Rec:=Rec) A)
  (k : A -> P (Store:=Store) (Rec:=Rec) B) (cs1 cs2 : list Call) :
  emits m cs1 -> (forall a, emits (k a) cs2) -> emits (pbind m k) (cs1 ++ cs2).
Proof.
  intros Hm Hk w. destruct (Hm w) as (es1 & Ht1 & Hp1 & Hr1).
  unfold pbind. destruct (m w) as [[e|a] w1]; simpl in *.
  - exists es1. split; [exact Ht1|].
    split; [apply is_prefix_app_r, Hp1 | discriminate].
  - destruct (Hk a w1) as (es2 & Ht2 & Hp2 & Hr2).
    exists (es1 ++ es2). rewrite Ht2, Ht1, app_assoc, map_app, Hr1 by reflexivity.
    split; [reflexivity|]. split; [apply is_prefix_app_l, Hp2|].
    intros H. rewrite Hr2 by exact H. reflexivity.
Qed.

Lemma emits_lift {A} (m : M Store Rec A) (cs : list Call) :
  emits m cs -> emits (lift m) cs.
Proof.
  intros Hm w. destruct (Hm w) as (es & Ht & Hp & Hr).
  unfold lift. destruct (m w) as [[e|a] w1]; simpl in *;
    exists es; split; auto; split; auto; discriminate.
Qed.

Variable drv : Driver Store Rec.

Lemma emits_session_run (c : Call) : emits (session_run drv c) [c].
Proof.
  intros w. unfold session_run. destruct (drv c (db w)) as [r s]. simpl.
  exists [(c, r)]. split; [reflexivity|].
  split; [apply is_prefix_refl | reflexivity].
Qed.

Lemma emits_load_from_json (export : Export) :
  emits (load_from_json drv export)
    (map node_call (default [] (nodes export)) ++
     map rel_call (default [] (relationships export))).
Proof.
  intros w. rewrite load_from_json_unfold. simpl.
  eexists. split; [reflexivity|].
  rewrite map_app, !replay_calls.
  split; [apply is_prefix_refl | reflexivity].
Qed.

Lemma emits_load_from_cypher_script (doc : Document) :
  emits (load_from_cypher_script drv doc)
    (map statement_call
       (statements (default EmptyString (doc_cypherScript doc)))).
Proof.
  intros w. unfold load_from_cypher_script.
  destruct (is_empty (default EmptyString (doc_cypherScript doc))) eqn:E.
  - destruct (default EmptyString (doc_cypherScript doc)); [|discriminate].
    exists []. simpl. rewrite app_nil_r.
    split; [reflexivity|]. split; [apply is_prefix_refl | reflexivity].
  - unfold bind. rewrite statement_loop by apply statements_nonempty.
    simpl. eexists. split; [reflexivity|]. rewrite replay_calls.
    split; [apply is_prefix_refl | reflexivity].
Qed.

Lemma emits_verify : emits (_verify_connection drv) [test_call].
Proof.
  intros w. unfold _verify_connection, session_run, test_call.
  destruct (drv _ (db w)) as [[e|rs] s]; simpl;
    eexists; (split; [reflexivity|]);
    (split; [apply is_prefix_refl | reflexivity]).
Qed.

Context {Val : Type}.
Variable getitem : Rec -> string -> option Val.
Variable read_json : string -> exn + Document.

Lemma emits_single_item (query key : string) :
  emits (single_item drv getitem query key) [mkCall query []].
Proof.
  unfold single_item.
  apply (emits_bind _ _ [mkCall query []] []); [apply emits_session_run|].
  intros result. destruct (head result) as [r|]; [|apply emits_raise].
  destruct (getitem r key); [apply emits_ret | apply emits_raise].
Qed.

Lemma emits_get_stats : emits (get_stats drv getitem) stats_calls.
Proof.
  unfold get_stats.
  apply (emits_bind _ _ [_] [_; _; _]); [apply emits_single_item|]. intros v1.
  apply (emits_bind _ _ [_] [_; _]); [apply emits_single_item|]. intros v2.
  apply (emits_bind _ _ [_] [_]); [apply emits_single_item|]. intros v3.
  apply (emits_bind _ _ [_] []); [apply emits_single_item|]. intros v4.
  apply emits_ret.
Qed.

Lemma emits_clear_database : emits (clear_database drv) [wipe_call].
Proof.
  unfold clear_database.
  apply (emits_bind _ _ [wipe_call] []); [apply emits_session_run|].
  intros _. apply emits_ret.
Qed.

Lemma emits_load_step (path : string) (script : bool) :
  emits (if script
         then lift (_ <- load_from_cypher_script_path drv read_json path ;; ret tt)%py
         else lift (_ <- load_from_json_path drv read_json path ;; ret tt)%py)
        (load_calls (read_json path) script).
Proof.
  unfold load_calls, load_from_cypher_script_path, load_from_json_path.
  destruct script; apply emits_lift;
    (rewrite <- (app_nil_r (match read_json path with inl _ => _ | inr _ => _ end));
     apply emits_bind; [|intros; apply emits_ret]);
    destruct (read_json path) as [e|doc];
    auto using emits_raise, emits_load_from_cypher_script, emits_load_from_json.
Qed.

Lemma emits_main (available : bool) (args : Args) (path : string) :
  goes_to_database available args path ->
  emits (main drv getitem read_json available args)
        (main_calls args (read_json path)).
Proof.
  intros (Hg & Hq & Hj & Hp & Ha). unfold main, main_calls.
  rewrite Hg, Hq, Hj, Ha.
  assert (He : is_empty path = false)
    by (destruct path; [congruence | reflexivity]).
  rewrite He. simpl negb. cbv iota.
  apply (emits_pbind _ _ [test_call]); [apply emits_verify|]. intros _.
  apply emits_pbind; [apply emits_lift, emits_get_stats|]. intros _.
  apply emits_pbind.
  { destruct (clear args); [apply emits_lift, emits_clear_database | apply emits_pret]. }
  intros _. apply emits_pbind; [apply emits_load_step|]. intros _.
  rewrite <- (app_nil_r stats_calls).
  apply emits_pbind; [apply emits_lift, emits_get_stats|]. intros _.
  apply emits_pret.
Qed.

End Emits.

Section Claims.

Context {Store Rec Val : Type}.
Variable drv : Driver Store Rec.
Variable getitem : Rec -> string -> option Val.
Variable read_json : string -> exn + Document.

Lemma pbind_inl {A B} (m : P (Store:=Store) (Rec:=Rec) A)
  (k : A -> P (Store:=Store) (Rec:=Rec) B) (w w' : World Store Rec)
  (e : signal) :
  m w = (inl e, w') -> pbind m k w = (inl e, w').
Proof. intros H. unfold pbind. rewrite H. reflexivity. Qed.

Lemma pbind_inr {A B} (m : P (Store:=Store) (Rec:=Rec) A)
  (k : A -> P (Store:=Store) (Rec:=Rec) B) (w w' : World Store Rec) (a : A) :
  m w = (inr a, w') -> pbind m k w = k a w'.
Proof. intros H. unfold pbind. rewrite H. reflexivity. Qed.

Lemma lift_inr {A} (m : M Store Rec A) (w w' : World Store Rec) (a : A) :
  m w = (inr a, w') -> lift m w = (inr a, w').
Proof. intros H. unfold lift. rewrite H. reflexivity. Qed.

Lemma get_stats_keys (w : World Store Rec) (stats : list (string * Val)) :
  fst (get_stats drv getitem w) = inr stats ->
  map fst stats = ["nodes"; "relationships"; "labels"; "relationship_types"].
Proof.
  unfold get_stats, bind.
  destruct (single_item drv getitem _ _ w) as [[e|v1] w1]; [discriminate|].
  destruct (single_item drv getitem _ _ w1) as [[e|v2] w2]; [discriminate|].
  destruct (single_item drv getitem _ _ w2) as [[e|v3] w3]; [discriminate|].
  destruct (single_item drv getitem _ _ w3) as [[e|v4] w4]; [discriminate|].
  simpl. intros H. injection H as <-. reflexivity.
Qed.

(** X11. [get_stats] makes its four reading queries in a fixed order and
    stops at the first that raises, delivers no record or lacks its
    column. With the outcomes the four queries have when made one after
    the other: the calls made are those up to and including the first
    whose value cannot be read, with their outcomes, and no call after it;
    that first failure is what [get_stats] raises, the exception of the
    call, a [TypeError] for no record, a [KeyError] for the column; and
    when all four values can be read, the result files them under nodes,
    relationships, labels and relationship_types. *)
Theorem get_stats_makes_four_reads (w : World Store Rec) :
  let outcomes := fst (replay drv stats_calls (db w)) in
  let value := fun ke : string * (Call * (exn + list Rec)) =>
                 read_value getitem (fst ke) (snd (snd ke)) in
  let reads := until_failure value (combine stats_columns outcomes) in
  added w (snd (get_stats drv getitem w)) = map snd (fst reads) /\
  fst (get_stats drv getitem w) =
    match snd reads with
    | inl e => inl e
    | inr values => inr (combine stats_names values)
    end.
Proof.
  unfold get_stats, single_item, bind, session_run, added, stats_calls.
  cbn [map replay].
  repeat
    (first
       [ match goal with
         | H : drv ?c ?s = _ |- context [drv ?c ?s] => rewrite H
         | H : getitem ?x ?k = _ |- context [getitem ?x ?k] => rewrite H
         end
       | match goal with
         | |- context [getitem ?x ?k] => destruct (getitem x k) eqn:?
         | |- context [drv ?c ?s] => destruct (drv c s) as [[?|[|? ?]] ?] eqn:?
         end ];
     cbn -[drop]);
    rewrite <- ?app_assoc, drop_app_length; split; reflexivity.
Qed.

(** With [--guide] or [--queries], without a file name, or without the
    driver installed, [main] returns without a single call to the
    database. *)
Lemma main_informational (available : bool) (args : Args)
  (w : World Store Rec) :
  guide args = true \/ queries args = true \/ json_file args = None \/
  json_file args = Some EmptyString \/ available = false ->
  main drv getitem read_json available args w = (inr tt, w).
Proof.
  intros H. unfold main.
  destruct (guide args); [reflexivity|].
  destruct (queries args); [reflexivity|].
  destruct (json_file args) as [[|c p]|]; try reflexivity.
  destruct available; [|reflexivity].
  destruct H as [H|[H|[H|[H|H]]]]; discriminate H.
Qed.

Lemma main_idle_or_active (available : bool) (args : Args)
  (w : World Store Rec) :
  (exists path, goes_to_database available args path) \/
  main drv getitem read_json available args w = (inr tt, w).
Proof.
  destruct (guide args) eqn:Eg; [right; apply main_informational; auto|].
  destruct (queries args) eqn:Eq; [right; apply main_informational; auto|].
  destruct (json_file args) as [path|] eqn:Ej;
    [|right; apply main_informational; auto].
  destruct path as [|c p];
    [right; apply main_informational; auto 6|].
  destruct available; [|right; apply main_informational; auto 6].
  left. exists (String c p). unfold goes_to_database. rewrite Eg, Eq, Ej.
  repeat split; auto; discriminate.
Qed.

(** X12. When the connection test fails, [main] ends the process with
    status 1 after that one call: no statistics are read, nothing is
    cleared, nothing is loaded. *)
Theorem main_exits_when_unreachable (available : bool) (args : Args)
  (path : string) (w : World Store Rec) (e : exn) :
  goes_to_database available args path ->
  fst (drv test_call (db w)) = inl e ->
  fst (main drv getitem read_json available args w) = inl (SystemExit 1) /\
  map fst (added w (snd (main drv getitem read_json available args w)))
    = [test_call].
Proof.
  intros (Hg & Hq & Hj & Hp & Ha) He. unfold main.
  rewrite Hg, Hq, Hj, Ha.
  assert (Hne : is_empty path = false)
    by (destruct path; [congruence | reflexivity]).
  rewrite Hne. simpl negb. cbv iota.
  cbn [negb].
  assert (Hv : _verify_connection drv w =
               (inl (SystemExit 1),
                mkWorld (snd (drv test_call (db w)))
                        (trace w ++ [(test_call, inl e)]))).
  { unfold _verify_connection, session_run. fold test_call.
    destruct (drv test_call (db w)) as [r s]. simpl in He. subst r.
    reflexivity. }
  rewrite (pbind_inl _ _ _ _ _ Hv). simpl. split; [reflexivity|].
  unfold added. simpl. rewrite drop_app_length. reflexivity.
Qed.

(** X13. A run of [main] that gets as far as the database makes, in this
    order: the connection test, the four statistics queries, the wipe
    when [--clear] is given, the queries of the loading mode chosen, and
    the four statistics queries again. It stops where a call outside the
    loaders' own [try] blocks fails, and makes all of them when it
    returns. *)
Theorem main_call_sequence (available : bool) (args : Args) (path : string)
  (w : World Store Rec) :
  goes_to_database available args path ->
  is_prefix
    (map fst (added w (snd (main drv getitem read_json available args w))))
    (main_calls args (read_json path)) /\
  (returned (fst (main drv getitem read_json available args w)) = true ->
   map fst (added w (snd (main drv getitem read_json available args w)))
     = main_calls args (read_json path)).
Proof.
  intros Hgo.
  destruct (emits_main drv getitem read_json available args path Hgo w)
    as (es & Ht & Hp & Hr).
  rewrite (added_of_trace _ _ _ Ht). auto.
Qed.

Lemma dict_set_nonempty {V} (k : string) (v : V) (d : list (string * V)) :
  dict_set k v d <> [].
Proof. destruct d as [|[k' v'] d]; simpl; [|destruct (String.eqb k' k)]; discriminate. Qed.

(** The texts of the structured mode begin as their templates do. *)
Lemma structured_texts (read : exn + Document) (c : Call) :
  In c (load_calls read false) ->
  startswith "CREATE (n:" (call_query c) = true \/
  startswith (nl +:+ indent +:+ "MATCH (a {_rulenet_id: $start_id})")
             (call_query c) = true.
Proof.
  unfold load_calls. destruct read as [e|doc]; [intros []|].
  intros H. apply in_app_or in H as [H|H];
    apply in_map_iff in H as (x & <- & _); [left | right]; reflexivity.
Qed.

(** X14. Without [--clear] and in the structured mode, no call of [main]
    has the wiping statement as its text, whatever the export holds: the
    text of every call is that of the connection test or of a statistics
    query, or it begins as the template of a node or of a relationship
    does. Labels, types and property names are spliced into the templates
    as they come, and what the database makes of such a text is not part
    of this statement. *)
Theorem structured_mode_never_wipes (available : bool) (args : Args)
  (w : World Store Rec) (c : Call) (r : exn + list Rec) :
  clear args = false ->
  use_script args = false ->
  In (c, r) (added w (snd (main drv getitem read_json available args w))) ->
  call_query c <> call_query wipe_call /\
  (c = test_call \/ In c stats_calls \/
   startswith "CREATE (n:" (call_query c) = true \/
   startswith (nl +:+ indent +:+ "MATCH (a {_rulenet_id: $start_id})")
              (call_query c) = true).
Proof.
  intros Hc Hs Hin.
  assert (Hshape : c = test_call \/ In c stats_calls \/
            startswith "CREATE (n:" (call_query c) = true \/
            startswith (nl +:+ indent +:+ "MATCH (a {_rulenet_id: $start_id})")
                       (call_query c) = true).
  { destruct (main_idle_or_active available args w) as [[path Hgo]|Hidle].
    - destruct (emits_main drv getitem read_json available args path Hgo w)
        as (es & Ht & Hp & _).
      rewrite (added_of_trace _ _ _ Ht) in Hin.
      apply (in_map fst) in Hin. simpl in Hin.
      apply (is_prefix_In _ _ _ Hp) in Hin.
      unfold main_calls in Hin. rewrite Hc, Hs in Hin. simpl in Hin.
      destruct Hin as [H|[H|[H|[H|[H|H]]]]];
        try (subst c; simpl; auto 7; fail).
      apply in_app_or in H as [H|H];
        [right; right; exact (structured_texts _ _ H) | right; left].
      simpl in H. simpl. tauto.
    - rewrite Hidle in Hin. unfold added in Hin. simpl in Hin.
      rewrite drop_all in Hin. destruct Hin. }
  split; [|exact Hshape].
  destruct Hshape as [->|[H|[H|H]]].
  - discriminate.
  - simpl in H. destruct H as [<-|[<-|[<-|[<-|[]]]]]; discriminate.
  - intros E. rewrite E in H. discriminate H.
  - intros E. rewrite E in H. discriminate H.
Qed.

Hypothesis answers : always_answers drv.
Hypothesis columns : forall r k, exists v, getitem r k = Some v.

Lemma verify_ok (w : World Store Rec) :
  exists w1, _verify_connection drv w = (inr tt, w1).
Proof.
  unfold _verify_connection, session_run.
  destruct (answers (mkCall "RETURN 1 as test" []) (db w)) as (r & rs & s & ->).
  eexists. reflexivity.
Qed.

Lemma single_item_ok (query key : string) (w : World Store Rec) :
  exists v w1, single_item drv getitem query key w = (inr v, w1).
Proof.
  unfold single_item, bind, session_run.
  destruct (answers (mkCall query []) (db w)) as (r & rs & s & ->). simpl.
  destruct (columns r key) as [v ->]. eexists. eexists. reflexivity.
Qed.

Lemma get_stats_ok (w : World Store Rec) :
  exists stats w1, get_stats drv getitem w = (inr stats, w1).
Proof.
  unfold get_stats, bind.
  destruct (single_item_ok "MATCH (n) RETURN count(n) as count" "count" w)
    as (v1 & w1 & ->).
  destruct (single_item_ok "MATCH ()-[r]->() RETURN count(r) as count" "count" w1)
    as (v2 & w2 & ->).
  destruct (single_item_ok
              "CALL db.labels() YIELD label RETURN collect(label) as labels"
              "labels" w2) as (v3 & w3 & ->).
  destruct (single_item_ok
              "CALL db.relationshipTypes() YIELD relationshipType RETURN collect(relationshipType) as types"
              "types" w3) as (v4 & w4 & ->).
  eexists. eexists. reflexivity.
Qed.

Lemma clear_ok (w : World Store Rec) :
  exists w1, clear_database drv w = (inr tt, w1).
Proof.
  unfold clear_database, bind, session_run.
  destruct (answers (mkCall "MATCH (n) DETACH DELETE n" []) (db w))
    as (r & rs & s & ->).
  eexists. reflexivity.
Qed.

(** X15. [--clear] takes effect before the export file is opened: with a
    database that answers, and a file that cannot be read, [main] fails
    with the exception of the reading, and by then the wipe has been
    sent. *)
Theorem wipe_precedes_reading (available : bool) (args : Args) (path : string)
  (w : World Store Rec) (e : exn) :
  goes_to_database available args path ->
  clear args = true ->
  read_json path = inl e ->
  fst (main drv getitem read_json available args w) = inl (Exc e) /\
  map fst (added w (snd (main drv getitem read_json available args w)))
    = test_call :: stats_calls ++ [wipe_call].
Proof.
  intros (Hg & Hq & Hj & Hp & Ha) Hc Hread. unfold main.
  rewrite Hg, Hq, Hj, Ha, Hc.
  assert (Hne : is_empty path = false)
    by (destruct path; [congruence | reflexivity]).
  rewrite Hne. simpl negb. cbv iota.
  destruct (emits_verify drv w) as (es1 & Ht1 & _ & Hr1).
  destruct (verify_ok w) as (w1 & Hv). rewrite Hv in Ht1, Hr1. simpl in *.
  destruct (emits_get_stats drv getitem w1) as (es2 & Ht2 & _ & Hr2).
  destruct (get_stats_ok w1) as (stats & w2 & Hs). rewrite Hs in Ht2, Hr2.
  simpl in *.
  destruct (emits_clear_database drv w2) as (es3 & Ht3 & _ & Hr3).
  destruct (clear_ok w2) as (w3 & Hw). rewrite Hw in Ht3, Hr3. simpl in *.
  cbn [negb].
  rewrite (pbind_inr _ _ _ _ _ Hv).
  rewrite (pbind_inr _ _ _ _ _ (lift_inr _ _ _ _ Hs)).
  rewrite (pbind_inr _ _ _ _ _ (lift_inr _ _ _ _ Hw)).
  unfold pbind, lift, bind.
  unfold load_from_cypher_script_path, load_from_json_path. rewrite Hread.
  destruct (use_script args); simpl; (split; [reflexivity|]);
    unfold added; rewrite Ht3, Ht2, Ht1, <- !app_assoc, drop_app_length,
      !map_app, Hr1, Hr2, Hr3 by reflexivity; reflexivity.
Qed.

End Claims.

(** Without the label catalogue the third read fails: three calls are
    made, the fourth is not, and the exception of the database comes out. *)
Example get_stats_stops_at_the_third_read :
  fst (get_stats no_labels any_column (fresh tt))
    = inl (DriverError "no such procedure") /\
  map fst (added (fresh tt) (snd (get_stats no_labels any_column (fresh tt))))
    = take 3 stats_calls.
Proof.
  destruct (get_stats_makes_four_reads no_labels any_column (fresh tt))
    as [Ha Hr].
  rewrite Ha, Hr. split; reflexivity.
Qed.

Lemma goes_with_file (args : Args) :
  guide args = false -> queries args = false ->
  json_file args = Some "graph.json" ->
  goes_to_database true args "graph.json".
Proof. intros Hg Hq Hj. repeat split; auto; discriminate. Qed.

Lemma main_exits_when_unreachable_witness :
  goes_to_database true args_plain "graph.json" /\
  fst (main unreachable any_column not_json true args_plain (fresh tt))
    = inl (SystemExit 1) /\
  map fst (added (fresh tt)
             (snd (main unreachable any_column not_json true args_plain
                     (fresh tt))))
    = [test_call].
Proof.
  pose proof (goes_with_file args_plain eq_refl eq_refl eq_refl) as Hgo.
  split; [exact Hgo|].
  exact (main_exits_when_unreachable unreachable any_column not_json true
           args_plain "graph.json" (fresh tt) (DriverError "unreachable")
           Hgo eq_refl).
Defined.

Lemma main_call_sequence_witness :
  goes_to_database true args_clear "graph.json" /\
  map fst (added (fresh tt)
             (snd (main chatty any_column alice_file true args_clear
                     (fresh tt))))
    = test_call :: stats_calls ++ [wipe_call] ++
      [LoadNeo4j.node_call
         (mkNode (Some (JInt 1)) (Some ["Person"])
                 (Some [("label", JStr "Alice")]))] ++
      stats_calls.
Proof.
  pose proof (goes_with_file args_clear eq_refl eq_refl eq_refl) as Hgo.
  split; [exact Hgo|].
  exact (proj2 (main_call_sequence chatty any_column alice_file true
                  args_clear "graph.json" (fresh tt) Hgo) eq_refl).
Defined.

Lemma structured_mode_never_wipes_witness :
  clear args_plain = false /\
  use_script args_plain = false /\
  In (node_call (mkNode (Some (JInt 1)) (Some ["Person"])
                        (Some [("label", JStr "Alice")])), inr [tt])
     (added (fresh tt)
        (snd (main chatty any_column alice_file true args_plain (fresh tt)))) /\
  "CREATE (n:Person {label: $label, _rulenet_id: $_rulenet_id})"
    <> call_query wipe_call.
Proof.
  split; [reflexivity|]. split; [reflexivity|].
  assert (Hin : In (node_call (mkNode (Some (JInt 1)) (Some ["Person"])
                                      (Some [("label", JStr "Alice")])), inr [tt])
                  (added (fresh tt)
                     (snd (main chatty any_column alice_file true args_plain
                             (fresh tt))))).
  { vm_compute. auto 10. }
  split; [exact Hin|].
  exact (proj1 (structured_mode_never_wipes chatty any_column alice_file true
                  args_plain (fresh tt) _ _ eq_refl eq_refl Hin)).
Defined.

Lemma chatty_answers : always_answers chatty.
Proof. intros c s. exists tt, [], s. reflexivity. Defined.

Lemma any_column_total : forall r k, exists v, any_column r k = Some v.
Proof. intros r k. exists tt. reflexivity. Defined.

Lemma wipe_precedes_reading_witness :
  goes_to_database true args_clear "graph.json" /\
  clear args_clear = true /\
  not_json "graph.json" = inl ValueError /\
  always_answers chatty /\
  fst (main chatty any_column not_json true args_clear (fresh tt))
    = inl (Exc ValueError) /\
  map fst (added (fresh tt)
             (snd (main chatty any_column not_json true args_clear
                     (fresh tt))))
    = test_call :: stats_calls ++ [wipe_call].
Proof.
  pose proof (goes_with_file args_clear eq_refl eq_refl eq_refl) as Hgo.
  split; [exact Hgo|]. split; [reflexivity|]. split; [reflexivity|].
  split; [exact chatty_answers|].
  exact (wipe_precedes_reading chatty any_column not_json chatty_answers
           any_column_total true args_clear "graph.json" (fresh tt)
           ValueError Hgo eq_refl eq_refl).
Defined.

End CliFacts.

(* ===================================================================== *)
(** ** The schema tool *)
(* ===================================================================== *)

Module SchemaFacts.
Import PyStr Py LoadNeo4j McpServer McpSchema Vocabulary MoreVocabulary.
Import WriterFacts CliFacts.

Lemma dict_set_length {V} (k : string) (v : V) (d : list (string * V)) :
  length (dict_set k v d) <= S (length d).
Proof.
  induction d as [|[k' v'] d IH]; simpl; [lia|].
  destruct (String.eqb k' k); simpl; lia.
Qed.

Lemma dict_set_values {V} (Q : V -> Prop) (k : string) (v : V)
  (d : list (string * V)) :
  Q v -> Forall (fun kv => Q (snd kv)) d ->
  Forall (fun kv => Q (snd kv)) (dict_set k v d).
Proof.
  intros Hv. induction 1 as [|[k' v'] d Hk Hd IH]; simpl.
  - constructor; [exact Hv | constructor].
  - destruct (String.eqb k' k); constructor; auto.
Qed.

Section Schema.

Context {Store Rec : Type}.
Variable drv : Driver Store Rec.
Variable getitem : Rec -> string -> option string.
Variable dumps : Json -> string.

Lemma bind_inl {A B} (m : M Store Rec A) (k : A -> M Store Rec B)
  (w w' : World Store Rec) (e : exn) :
  m w = (inl e, w') -> bind m k w = (inl e, w').
Proof. intros H. unfold bind. rewrite H. reflexivity. Qed.

Lemma bind_inr {A B} (m : M Store Rec A) (k : A -> M Store Rec B)
  (w w' : World Store Rec) (a : A) :
  m w = (inr a, w') -> bind m k w = k a w'.
Proof. intros H. unfold bind. rewrite H. reflexivity. Qed.

(** Reading a column makes no call; it gives one name for each record. *)
Lemma column_pure (key : string) (recs : list Rec) (w : World Store Rec) :
  snd (column (Store:=Store) getitem key recs w) = w /\
  (forall vs, fst (column (Store:=Store) getitem key recs w) = inr vs ->
              length vs = length recs).
Proof.
  induction recs as [|r recs [IHw IHl]]; simpl.
  - split; [reflexivity|]. intros vs H. injection H as <-. reflexivity.
  - destruct (getitem r key) as [v|]; simpl; [|split; [reflexivity|discriminate]].
    unfold bind. destruct (column (Store:=Store) getitem key recs w) as [[e|vs] w1]; simpl in *.
    + split; [exact IHw | discriminate].
    + split; [exact IHw|]. intros vs' H. injection H as <-. simpl.
      rewrite (IHl vs eq_refl). reflexivity.
Qed.

Lemma emits_column (key : string) (recs : list Rec) :
  emits (column (Store:=Store) getitem key recs) [].
Proof.
  intros w. exists []. rewrite app_nil_r.
  rewrite (proj1 (column_pure key recs w)).
  split; [reflexivity|]. split; [apply is_prefix_refl | reflexivity].
Qed.

Lemma emits_run (cypher : string) : emits (_run drv cypher) [mkCall cypher []].
Proof. apply emits_session_run. Qed.

Lemma emits_sample_label (lab : string) (lp : list (string * list string)) :
  emits (sample_label drv getitem lab lp) [mkCall (sample_keys_query lab) []].
Proof.
  unfold sample_label.
  apply (emits_bind _ _ [_] []); [apply emits_run|]. intros recs.
  apply (emits_bind _ _ [] []); [apply emits_column|]. intros ks.
  apply emits_ret.
Qed.

Lemma emits_for_each {A S} (body : A -> S -> M Store Rec S) (f : A -> Call)
  (l : list A) (s : S) :
  (forall a s', emits (body a s') [f a]) ->
  emits (for_each body l s) (map f l).
Proof.
  intros Hb. revert s; induction l as [|a l IH]; intros s; simpl.
  - apply emits_ret.
  - apply (emits_bind _ _ [f a]); [apply Hb | exact IH].
Qed.

Lemma emits_bind_nil {A B} (m : M Store Rec A) (k : A -> M Store Rec B)
  (cs : list Call) :
  emits m cs -> (forall a, emits (k a) []) -> emits (bind m k) cs.
Proof.
  intros Hm Hk. rewrite <- (app_nil_r cs). apply emits_bind; assumption.
Qed.

(** The part of [graph_schema] after the names of the labels are known. *)
Lemma emits_after_labels (labels : list string) (k : list string -> list string ->
    list (string * list string) -> Json) :
  emits
    (recs <- _run drv rels_query ;;
     rels <- column (Store:=Store) getitem "relationshipType" recs ;;
     recs <- _run drv props_query ;;
     props <- column (Store:=Store) getitem "propertyKey" recs ;;
     label_props <- for_each (sample_label drv getitem) (take 30 labels) [] ;;
     ret (k rels props label_props))%py
    (map (fun q => mkCall q [])
       ([rels_query; props_query] ++ map sample_keys_query (take 30 labels))).
Proof.
  rewrite map_app, map_map.
  set (F := fun lab => mkCall (sample_keys_query lab) []).
  apply (emits_bind _ _ [mkCall rels_query []]
           (mkCall props_query [] :: map F (take 30 labels)));
    [apply emits_run|]. intros recs1.
  apply (emits_bind _ _ [] (mkCall props_query [] :: map F (take 30 labels)));
    [apply emits_column|]. intros rels.
  apply (emits_bind _ _ [mkCall props_query []] (map F (take 30 labels)));
    [apply emits_run|]. intros recs2.
  apply (emits_bind _ _ [] (map F (take 30 labels)));
    [apply emits_column|]. intros props.
  apply emits_bind_nil; [|intros; apply emits_ret].
  apply (emits_for_each _ F). intros a s'. apply emits_sample_label.
Qed.

Lemma graph_schema_calls (w : World Store Rec) :
  exists labels es,
    trace (snd (graph_schema drv getitem w)) = trace w ++ es /\
    is_prefix (map fst es) (schema_calls labels) /\
    (returned (fst (graph_schema drv getitem w)) = true ->
     map fst es = schema_calls labels).
Proof.
  unfold graph_schema.
  destruct (emits_run labels_query w) as (es1 & Ht1 & Hp1 & Hr1).
  destruct (_run drv labels_query w) as [[e|recs] w1] eqn:E0; simpl in *.
  - exists [], es1. rewrite (bind_inl _ _ _ _ _ E0). simpl.
    split; [exact Ht1|]. split; [|discriminate].
    unfold schema_calls. simpl. apply (is_prefix_app_r _ [_]), Hp1.
  - rewrite (bind_inr _ _ _ _ _ E0).
    destruct (column_pure "label" recs w1) as [Hw _].
    destruct (column (Store:=Store) getitem "label" recs w1) as [[e|labels] w1'] eqn:E1;
      simpl in Hw; subst w1'.
    + exists [], es1. rewrite (bind_inl _ _ _ _ _ E1). simpl.
      split; [exact Ht1|]. split; [|discriminate].
      unfold schema_calls. simpl. apply (is_prefix_app_r _ [_]), Hp1.
    + rewrite (bind_inr _ _ _ _ _ E1).
      destruct (emits_after_labels labels
                  (fun rels props label_props =>
                     JDict [("labels", strings labels);
                            ("relationshipTypes", strings rels);
                            ("propertyKeys", strings props);
                            ("labelProperties",
                             JDict (map (fun kv => (fst kv, strings (snd kv)))
                                        label_props));
                            ("namePropertyRule", JAtom (JStr name_rule))])
                  w1) as (es2 & Ht2 & Hp2 & Hr2).
      exists labels, (es1 ++ es2).
      rewrite Ht2, Ht1, app_assoc, map_app, (Hr1 eq_refl).
      split; [reflexivity|]. unfold schema_calls.
      split; [apply (is_prefix_app_l [_]), Hp2|].
      intros H. rewrite (Hr2 H). reflexivity.
Qed.

(** Reading a column as the tool does it is reading it by itself. *)
Lemma column_names (key : string) (recs : list Rec) (w : World Store Rec) :
  column (Store:=Store) getitem key recs w = (names getitem key recs, w).
Proof.
  induction recs as [|r recs IH]; simpl; [reflexivity|].
  destruct (getitem r key) as [v|]; [|reflexivity].
  unfold bind. rewrite IH. destruct (names getitem key recs); reflexivity.
Qed.

Lemma replay_cons (c : Call) (cs : list Call) (s : Store) :
  fst (replay drv (c :: cs) s) =
  (c, fst (drv c s)) :: fst (replay drv cs (snd (drv c s))).
Proof.
  simpl. destruct (drv c s) as [r s1]. simpl.
  destruct (replay drv cs s1). reflexivity.
Qed.

Lemma until_failure_all {A E V} (value : A -> E + V) (l : list A) (vs : list V) :
  snd (until_failure value l) = inr vs ->
  fst (until_failure value l) = l /\ length vs = length l.
Proof.
  revert vs; induction l as [|a l IH]; intros vs; simpl.
  - intros H. injection H as <-. auto.
  - destruct (value a) as [e|v]; [discriminate|].
    destruct (until_failure value l) as [done [e|vs0]]; simpl in *;
      [discriminate|].
    intros H. injection H as <-. destruct (IH vs0 eq_refl) as [-> Hl].
    simpl. auto.
Qed.

Lemma until_failure_prefix {A E V} (value : A -> E + V) (l : list A) :
  is_prefix (fst (until_failure value l)) l.
Proof.
  induction l as [|a l [rest IH]]; simpl.
  - exists []. reflexivity.
  - destruct (value a) as [e|v]; [exists l; reflexivity|].
    destruct (until_failure value l) as [done out]. simpl in *.
    exists rest. rewrite IH at 1. reflexivity.
Qed.

(** The sampling loop, against the outcomes its queries have when made one
    after the other. *)
Lemma sample_loop_reads (l : list string) (lp0 : list (string * list string))
  (w : World Store Rec) :
  let reads :=
    until_failure (schema_value getitem)
      (combine (map (fun _ => ("k", Some 20)) l)
               (fst (replay drv (map sample_call l) (db w)))) in
  exists s',
    for_each (sample_label drv getitem) l lp0 w =
      (match snd reads with
       | inl e => inl e
       | inr kss =>
           inr (fold_left (fun lp lk => dict_set (fst lk) (snd lk) lp)
                          (combine l kss) lp0)
       end,
       {| db := s'; trace := trace w ++ map snd (fst reads) |}).
Proof.
  cbv zeta. unfold sample_call, schema_value.
  revert lp0 w; induction l as [|a l IH]; intros lp0 w.
  - exists (db w). simpl. rewrite app_nil_r. destruct w; reflexivity.
  - cbn [map]. rewrite replay_cons. cbn [combine until_failure].
    cbn [for_each]. unfold bind at 1. unfold sample_label at 1.
    unfold bind at 1 2. unfold _run, session_run.
    destruct (drv (mkCall (sample_keys_query a) []) (db w)) as [[e|recs] s1];
      cbn [fst snd].
    + exists s1. reflexivity.
    + rewrite column_names. cbn [read_names fst snd].
      destruct (names getitem "k" (take 20 recs)) as [e|ks];
        [exists s1; reflexivity|].
      cbn [ret].
      destruct (IH (dict_set a ks lp0)
                  {| db := s1;
                     trace := trace w ++
                              [(mkCall (sample_keys_query a) [], inr recs)] |})
        as [s' IHe].
      cbn [db trace] in IHe. rewrite IHe. exists s'.
      destruct (until_failure _ _) as [done [e|kss]]; cbn [fst snd map];
        rewrite <- app_assoc; reflexivity.
Qed.

(** The whole tool, against the outcomes its queries have when made one
    after the other. *)
Lemma schema_reads (w : World Store Rec) :
  let labels :=
    match read_names getitem "label" None
            (fst (drv (mkCall labels_query []) (db w))) with
    | inr ls => ls
    | inl _ => []
    end in
  let reads :=
    until_failure (schema_value getitem)
      (combine (schema_columns labels)
               (fst (replay drv (schema_calls labels) (db w)))) in
  exists s',
    get_graph_schema drv getitem dumps w =
      (match snd reads with
       | inl e => inl e
       | inr (ls :: rels :: props :: kss) =>
           inr (dumps (schema_out ls rels props
                         (label_props_of (take 30 labels) kss)))
       | inr _ => inl TypeError
       end,
       {| db := s'; trace := trace w ++ map snd (fst reads) |}).
Proof.
  cbv zeta. unfold schema_calls, schema_columns, schema_value.
  unfold get_graph_schema, graph_schema.
  unfold bind at 1 2. unfold _run at 1. unfold session_run at 1.
  destruct (drv (mkCall labels_query []) (db w)) as [[e|recs0] s0] eqn:D0;
    cbn [fst snd read_names].
  { cbn [app map take]. rewrite !replay_cons, D0.
    cbn [combine until_failure fst snd read_names map].
    exists s0. reflexivity. }
  unfold bind at 1. rewrite column_names.
  destruct (names getitem "label" recs0) as [e|labels] eqn:N0.
  { cbn [app map take]. rewrite !replay_cons, D0.
    cbn [combine until_failure fst snd read_names map]. rewrite N0.
    exists s0. reflexivity. }
  cbn [app map]. rewrite !replay_cons, D0.
  cbn [combine until_failure fst snd read_names]. rewrite N0.
  unfold bind at 1. unfold _run at 1. unfold session_run at 1. cbn [db trace].
  destruct (drv (mkCall rels_query []) s0) as [[e|recs1] s1];
    cbn [fst snd read_names];
    [exists s1; simpl; rewrite <- app_assoc; reflexivity|].
  unfold bind at 1. rewrite column_names.
  destruct (names getitem "relationshipType" recs1) as [e|rels];
    [exists s1; simpl; rewrite <- app_assoc; reflexivity|].
  unfold bind at 1. unfold _run at 1. unfold session_run at 1. cbn [db trace].
  destruct (drv (mkCall props_query []) s1) as [[e|recs2] s2];
    cbn [fst snd read_names];
    [exists s2; simpl; rewrite <- !app_assoc; reflexivity|].
  unfold bind at 1. rewrite column_names.
  destruct (names getitem "propertyKey" recs2) as [e|props];
    [exists s2; simpl; rewrite <- !app_assoc; reflexivity|].
  unfold bind at 1.
  destruct (sample_loop_reads (take 30 labels) []
                {| db := s2;
                   trace := ((trace w ++ [(mkCall labels_query [], inr recs0)]) ++
                             [(mkCall rels_query [], inr recs1)]) ++
                            [(mkCall props_query [], inr recs2)] |})
    as [s' Hloop].
  unfold sample_call, schema_value in Hloop.
  cbn [db trace] in Hloop. rewrite Hloop. clear Hloop.
  rewrite !map_map. exists s'.
  destruct (until_failure _ _) as [done [e'|kss]]; cbn [fst snd map ret];
    rewrite <- !app_assoc; reflexivity.
Qed.

(** X16. The schema tool makes at most thirty-three calls, whatever the
    database holds. With [labels] the names it reads from the outcome of
    the labels query, none where they cannot be read, and with the
    outcomes its list of queries has when made one after the other (the
    three catalogue queries, then a sampling query for each of the first
    thirty of those labels): the calls made are those up to and including
    the first whose column cannot be read, because the call raised or a
    record lacks the column, and no call after it; that failure is what
    the tool raises; and when the tool returns, the whole list was made. *)
Theorem schema_reads_are_bounded (w : World Store Rec) :
  let labels :=
    match read_names getitem "label" None
            (fst (drv (mkCall labels_query []) (db w))) with
    | inr ls => ls
    | inl _ => []
    end in
  let reads :=
    until_failure (schema_value getitem)
      (combine (schema_columns labels)
               (fst (replay drv (schema_calls labels) (db w)))) in
  added w (snd (get_graph_schema drv getitem dumps w)) = map snd (fst reads) /\
  (forall e, snd reads = inl e ->
             fst (get_graph_schema drv getitem dumps w) = inl e) /\
  (returned (fst (get_graph_schema drv getitem dumps w)) = true ->
   map fst (added w (snd (get_graph_schema drv getitem dumps w)))
     = schema_calls labels) /\
  length (added w (snd (get_graph_schema drv getitem dumps w))) <= 33.
Proof.
  intros labels reads. destruct (schema_reads w) as [s' He].
  fold labels in He. fold reads in He.
  assert (Hr := f_equal fst He). assert (Ht := f_equal (fun p => trace (snd p)) He).
  cbn [fst snd trace] in Hr, Ht. clear He.
  assert (Hlen : length (schema_columns labels) = length (schema_calls labels)).
  { unfold schema_columns, schema_calls.
    rewrite length_map, !length_app, !length_map. reflexivity. }
  assert (Hcomb : map snd (combine (schema_columns labels)
                     (fst (replay drv (schema_calls labels) (db w))))
                  = fst (replay drv (schema_calls labels) (db w))).
  { generalize (replay_length drv (schema_calls labels) (db w)).
    rewrite <- Hlen.
    generalize (fst (replay drv (schema_calls labels) (db w))).
    generalize (schema_columns labels).
    induction l as [|x l IH]; intros [|y l'] Hl; simpl in *;
      try discriminate; auto.
    rewrite IH by congruence. reflexivity. }
  rewrite (added_of_trace _ _ _ Ht).
  split; [reflexivity|]. split; [|split].
  - intros e He. rewrite Hr, He. reflexivity.
  - intros Hret. rewrite Hr in Hret.
    destruct (snd reads) as [e|vs] eqn:Ev; [discriminate|].
    destruct (until_failure_all _ _ _ Ev) as [Hall _].
    fold reads in Hall. rewrite Hall, Hcomb. apply replay_calls.
  - destruct (until_failure_prefix (schema_value getitem)
                (combine (schema_columns labels)
                   (fst (replay drv (schema_calls labels) (db w)))))
      as [rest Hrest].
    fold reads in Hrest.
    apply (f_equal (@length _)) in Hrest.
    rewrite length_combine, length_app, replay_length, Hlen, Nat.min_id in Hrest.
    rewrite length_map.
    unfold schema_calls in Hrest.
    rewrite length_map, length_app, length_map, length_take in Hrest.
    change (length [labels_query; rels_query; props_query]) with 3 in Hrest.
    pose proof (Nat.le_min_l 30 (length labels)). lia.
Qed.

(** What the sampling loop leaves in [label_props]. *)
Lemma sample_loop_bounds (l : list string) (lp0 lp : list (string * list string))
  (w w' : World Store Rec) :
  for_each (sample_label drv getitem) l lp0 w = (inr lp, w') ->
  length lp <= length lp0 + length l /\
  (Forall (fun kv => length (snd kv) <= 20) lp0 ->
   Forall (fun kv => length (snd kv) <= 20) lp) /\
  (forall lab, In lab (keys lp) <-> In lab (keys lp0) \/ In lab l).
Proof.
  revert lp0 w; induction l as [|a l IH]; intros lp0 w; simpl.
  - intros H. injection H as <- <-. split; [lia|]. split; [auto|].
    intros lab. tauto.
  - unfold bind at 1.
    destruct (sample_label drv getitem a lp0 w) as [[e|lp1] w1] eqn:E;
      [discriminate|].
    intros H. destruct (IH _ _ H) as (Hl & Hv & Hk).
    unfold sample_label, bind in E.
    destruct (_run drv (sample_keys_query a) w) as [[e|recs] w2];
      [discriminate|].
    destruct (column_pure "k" (take 20 recs) w2) as [_ Hcl].
    destruct (column (Store:=Store) getitem "k" (take 20 recs) w2) as [[e|ks] w3];
      [discriminate|].
    simpl in E. injection E as <- <-.
    specialize (Hcl ks eq_refl). rewrite length_take in Hcl.
    pose proof (dict_set_length a ks lp0).
    split; [lia|]. split.
    + intros Hall. apply Hv.
      apply (dict_set_values (fun v => length v <= 20)); [lia | exact Hall].
    + intros lab. rewrite Hk, keys_dict_set. simpl.
      split; intros Hor; intuition (subst; auto).
Qed.

(** The history the sampling loop leaves when it goes through: one call
    for each label, in order, each with the records its keys were read
    from. *)
Lemma sample_loop_history (l : list string) (lp0 lp : list (string * list string))
  (w w' : World Store Rec) :
  for_each (sample_label drv getitem) l lp0 w = (inr lp, w') ->
  exists samples kss,
    trace w' = trace w ++ samples /\
    map fst samples = map sample_call l /\
    Forall2 (fun e ks => exists recs,
                 snd e = inr recs /\
                 names getitem "k" (take 20 recs) = inr ks) samples kss /\
    lp = fold_left (fun lp lk => dict_set (fst lk) (snd lk) lp)
                   (combine l kss) lp0.
Proof.
  revert lp0 w; induction l as [|a l IH]; intros lp0 w; simpl.
  - intros H. injection H as <- <-. exists [], []. rewrite app_nil_r.
    repeat split; auto.
  - unfold bind at 1. unfold sample_label at 1. unfold bind at 1 2.
    unfold _run, session_run.
    destruct (drv (mkCall (sample_keys_query a) []) (db w)) as [[e|recs] s1];
      [discriminate|].
    rewrite column_names.
    destruct (names getitem "k" (take 20 recs)) as [e|ks] eqn:En;
      [discriminate|].
    cbn [ret]. intros H.
    destruct (IH _ _ H) as (samples & kss & Ht & Hc & Hf & Hlp).
    exists ((sample_call a, inr recs) :: samples), (ks :: kss).
    cbn [trace] in Ht. rewrite Ht, <- app_assoc.
    split; [reflexivity|]. split; [simpl; rewrite Hc; reflexivity|].
    split; [|exact Hlp].
    constructor; [|exact Hf]. exists recs. auto.
Qed.

(** X17. When the schema tool returns, its answer is the JSON text of a
    dictionary made of what the database reported and of nothing else.
    The history holds the three catalogue queries and then one sampling
    query for each of the first thirty labels, all answered; the answer
    lists the labels, relationship types and property keys read from the
    records of the three catalogue queries, in the order reported, and
    under [labelProperties] the keys read from the first twenty records
    of each sampling query. So it names at most thirty labels there,
    exactly those among the first thirty reported, each with at most
    twenty keys. *)
Theorem schema_summary_is_bounded (w : World Store Rec) (answer : string) :
  fst (get_graph_schema drv getitem dumps w) = inr answer ->
  exists recs0 recs1 recs2 samples labels rels props kss,
    added w (snd (get_graph_schema drv getitem dumps w)) =
      (mkCall labels_query [], inr recs0) ::
      (mkCall rels_query [], inr recs1) ::
      (mkCall props_query [], inr recs2) :: samples /\
    names getitem "label" recs0 = inr labels /\
    names getitem "relationshipType" recs1 = inr rels /\
    names getitem "propertyKey" recs2 = inr props /\
    map fst samples = map sample_call (take 30 labels) /\
    Forall2 (fun e ks => exists recs,
                 snd e = inr recs /\
                 names getitem "k" (take 20 recs) = inr ks) samples kss /\
    answer = dumps (schema_out labels rels props
                      (label_props_of (take 30 labels) kss)) /\
    length (label_props_of (take 30 labels) kss) <= 30 /\
    Forall (fun kv => length (snd kv) <= 20)
           (label_props_of (take 30 labels) kss) /\
    (forall lab, In lab (keys (label_props_of (take 30 labels) kss)) <->
                 In lab (take 30 labels)).
Proof.
  intros Hret.
  destruct (get_graph_schema drv getitem dumps w) as [r wf] eqn:G.
  cbn [fst snd] in *. subst r.
  unfold get_graph_schema, graph_schema in G.
  unfold bind at 1 2 in G. unfold _run at 1 in G. unfold session_run at 1 in G.
  destruct (drv (mkCall labels_query []) (db w)) as [[e|recs0] s0];
    [discriminate|].
  unfold bind at 1 in G. rewrite column_names in G.
  destruct (names getitem "label" recs0) as [e|labels] eqn:E0; [discriminate|].
  unfold bind at 1 in G. unfold _run at 1 in G. unfold session_run at 1 in G.
  cbn [db trace] in G.
  destruct (drv (mkCall rels_query []) s0) as [[e|recs1] s1]; [discriminate|].
  unfold bind at 1 in G. rewrite column_names in G.
  destruct (names getitem "relationshipType" recs1) as [e|rels] eqn:E1;
    [discriminate|].
  unfold bind at 1 in G. unfold _run at 1 in G. unfold session_run at 1 in G.
  cbn [db trace] in G.
  destruct (drv (mkCall props_query []) s1) as [[e|recs2] s2]; [discriminate|].
  unfold bind at 1 in G. rewrite column_names in G.
  destruct (names getitem "propertyKey" recs2) as [e|props] eqn:E2;
    [discriminate|].
  unfold bind at 1 in G.
  destruct (for_each (sample_label drv getitem) (take 30 labels) [] _)
    as [[e|lp] w'] eqn:E; [discriminate|].
  cbn [ret] in G. injection G as <- <-.
  destruct (sample_loop_bounds _ _ _ _ _ E) as (Hl & Hv & Hk).
  destruct (sample_loop_history _ _ _ _ _ E) as (samples & kss & Ht & Hc & Hf & Hlp).
  cbn [trace] in Ht.
  exists recs0, recs1, recs2, samples, labels, rels, props, kss.
  unfold label_props_of. rewrite <- Hlp.
  split.
  { unfold added. rewrite Ht, <- !app_assoc, drop_app_length. reflexivity. }
  do 6 (split; [auto; fail|]).
  assert (Hb : length (take 30 labels) <= 30)
    by (rewrite length_take; apply Nat.le_min_l).
  cbn [length Nat.add] in Hl.
  split; [lia|]. split; [apply Hv; constructor|].
  intros lab. rewrite Hk. simpl. tauto.
Qed.

End Schema.

(** A database with two labels: five calls, and the rendered answer. *)
Example small_catalogue_schema :
  map fst (added (fresh tt)
             (snd (get_graph_schema small_catalogue name_of render (fresh tt))))
    = schema_calls ["A"; "B"] /\
  fst (get_graph_schema small_catalogue name_of render (fresh tt))
    = inr (render (schema_out ["A"; "B"] ["KNOWS"] ["name"; "age"]
                     [("A", ["name"]); ("B", ["name"])])).
Proof. split; reflexivity. Qed.

Lemma schema_summary_is_bounded_witness :
  fst (get_graph_schema small_catalogue name_of render (fresh tt))
    = inr (render (schema_out ["A"; "B"] ["KNOWS"] ["name"; "age"]
                     [("A", ["name"]); ("B", ["name"])])) /\
  exists labels rels props kss,
    names name_of "label" ["A"; "B"] = inr labels /\
    names name_of "relationshipType" ["KNOWS"] = inr rels /\
    names name_of "propertyKey" ["name"; "age"] = inr props /\
    render (schema_out ["A"; "B"] ["KNOWS"] ["name"; "age"]
              [("A", ["name"]); ("B", ["name"])])
      = render (schema_out labels rels props
                  (label_props_of (take 30 labels) kss)) /\
    length (label_props_of (take 30 labels) kss) <= 30.
Proof.
  assert (H : fst (get_graph_schema small_catalogue name_of render (fresh tt))
              = inr (render (schema_out ["A"; "B"] ["KNOWS"] ["name"; "age"]
                               [("A", ["name"]); ("B", ["name"])])))
    by reflexivity.
  split; [exact H|].
  destruct (schema_summary_is_bounded small_catalogue name_of render (fresh tt)
              _ H)
    as (recs0 & recs1 & recs2 & samples & labels & rels & props & kss &
        Ha & H0 & H1 & H2 & Hc & Hf & Hans & Hl & Hv & Hk).
  vm_compute in Ha. injection Ha as <- <- <- _.
  exists labels, rels, props, kss. auto.
Defined.

End SchemaFacts.

(* ===================================================================== *)
(** ** More about the heterogeneous assembler *)
(* ===================================================================== *)

Module AssemblerMore.
Import PyStr Py LoadPyg Vocabulary MoreVocabulary Samples PyStrFacts.
Import AssemblerFacts.

Section Assembler.

Context {Num F32 : Type}.
Variable to_float : Num -> F32.
Variable export : PygExport Num.

Abbreviation Data := (@HeteroData F32).

(** One turn of the node loop, when it returns. *)
Lemma node_step (k : string) (rows : list (list Num)) (data data' : Data) :
  load_node_type to_float export (k, rows) data = inr data' ->
  rectangular rows = true /\
  edge_stores data' = edge_stores data /\
  (forall k', k' <> k -> node_stores data' !! k' = node_stores data !! k') /\
  exists st,
    node_stores data' !! k = Some st /\
    ns_x st = Some (mkTensor (map (map to_float) rows)) /\
    ns_labels st = match listed_labels export k with
                   | Some l => Some l
                   | None => ns_labels (node_store k data)
                   end.
Proof.
  unfold load_node_type, tensor_float, listed_labels.
  destruct (rectangular rows); simpl; [|discriminate].
  destruct (nodeLabels export) as [labels|];
    [destruct (LoadNeo4j.dict_get k labels) as [l|]|];
    intros H; injection H as <-; simpl;
    (split; [reflexivity|]); (split; [reflexivity|]); split;
    try (intros k' Hk; rewrite ?lookup_insert_ne by congruence; reflexivity);
    eexists; rewrite lookup_insert_eq; (split; [reflexivity|]);
    unfold node_store; simpl; rewrite ?lookup_insert_eq; simpl; auto.
Qed.

Lemma node_step_accepts (item : string * list (list Num)) (data : Data) :
  accepted (load_node_type to_float export item data) = rectangular (snd item).
Proof.
  destruct item as [k rows]. unfold load_node_type, tensor_float. simpl.
  destruct (rectangular rows); simpl; [|reflexivity].
  destruct (nodeLabels export) as [labels|];
    [destruct (LoadNeo4j.dict_get k labels)|]; reflexivity.
Qed.

Lemma node_loop_accepts (nf : list (string * list (list Num))) (data : Data) :
  accepted (efor (load_node_type to_float export) nf data) = true <->
  Forall (fun item => rectangular (snd item) = true) nf.
Proof.
  revert data; induction nf as [|item nf IH]; intros data; simpl.
  - split; [constructor | reflexivity].
  - pose proof (node_step_accepts item data) as Ha.
    destruct (load_node_type to_float export item data) as [e|d1]; simpl in *.
    + split; [discriminate|]. intros H. inversion H; congruence.
    + rewrite IH. split; [constructor; auto | intros H; inversion H; auto].
Qed.

Lemma node_loop_frame (nf : list (string * list (list Num))) (data data' : Data)
  (k : string) :
  efor (load_node_type to_float export) nf data = inr data' ->
  edge_stores data' = edge_stores data /\
  (~ In k (map fst nf) -> node_stores data' !! k = node_stores data !! k).
Proof.
  revert data; induction nf as [|[k0 rows0] nf IH]; intros data H.
  - simpl in H. injection H as <-. auto.
  - cbn [efor] in H.
    destruct (load_node_type to_float export (k0, rows0) data) as [e|d1] eqn:E;
      simpl in H; [discriminate|].
    destruct (node_step _ _ _ _ E) as (_ & He & Hfr & _).
    destruct (IH d1 H) as [He' Hn]. split; [congruence|].
    intros Hnin. simpl in Hnin. rewrite Hn by tauto. apply Hfr.
    intros ->. tauto.
Qed.

Lemma node_loop_stored (nf : list (string * list (list Num))) (data data' : Data)
  (k : string) (rows : list (list Num)) :
  efor (load_node_type to_float export) nf data = inr data' ->
  NoDup (map fst nf) ->
  In (k, rows) nf ->
  node_stores data !! k = None ->
  exists st,
    node_stores data' !! k = Some st /\
    ns_x st = Some (mkTensor (map (map to_float) rows)) /\
    ns_labels st = listed_labels export k.
Proof.
  revert data; induction nf as [|[k0 rows0] nf IH]; intros data H Hnd Hin Hnone.
  - destruct Hin.
  - cbn [efor] in H. simpl in Hnd. apply NoDup_cons in Hnd as [Hk0 Hnd].
    destruct (load_node_type to_float export (k0, rows0) data) as [e|d1] eqn:E;
      simpl in H; [discriminate|].
    destruct (node_step _ _ _ _ E) as (_ & _ & Hfr & st & Hst & Hx & Hl).
    destruct Hin as [Heq|Hin].
    + injection Heq as -> ->. exists st.
      destruct (node_loop_frame nf d1 data' k H) as [_ Hn].
      rewrite Hn; [|intros Hc; apply Hk0, list_elem_of_In, Hc].
      split; [exact Hst|]. split; [exact Hx|].
      rewrite Hl. unfold node_store. rewrite Hnone. simpl.
      destruct (listed_labels export k); reflexivity.
    + apply (IH d1); auto. rewrite Hfr; [exact Hnone|].
      intros ->. apply Hk0, list_elem_of_In.
      apply (in_map fst) in Hin. exact Hin.
Qed.

Lemma node_loop_domain (nf : list (string * list (list Num))) (data data' : Data)
  (k : string) :
  efor (load_node_type to_float export) nf data = inr data' ->
  is_Some (node_stores data' !! k) <->
  In k (map fst nf) \/ is_Some (node_stores data !! k).
Proof.
  revert data; induction nf as [|[k0 rows0] nf IH]; intros data H.
  - simpl in H. injection H as <-. simpl. tauto.
  - cbn [efor] in H.
    destruct (load_node_type to_float export (k0, rows0) data) as [e|d1] eqn:E;
      simpl in H; [discriminate|].
    destruct (node_step _ _ _ _ E) as (_ & _ & Hfr & st & Hst & _).
    rewrite (IH d1 H). simpl. destruct (String.eq_dec k k0) as [->|Hne].
    + rewrite Hst. split; [auto|]. intros _. right. eauto.
    + rewrite (Hfr k Hne). split; [tauto|]. intros [[Hc|Hi]|Hs]; auto.
      congruence.
Qed.

(** The edge loop leaves the node stores alone. *)
Lemma edge_step_nodes (item : string * list (list Z)) (data data' : Data) :
  load_edge_type to_float export item data = inr data' ->
  node_stores data' = node_stores data.
Proof.
  destruct item as [k idx]. unfold load_edge_type.
  destruct (split "," k) as [|s [|r [|d [|]]]]; try discriminate.
  destruct (tensor_long idx); simpl; [discriminate|].
  destruct (edgeFeatures export) as [feats|];
    [destruct (LoadNeo4j.dict_get k feats) as [ef|];
     [destruct (has_edge_feats ef);
      [destruct (tensor_float to_float ef); simpl; [discriminate|]|]|]|];
    intros H; injection H as <-; reflexivity.
Qed.

Lemma edge_loop_nodes (ei : list (string * list (list Z))) (data data' : Data) :
  efor (load_edge_type to_float export) ei data = inr data' ->
  node_stores data' = node_stores data.
Proof.
  revert data; induction ei as [|item ei IH]; intros data H.
  - simpl in H. injection H as <-. reflexivity.
  - cbn [efor] in H.
    destruct (load_edge_type to_float export item data) as [e|d1] eqn:E;
      simpl in H; [discriminate|].
    rewrite (IH d1 H). apply (edge_step_nodes _ _ _ E).
Qed.

Lemma edge_step_accepts (item : string * list (list Z)) (data : Data) :
  accepted (load_edge_type to_float export item data) = true <->
  edge_entry_ok export item.
Proof.
  destruct item as [k idx]. unfold load_edge_type, edge_entry_ok. simpl.
  destruct (split "," k) as [|s [|r [|d [|]]]]; simpl;
    try (split; [discriminate | intros [H _]; discriminate H]).
  unfold tensor_long.
  destruct (rectangular idx); simpl;
    [|split; [discriminate | intros (_ & H & _); discriminate H]].
  destruct (forallb (forallb is_int64) idx); simpl;
    [|split; [discriminate | intros (_ & _ & H & _); discriminate H]].
  destruct (edgeFeatures export) as [feats|]; simpl.
  - destruct (LoadNeo4j.dict_get k feats) as [ef|] eqn:Ek; simpl.
    + destruct (has_edge_feats ef) eqn:Eh; simpl.
      * unfold tensor_float. destruct (rectangular ef) eqn:Er; simpl.
        -- split; [|reflexivity]. intros _. repeat split; auto.
           intros feats' ef' Hf Hk _. congruence.
        -- split; [discriminate|]. intros (_ & _ & _ & H).
           specialize (H feats ef eq_refl Ek Eh). congruence.
      * split; [|reflexivity]. intros _. repeat split; auto.
        intros feats' ef' Hf Hk Hh. congruence.
    + split; [|reflexivity]. intros _. repeat split; auto.
      intros feats' ef' Hf Hk. congruence.
  - split; [|reflexivity]. intros _. repeat split; auto.
    intros feats' ef' Hf. discriminate.
Qed.

Lemma edge_loop_accepts (ei : list (string * list (list Z))) (data : Data) :
  accepted (efor (load_edge_type to_float export) ei data) = true <->
  Forall (edge_entry_ok export) ei.
Proof.
  revert data; induction ei as [|item ei IH]; intros data; simpl.
  - split; [constructor | reflexivity].
  - pose proof (edge_step_accepts item data) as Ha.
    destruct (load_edge_type to_float export item data) as [e|d1]; simpl in *.
    + split; [discriminate|]. intros H. inversion H as [|? ? Hi _]; subst.
      apply Ha in Hi. discriminate.
    + rewrite IH. split.
      * intros H. constructor; [apply Ha; reflexivity | exact H].
      * intros H. inversion H; auto.
Qed.

(** X18. The assembler takes an export only if it has both
    [nodeFeatures] and [edgeIndices], every node group has rows of one
    length, every edge key has three comma-separated parts, every index
    buffer has rows of one length with 64-bit entries, and every usable
    edge feature buffer has rows of one length: an export that lacks one
    of these is refused. Whether the tensor library can convert every
    value is a further matter and not part of this statement. *)
Theorem accepted_only_if_well_shaped :
  accepted (load_hetero_graph to_float export) = true -> well_shaped export.
Proof.
  unfold load_hetero_graph, well_shaped.
  destruct (nodeFeatures export) as [nf|]; simpl; [|discriminate].
  pose proof (node_loop_accepts nf hetero_empty) as Hn.
  destruct (efor (load_node_type to_float export) nf hetero_empty) as [e|d0];
    simpl in *; [discriminate|].
  destruct (edgeIndices export) as [ei|]; simpl; [|discriminate].
  intros H. exists nf, ei. repeat split; [apply Hn; reflexivity|].
  apply (edge_loop_accepts ei d0). exact H.
Qed.

(** X19. In an accepted export with distinct node types, every node group
    is found under its type with its feature rows in order, one tensor
    row for each, and with the labels listed for the type, if any; and
    there is a node store for the node types of [nodeFeatures] only, none
    for a type that only an edge key names. *)
Theorem node_groups_are_stored (data : Data)
  (nf : list (string * list (list Num))) :
  load_hetero_graph to_float export = inr data ->
  nodeFeatures export = Some nf ->
  NoDup (map fst nf) ->
  (forall k rows,
      In (k, rows) nf ->
      exists st,
        node_stores data !! k = Some st /\
        ns_x st = Some (mkTensor (map (map to_float) rows)) /\
        shape0 <$> ns_x st = Some (length rows) /\
        ns_labels st = listed_labels export k) /\
  (forall k, is_Some (node_stores data !! k) <-> In k (map fst nf)).
Proof.
  intros Hload Hnf Hnd. unfold load_hetero_graph in Hload.
  rewrite Hnf in Hload. simpl in Hload.
  destruct (efor (load_node_type to_float export) nf hetero_empty)
    as [e|d0] eqn:E0; simpl in Hload; [discriminate|].
  destruct (edgeIndices export) as [ei|]; simpl in Hload; [|discriminate].
  rewrite (edge_loop_nodes ei d0 data Hload). split.
  - intros k rows Hin.
    destruct (node_loop_stored nf hetero_empty d0 k rows E0 Hnd Hin)
      as (st & Hst & Hx & Hl); [apply lookup_empty|].
    exists st. split; [exact Hst|]. split; [exact Hx|]. split; [|exact Hl].
    rewrite Hx. simpl. unfold shape0. simpl. rewrite length_map. reflexivity.
  - intros k. rewrite (node_loop_domain nf hetero_empty d0 k E0).
    simpl. rewrite lookup_empty. split; [|auto].
    intros [H|[x Hx]]; [exact H | discriminate].
Qed.

(** One turn of the edge loop without usable features keeps what the
    store of the triplet had for [edge_attr]. *)
Lemma edge_step_no_feats (k : string) (idx : list (list Z)) (data data' : Data)
  (s r d : string) :
  load_edge_type to_float export (k, idx) data = inr data' ->
  split "," k = [s; r; d] ->
  usable_feats export k = None ->
  exists st,
    edge_stores data' !! (s, r, d) = Some st /\
    es_edge_attr st = es_edge_attr (edge_store (s, r, d) data).
Proof.
  unfold load_edge_type, usable_feats. intros H Hs. rewrite Hs in H.
  destruct (tensor_long idx); simpl in H; [discriminate|].
  destruct (edgeFeatures export) as [feats|];
    [destruct (LoadNeo4j.dict_get k feats) as [ef|];
     [destruct (has_edge_feats ef); [discriminate|]|]|];
    intros _; injection H as <-; simpl; rewrite lookup_insert_eq;
    eexists; split; reflexivity.
Qed.

Lemma edge_loop_no_feats (ei : list (string * list (list Z))) (data data' : Data)
  (k : string) (idx : list (list Z)) (s r d : string) :
  efor (load_edge_type to_float export) ei data = inr data' ->
  NoDup (map fst ei) ->
  In (k, idx) ei ->
  split "," k = [s; r; d] ->
  usable_feats export k = None ->
  edge_stores data !! (s, r, d) = None ->
  exists st,
    edge_stores data' !! (s, r, d) = Some st /\ es_edge_attr st = None.
Proof.
  revert data; induction ei as [|[k0 idx0] ei IH];
    intros data H Hnd Hin Hs Hu Hnone.
  - destruct Hin.
  - cbn [efor] in H. simpl in Hnd. apply NoDup_cons in Hnd as [Hk0 Hnd].
    destruct (load_edge_type to_float export (k0, idx0) data) as [e|d1] eqn:E;
      simpl in H; [discriminate|].
    destruct Hin as [Heq|Hin].
    + injection Heq as -> ->.
      destruct (edge_step_no_feats _ _ _ _ _ _ _ E Hs Hu) as (st & Hst & Ha).
      exists st.
      rewrite (edge_loop_frame to_float export ei d1 data' k (s, r, d) H);
        [| intros Hc; apply Hk0, list_elem_of_In, Hc | exact Hs].
      split; [exact Hst|]. rewrite Ha. unfold edge_store. rewrite Hnone.
      reflexivity.
    + apply (IH d1); auto.
      destruct (edge_step to_float export _ _ _ _ E)
        as (s0 & r0 & d0' & st0 & Hs0 & _ & _ & _ & Hfr).
      rewrite Hfr; [exact Hnone|]. intros Heq. injection Heq as <- <- <-.
      apply Hk0, list_elem_of_In. apply (in_map fst) in Hin. simpl in Hin.
      replace k0 with k; [exact Hin|]. apply (split_inj ","). congruence.
Qed.

(** X20. In an accepted export with distinct edge keys, a triplet for
    which no edge features are listed, or an empty list, or a list whose
    first row is empty, gets its index buffer and no feature buffer. *)
Theorem no_edge_features_no_buffer (data : Data)
  (ei : list (string * list (list Z))) (k : string) (idx : list (list Z)) :
  load_hetero_graph to_float export = inr data ->
  edgeIndices export = Some ei ->
  NoDup (map fst ei) ->
  In (k, idx) ei ->
  usable_feats export k = None ->
  exists s r d st,
    split "," k = [s; r; d] /\
    edge_stores data !! (s, r, d) = Some st /\
    es_edge_index st = Some (mkTensor idx) /\
    es_edge_attr st = None.
Proof.
  intros Hload Hei Hnd Hin Hu. unfold load_hetero_graph in Hload.
  destruct (nodeFeatures export) as [nf|]; simpl in Hload; [|discriminate].
  destruct (efor (load_node_type to_float export) nf hetero_empty)
    as [e|d0] eqn:E0; simpl in Hload; [discriminate|].
  rewrite Hei in Hload. simpl in Hload.
  destruct (edge_loop_stored to_float export ei d0 data k idx Hload Hnd Hin)
    as (s & r & d & st & Hs & Hst & Hi & _).
  destruct (edge_loop_no_feats ei d0 data k idx s r d Hload Hnd Hin Hs Hu)
    as (st' & Hst' & Ha).
  { destruct (node_loop_frame nf hetero_empty d0 k E0) as [He _].
    rewrite He. apply lookup_empty. }
  exists s, r, d, st. rewrite Hst in Hst'. injection Hst' as <-. auto.
Qed.

Lemma efor_errors {A} (body : A -> Data -> exn + Data) (l : list A)
  (data : Data) (e : exn) (Q : exn -> Prop) :
  (forall a d e', body a d = inl e' -> Q e') ->
  efor body l data = inl e -> Q e.
Proof.
  intros Hb. revert data; induction l as [|a l IH]; intros data; simpl.
  - discriminate.
  - destruct (body a data) as [e'|d1] eqn:E; simpl; [|apply IH].
    intros H. injection H as <-. exact (Hb _ _ _ E).
Qed.

(** X21. The two dictionaries the assembler subscripts without asking.
    Without [nodeFeatures] it raises [KeyError] for that name, whatever
    else the export holds. And a [KeyError] is raised for nothing else
    than a missing [nodeFeatures], or a missing [edgeIndices] once every
    node group has been taken; [nodeLabels] and [edgeFeatures] may be
    absent. *)
Theorem assembler_key_errors :
  (nodeFeatures export = None ->
   load_hetero_graph to_float export = inl (KeyError "nodeFeatures")) /\
  (forall k,
     load_hetero_graph to_float export = inl (KeyError k) ->
     (k = "nodeFeatures" /\ nodeFeatures export = None) \/
     (k = "edgeIndices" /\ edgeIndices export = None /\
      exists nf, nodeFeatures export = Some nf /\
                 Forall (fun item => rectangular (snd item) = true) nf)).
Proof.
  unfold load_hetero_graph. split; [intros ->; reflexivity|].
  intros k.
  destruct (nodeFeatures export) as [nf|]; simpl;
    [|intros H; injection H as <-; auto].
  pose proof (node_loop_accepts nf hetero_empty) as Hn.
  destruct (efor (load_node_type to_float export) nf hetero_empty)
    as [e0|d0] eqn:E0; simpl.
  - intros H. injection H as ->. exfalso.
    apply (efor_errors _ _ _ _ (fun x => x = ValueError)) in E0;
      [discriminate E0|].
    intros [k' rows] d e'. unfold load_node_type, tensor_float.
    destruct (rectangular rows); simpl; [|congruence].
    destruct (nodeLabels export) as [labels|];
      [destruct (LoadNeo4j.dict_get k' labels)|]; discriminate.
  - destruct (edgeIndices export) as [ei|]; simpl.
    + intros H. exfalso.
      apply (efor_errors _ _ _ _ (fun x => x = ValueError \/ x = RuntimeError))
        in H; [destruct H; discriminate|].
      intros [k' idx] d e'. unfold load_edge_type, tensor_long, tensor_float.
      destruct (split "," k') as [|s [|r [|dd [|]]]];
        try (intros H'; injection H' as <-; auto).
      destruct (rectangular idx); simpl; [|intros H'; injection H' as <-; auto].
      destruct (forallb (forallb is_int64) idx); simpl;
        [|intros H'; injection H' as <-; auto].
      destruct (edgeFeatures export) as [feats|];
        [destruct (LoadNeo4j.dict_get k' feats) as [ef|];
         [destruct (has_edge_feats ef);
          [destruct (rectangular ef); simpl|]|]|];
        try discriminate.
      intros H'; injection H' as <-; auto.
    + intros H. injection H as <-. right. repeat split.
      exists nf. split; [reflexivity|]. apply Hn. reflexivity.
Qed.

End Assembler.

Lemma node_groups_are_stored_witness :
  exists data st,
    load_hetero_graph as_is people = inr data /\
    node_stores data !! "Person" = Some st /\
    ns_x st = Some (mkTensor [[1; 2]; [3; 4]]%Z) /\
    ns_labels st = None /\
    node_stores data !! "Company" = None.
Proof.
  destruct (load_hetero_graph as_is people) as [e|data] eqn:E;
    [vm_compute in E; discriminate E|].
  destruct (node_groups_are_stored as_is people data
              [("Person", [[1; 2]; [3; 4]]%Z)] E eq_refl (NoDup_singleton _))
    as [Hs Hd].
  destruct (Hs "Person" [[1; 2]; [3; 4]]%Z (or_introl eq_refl))
    as (st & Hst & Hx & _ & Hl).
  exists data, st. repeat split; auto.
  destruct (node_stores data !! "Company") eqn:Ec; [|reflexivity].
  assert (Hin : In "Company" (map fst [("Person", [[1; 2]; [3; 4]]%Z)]))
    by (apply Hd; rewrite Ec; eauto).
  simpl in Hin. destruct Hin as [Hin|[]]. discriminate Hin.
Defined.

Lemma no_edge_features_no_buffer_witness :
  exists data st,
    load_hetero_graph as_is people = inr data /\
    edge_stores data !! ("Person", "knows", "Person") = Some st /\
    es_edge_index st = Some (mkTensor [[0]; [1]]%Z) /\
    es_edge_attr st = None.
Proof.
  destruct (load_hetero_graph as_is people) as [e|data] eqn:E;
    [vm_compute in E; discriminate E|].
  destruct (no_edge_features_no_buffer as_is people data
              [(knows, [[0]; [1]]%Z)] knows [[0]; [1]]%Z
              E eq_refl (NoDup_singleton _) (or_introl eq_refl) eq_refl)
    as (s & r & d & st & Hs & Hst & Hi & Ha).
  vm_compute in Hs. injection Hs as <- <- <-.
  exists data, st. auto.
Defined.

Lemma accepted_only_if_well_shaped_witness :
  accepted (load_hetero_graph as_is people) = true /\ well_shaped people.
Proof.
  split; [reflexivity|].
  exact (accepted_only_if_well_shaped as_is people eq_refl).
Defined.

Lemma assembler_key_errors_witness :
  nodeFeatures nodes_only = Some [("Person", [[1; 2]; [3; 4]]%Z)] /\
  load_hetero_graph as_is nodes_only = inl (KeyError "edgeIndices") /\
  edgeIndices nodes_only = None /\
  load_hetero_graph as_is (mkPygExport None None None None)
    = inl (KeyError "nodeFeatures").
Proof.
  assert (H : load_hetero_graph as_is nodes_only = inl (KeyError "edgeIndices"))
    by reflexivity.
  split; [reflexivity|]. split; [exact H|]. split.
  - destruct (proj2 (assembler_key_errors as_is nodes_only) _ H)
      as [[Hk _]|(_ & He & _)]; [discriminate Hk | exact He].
  - exact (proj1 (assembler_key_errors as_is (mkPygExport None None None None))
             eq_refl).
Defined.

End AssemblerMore.

(* ===================================================================== *)
(** ** More about the property-graph writer *)
(* ===================================================================== *)

Module WriterMore.
Import PyStr Py LoadNeo4j Vocabulary MoreVocabulary Samples.
Import PyStrFacts WriterFacts.

Lemma has_dup_NoDup (l : list string) : has_dup l = false <-> NoDup l.
Proof.
  induction l as [|k l IH]; simpl.
  - split; [constructor | reflexivity].
  - rewrite orb_false_iff, IH, NoDup_cons. split.
    + intros [He Hn]. split; [|exact Hn]. intros Hin.
      apply list_elem_of_In in Hin.
      assert (existsb (String.eqb k) l = true)
        by (apply existsb_exists; exists k; split; [exact Hin | apply String.eqb_refl]).
      congruence.
    + intros [Hnin Hn]. split; [|exact Hn].
      apply not_true_is_false. intros He.
      apply existsb_exists in He as (x & Hx & He).
      apply String.eqb_eq in He as ->. apply Hnin, list_elem_of_In, Hx.
Qed.

Lemma dict_set_NoDup {V} (k : string) (v : V) (d : list (string * V)) :
  NoDup (keys d) -> NoDup (keys (dict_set k v d)).
Proof.
  unfold keys. induction d as [|[k' v'] d IH]; simpl; intros Hnd.
  - apply NoDup_singleton.
  - apply NoDup_cons in Hnd as [Hnin Hnd].
    destruct (String.eqb k' k) eqn:E; simpl.
    + apply NoDup_cons. auto.
    + apply NoDup_cons. split; [|auto].
      intros Hin. apply list_elem_of_In in Hin.
      apply (keys_dict_set k k' v d) in Hin as [->|Hin].
      * rewrite String.eqb_refl in E. discriminate.
      * apply Hnin, list_elem_of_In, Hin.
Qed.

Lemma node_call_no_dup (node : ExportedNode) :
  NoDup (keys (default [] (node_properties node))) ->
  has_dup (keys (call_kwargs (node_call node))) = false.
Proof.
  intros H. apply has_dup_NoDup. simpl. unfold node_props.
  apply dict_set_NoDup. exact H.
Qed.

(** X22. The call that creates a node never gives a keyword twice when
    the declared properties do not: putting the marker in replaces a
    declared [_rulenet_id] and adds no second one. *)
Theorem node_call_keywords_distinct (node : ExportedNode) :
  NoDup (keys (default [] (node_properties node))) ->
  has_dup (keys (call_kwargs (node_call node))) = false.
Proof.
  intros H. apply has_dup_NoDup. simpl. unfold node_props.
  apply dict_set_NoDup. exact H.
Qed.

Lemma has_dup_two (a b : string) (ks : list string) :
  a <> b -> NoDup ks ->
  (has_dup (a :: b :: ks) = true <-> In a ks \/ In b ks).
Proof.
  intros Hab Hnd. apply has_dup_NoDup in Hnd.
  cbn [has_dup existsb]. rewrite Hnd, orb_false_r.
  apply String.eqb_neq in Hab. rewrite Hab. cbn [orb].
  rewrite orb_true_iff, !existsb_exists. split.
  - intros [(x & Hx & He)|(x & Hx & He)];
      apply String.eqb_eq in He; subst x; auto.
  - intros [H|H]; [left | right]; eexists; (split; [exact H|]);
      apply String.eqb_refl.
Qed.

Lemma rel_call_keyword_clash_aux (rel : ExportedRel) :
  NoDup (keys (default [] (rel_properties rel))) ->
  (has_dup (keys (call_kwargs (rel_call rel))) = true <->
   In "start_id" (keys (default [] (rel_properties rel))) \/
   In "end_id" (keys (default [] (rel_properties rel)))).
Proof.
  intros Hnd.
  change (keys (call_kwargs (rel_call rel)))
    with ("start_id" :: "end_id" :: keys (default [] (rel_properties rel))).
  apply has_dup_two; [discriminate | exact Hnd].
Qed.

(** X23. The call that creates a relationship gives a keyword twice
    exactly when the relationship declares a property named [start_id]
    or [end_id], the names of the two parameters of its query; in the
    in-memory database, as in Python, such a call fails with [TypeError],
    and the relationship is passed over. *)
Theorem rel_call_keyword_clash (rel : ExportedRel) :
  NoDup (keys (default [] (rel_properties rel))) ->
  (has_dup (keys (call_kwargs (rel_call rel))) = true <->
   In "start_id" (keys (default [] (rel_properties rel))) \/
   In "end_id" (keys (default [] (rel_properties rel)))) /\
  (has_dup (keys (call_kwargs (rel_call rel))) = true ->
   forall faulty n (w : World MemStore (JVal * JVal)),
     create_rel (mem_driver faulty) rel n w =
     (inr n, mkWorld (db w) (trace w ++ [(rel_call rel, inl TypeError)]))).
Proof.
  intros Hnd. split.
  - apply rel_call_keyword_clash_aux. exact Hnd.
  - intros Hd faulty n w.
    unfold create_rel, try_except, bind, session_run, mem_driver.
    rewrite Hd. simpl. destruct w; reflexivity.
Qed.

Lemma node_call_keywords_distinct_witness :
  NoDup (keys (default [] (node_properties shadowed))) /\
  has_dup (keys (call_kwargs (node_call shadowed))) = false /\
  keys (call_kwargs (node_call shadowed)) = ["_rulenet_id"; "label"].
Proof.
  assert (H : NoDup (keys (default [] (node_properties shadowed)))).
  { apply has_dup_NoDup. reflexivity. }
  split; [exact H|]. split; [|reflexivity].
  exact (node_call_keywords_distinct shadowed H).
Defined.

Lemma rel_call_keyword_clash_witness :
  NoDup (keys (default [] (rel_properties clashing_rel))) /\
  create_rel (mem_driver no_fault) clashing_rel 0 (fresh mem_empty) =
  (inr 0, mkWorld mem_empty [(rel_call clashing_rel, inl TypeError)]).
Proof.
  assert (H : NoDup (keys (default [] (rel_properties clashing_rel)))).
  { apply has_dup_NoDup. reflexivity. }
  split; [exact H|].
  destruct (rel_call_keyword_clash clashing_rel H) as [Hiff Hrun].
  apply (Hrun (proj2 Hiff (or_introl (or_introl eq_refl)))).
Defined.

End WriterMore.
